(** * Battleship game core (src/pages/Battleship.tsx)

    A shallow embedding of the game engine of the page component: the board
    model, the random fleet placement, the shot resolver [registerHit], the
    win check and the two firing handlers, followed by the properties the
    specification states about them.

    JavaScript numbers that the engine handles (coordinates, ship ids, sizes,
    hit counters) are integers and are modelled by [Z]. Arrays are lists,
    the [Record<number, Ship>] object is a finite map keyed by [Z].

    The last part of the file looks at the rest of the page and at what
    surrounds the engine: the labels and the buttons that [Grid] renders,
    the counters of ships left, the shot counters of
    src/hooks/useGameTracking.ts, and the statistics and durations of
    src/components/GameResults.tsx. *)

From Stdlib Require Import Ascii.
From stdpp Require Import gmap list strings pretty.

Local Open Scope Z_scope.

(** ** Results of running a piece of the program *)

(** A call either returns a value, throws (a [TypeError] on reading a
    property of [undefined]), or returns normally with a value that is no
    longer an inhabitant of the declared TypeScript type (an array with a
    hole, a fleet with the key ["undefined"]). *)
Inductive outcome (A : Type) : Type :=
  | Returned (a : A)
  | Thrown
  | IllTyped.
Arguments Returned {A} a.
Arguments Thrown {A}.
Arguments IllTyped {A}.

Global Instance outcome_bind : MBind outcome := λ A B k m,
  match m with
  | Returned a => k a
  | Thrown => Thrown
  | IllTyped => IllTyped
  end.

(** A [for] loop whose body may [return false] early and which is followed
    by [return true]. *)
Fixpoint loop_all {A} (body : A → outcome bool) (l : list A) : outcome bool :=
  match l with
  | [] => Returned true
  | a :: l' =>
      match body a with
      | Returned true => loop_all body l'
      | r => r
      end
  end.

(** A [for] loop that updates local state. *)
Fixpoint loop_state {S A} (body : S → A → outcome S) (s : S) (l : list A)
    : outcome S :=
  match l with
  | [] => Returned s
  | a :: l' => s' ← body s a; loop_state body s' l'
  end.

(** ** Types *)

Abbreviation Coord := (Z * Z)%type.

Record Cell := mkCell { hasShip : bool; hit : bool; shipId : option Z }.

Abbreviation Board := (list (list Cell)).

Module Ship.
Record t := mk { id : Z; size : Z; hits : Z }.
End Ship.

Abbreviation Fleet := (gmap Z Ship.t).

Global Instance Cell_eq_dec : EqDecision Cell.
Proof. solve_decision. Defined.

Global Instance Ship_eq_dec : EqDecision Ship.t.
Proof. solve_decision. Defined.

Definition BOARD_SIZE : Z := 10.
Definition SHIP_SIZES : list Z := [4; 3; 3; 2; 2; 2; 1; 1; 1; 1].

(** [a[i]] for an integer [i]: [undefined] outside the array. *)
Definition index {A} (l : list A) (i : Z) : option A :=
  if i <? 0 then None else l !! Z.to_nat i.

(** [board[y][x]]; [None] when the row or the cell is [undefined]. *)
Definition getCell (board : Board) (x y : Z) : option Cell :=
  match index board y with
  | Some row => index row x
  | None => None
  end.

(** [board[y][x] = c] for a cell that exists; the callers below write only
    to cells they have just read. *)
Definition setCell (board : Board) (x y : Z) (c : Cell) : Board :=
  alter (λ row, <[Z.to_nat x := c]> row) (Z.to_nat y) board.

(** [board[y][x] = c] in general: a missing row throws, a column outside the
    row would extend the row and leave holes in it. *)
Definition writeCell (board : Board) (x y : Z) (c : Cell) : outcome Board :=
  match index board y with
  | None => Thrown
  | Some row =>
      if (0 <=? x) && (x <? Z.of_nat (length row))
      then Returned (setCell board x y c)
      else IllTyped
  end.

Definition emptyCell : Cell :=
  {| hasShip := false; hit := false; shipId := None |}.

Definition createEmptyBoard : Board :=
  replicate (Z.to_nat BOARD_SIZE) (replicate (Z.to_nat BOARD_SIZE) emptyCell).

Definition inBounds (x y : Z) : bool :=
  (0 <=? x) && (0 <=? y) && (x <? BOARD_SIZE) && (y <? BOARD_SIZE).

(** ** Placement *)

(** The offsets [dx], [dy] of the two nested loops, [dx] outermost. *)
Definition offsets : list (Z * Z) :=
  dx ← [-1; 0; 1]; dy ← [-1; 0; 1]; [(dx, dy)].

(** Cell [i] of a ship anchored at [(x, y)]. *)
Definition shipCell (x y : Z) (horizontal : bool) (i : Z) : Coord :=
  (if horizontal then x + i else x, if horizontal then y else y + i).

Definition canPlaceShip (board : Board) (x y size : Z) (horizontal : bool)
    : outcome bool :=
  loop_all (λ i,
    let '(cx, cy) := shipCell x y horizontal i in
    if negb (inBounds cx cy) then Returned false
    else
      loop_all (λ '(dx, dy),
        let nx := cx + dx in
        let ny := cy + dy in
        if inBounds nx ny then
          match getCell board nx ny with
          | Some c => Returned (negb (hasShip c))
          | None => Thrown
          end
        else Returned true) offsets)
    (seqZ 0 size).

(** A value returned by [Math.random()]. The program looks at a draw [r]
    only through [r < 0.5] and [Math.floor(r * n)], so a draw is given by
    the results of these two operations. *)
Record draw := mkDraw { lt_half : bool; floor_mul : Z → Z }.

(** The sequence of values that successive calls of [Math.random()]
    return. *)
Abbreviation rng := (nat → draw).

(** Local variables of [placeShipsRandomly], and the number of calls of
    [Math.random()] made so far. *)
Record placing := mkPlacing {
  p_board : Board;
  p_ships : gmap Z Ship.t;
  p_shipId : Z;
  p_calls : nat
}.

(** The body of the [if] that follows a successful [canPlaceShip]. *)
Definition placeShip (st : placing) (x y size : Z) (horizontal : bool)
    : outcome placing :=
  let shipId := p_shipId st in
  board ← loop_state (λ board i,
             let '(cx, cy) := shipCell x y horizontal i in
             writeCell board cx cy
               {| hasShip := true; hit := false; shipId := Some shipId |})
           (p_board st) (seqZ 0 size);
  Returned {| p_board := board;
              p_ships := <[shipId := Ship.mk shipId size 0]> (p_ships st);
              p_shipId := shipId + 1;
              p_calls := p_calls st |}.

(** The [while (!placed && attempts < 500)] loop; [left] is the number of
    iterations that remain before [attempts] reaches 500. *)
Fixpoint attempts (rand : rng) (size : Z) (left : nat) (st : placing)
    : outcome placing :=
  match left with
  | O => Returned st
  | S left' =>
      let k := p_calls st in
      let horizontal := lt_half (rand k) in
      let x := floor_mul (rand (S k))
                 (if horizontal then BOARD_SIZE - size + 1 else BOARD_SIZE) in
      let y := floor_mul (rand (S (S k)))
                 (if horizontal then BOARD_SIZE else BOARD_SIZE - size + 1) in
      let st' := {| p_board := p_board st; p_ships := p_ships st;
                    p_shipId := p_shipId st; p_calls := S (S (S k)) |} in
      match canPlaceShip (p_board st) x y size horizontal with
      | Returned false => attempts rand size left' st'
      | Returned true => placeShip st' x y size horizontal
      | Thrown => Thrown
      | IllTyped => IllTyped
      end
  end.

(** [placeShipsRandomly()], started after [calls] draws; it also returns the
    number of draws made when it finishes. *)
Definition placeShipsRandomly (rand : rng) (calls : nat)
    : outcome (Board * gmap Z Ship.t * nat) :=
  st ← loop_state (λ st size, attempts rand size 500 st)
         {| p_board := createEmptyBoard; p_ships := ∅;
            p_shipId := 1; p_calls := calls |}
         SHIP_SIZES;
  Returned (p_board st, p_ships st, p_calls st).

(** ** Shot resolution *)

(** [board.map((row) => row.map((c) => ({ ...c })))]. On values a copy of a
    cell is the cell; the heap model below separates the copy from the
    original. *)
Definition cloneBoard (board : Board) : Board :=
  map (λ row, map (λ c, mkCell (hasShip c) (hit c) (shipId c)) row) board.

Inductive result := Repeat | Miss | Hit | Sunk.

Global Instance result_eq_dec : EqDecision result.
Proof. solve_decision. Defined.

(** Truthiness of [cell.shipId]: [undefined] and [0] are falsy. *)
Definition truthy (o : option Z) : bool :=
  match o with
  | Some n => negb (n =? 0)
  | None => false
  end.

Definition registerHit (board : Board) (ships : gmap Z Ship.t) (x y : Z)
    : outcome (Board * gmap Z Ship.t * result) :=
  let next := cloneBoard board in
  match getCell next x y with
  | None => Thrown
  | Some cell =>
      if hit cell then Returned (next, ships, Repeat)
      else
        let cell := mkCell (hasShip cell) true (shipId cell) in
        let next := setCell next x y cell in
        if hasShip cell && truthy (shipId cell) then
          match shipId cell ≫= (ships !!.) with
          | None =>
              (* [{ ...undefined }] is [{}]: the copy has no [id], and is
                 stored under the key ["undefined"] *)
              IllTyped
          | Some s =>
              let ship := Ship.mk (Ship.id s) (Ship.size s) (Ship.hits s + 1) in
              let sunk := Ship.size ship <=? Ship.hits ship in
              let updated := <[Ship.id ship := ship]> ships in
              Returned (next, updated, if sunk then Sunk else Hit)
          end
        else Returned (next, ships, Miss)
  end.

(** [Object.values(ships).every((s) => s.hits >= s.size)]. *)
Definition checkWin (ships : gmap Z Ship.t) : bool :=
  forallb (λ s, Ship.size s <=? Ship.hits s) (map_to_list ships).*2.

(** ** The component state and the two firing handlers *)

Inductive side := player | cpu.

Global Instance side_eq_dec : EqDecision side.
Proof. solve_decision. Defined.

(** The [useState] cells of the component, with the two shot counters of
    [useGameTracking]. *)
Record game := mkGame {
  playerBoard : Board;
  cpuBoard : Board;
  playerShips : gmap Z Ship.t;
  cpuShips : gmap Z Ship.t;
  playerTurn : bool;
  gameOver : option side;
  cpuLastShot : option Coord;
  playerShots : Z;
  computerShots : Z
}.

(** The state of the component before the first [newGame]. *)
Definition initialGame : game :=
  {| playerBoard := createEmptyBoard; cpuBoard := createEmptyBoard;
     playerShips := ∅; cpuShips := ∅;
     playerTurn := true; gameOver := None; cpuLastShot := None;
     playerShots := 0; computerShots := 0 |}.

Definition newGame (rand : rng) (calls : nat) (st : game) : outcome (game * nat) :=
  '(pb, ps, calls) ← placeShipsRandomly rand calls;
  '(cb, cs, calls) ← placeShipsRandomly rand calls;
  Returned ({| playerBoard := pb; cpuBoard := cb;
               playerShips := ps; cpuShips := cs;
               playerTurn := true; gameOver := None; cpuLastShot := None;
               playerShots := 0; computerShots := 0 |}, calls).

(** [playerFire(x, y)], applied to the state [st] that the handler reads.
    The toasts and the persistence call are left out; the
    [setTimeout(cpuFire, 700)] of the miss branch is the environment's later
    call of [cpuFire]. *)
Definition playerFire (st : game) (x y : Z) : outcome game :=
  if bool_decide (is_Some (gameOver st)) || negb (playerTurn st) then Returned st
  else
    '(nb, ns, result) ← registerHit (cpuBoard st) (cpuShips st) x y;
    let st := {| playerBoard := playerBoard st; cpuBoard := nb;
                 playerShips := playerShips st; cpuShips := ns;
                 playerTurn := playerTurn st; gameOver := gameOver st;
                 cpuLastShot := cpuLastShot st;
                 playerShots := playerShots st + 1;
                 computerShots := computerShots st |} in
    if checkWin ns then
      Returned {| playerBoard := playerBoard st; cpuBoard := cpuBoard st;
                  playerShips := playerShips st; cpuShips := cpuShips st;
                  playerTurn := playerTurn st; gameOver := Some player;
                  cpuLastShot := cpuLastShot st;
                  playerShots := playerShots st;
                  computerShots := computerShots st |}
    else
      Returned {| playerBoard := playerBoard st; cpuBoard := cpuBoard st;
                  playerShips := playerShips st; cpuShips := cpuShips st;
                  playerTurn := if decide (result = Miss) then false else true;
                  gameOver := gameOver st;
                  cpuLastShot := cpuLastShot st;
                  playerShots := playerShots st;
                  computerShots := computerShots st |}.

(** The coordinates in the order of the two nested loops of [cpuFire],
    [y] outermost. *)
Definition coords : list Coord :=
  y ← seqZ 0 BOARD_SIZE; x ← seqZ 0 BOARD_SIZE; [(x, y)].

(** The candidate list built by [cpuFire]. *)
Definition candidates (board : Board) : outcome (list Coord) :=
  loop_state (λ acc '(x, y),
    match getCell board x y with
    | Some c => Returned (if hit c then acc else acc ++ [(x, y)])
    | None => Thrown
    end) [] coords.

(** [cpuFire()], applied to the state [st] that the handler reads, with [r]
    the value its call of [Math.random()] returns. The handler reads the
    board and the fleet through the two state updaters; the fleet comes from
    the first call of [registerHit], the board from the second.

    This is [cpuFire] as a render of the state [st] defines it: its guard
    tests the [gameOver] of [st]. The call that a timer makes later is
    [cpuFireFrom] below, which does the same to a state whose game is not
    over. *)
Definition cpuFire (st : game) (r : draw) : outcome game :=
  if bool_decide (is_Some (gameOver st)) then Returned st
  else
    let currentBoard := playerBoard st in
    let currentShips := playerShips st in
    cands ← candidates currentBoard;
    if bool_decide (cands = []) then Returned st
    else
      match index cands (floor_mul r (Z.of_nat (length cands))) with
      | None => Thrown
      | Some (px, py) =>
          '(_, ns, result) ← registerHit currentBoard currentShips px py;
          '(nb, _, _) ← registerHit currentBoard (playerShips st) px py;
          Returned {| playerBoard := nb; cpuBoard := cpuBoard st;
                      playerShips := ns; cpuShips := cpuShips st;
                      playerTurn :=
                        if checkWin ns then playerTurn st
                        else if decide (result = Miss) then true else false;
                      gameOver :=
                        if checkWin ns then Some cpu else gameOver st;
                      cpuLastShot := Some (px, py);
                      playerShots := playerShots st;
                      computerShots := computerShots st + 1 |}
      end.

(** ** The closures that timers run

    Nothing calls [cpuFire] but a timer: [playerFire] arms one after a miss
    (line 269) and [cpuFire] arms the next one after a hit (line 315). A
    timer runs the [cpuFire] of the render that armed it. That function
    reads [gameOver], for its guard, and [playerShips], for its second call
    of [registerHit], as that render had them; the two state updaters give
    it the board and the fleet of the moment at which it runs. *)
Record closure := mkClosure {
  c_gameOver : option side;
  c_playerShips : gmap Z Ship.t
}.

(** The [board] of [registerHit(board, ships, x, y)], which is all that
    the second call in [cpuFire] keeps. The fleet has no part in it: the
    call returns the same board for every fleet, also for one of an earlier
    game that lacks the ship of the cell, where [{ ...undefined }] is
    [{}]. *)
Definition registerHitBoard (board : Board) (ships : gmap Z Ship.t) (x y : Z)
    : outcome Board :=
  let next := cloneBoard board in
  match getCell next x y with
  | None => Thrown
  | Some cell =>
      if hit cell then Returned next
      else Returned (setCell next x y (mkCell (hasShip cell) true (shipId cell)))
  end.

(** The closure of the render of the state [st]. *)
Definition closureOf (st : game) : closure :=
  {| c_gameOver := gameOver st; c_playerShips := playerShips st |}.

(** [cpuFire()] as the closure [cl] runs it in the state [st]. It also
    returns the timers that the call arms: none, or one that runs the same
    closure again. *)
Definition cpuFireFrom (cl : closure) (st : game) (r : draw)
    : outcome (game * list closure) :=
  if bool_decide (is_Some (c_gameOver cl)) then Returned (st, [])
  else
    let currentBoard := playerBoard st in
    let currentShips := playerShips st in
    cands ← candidates currentBoard;
    if bool_decide (cands = []) then Returned (st, [])
    else
      match index cands (floor_mul r (Z.of_nat (length cands))) with
      | None => Thrown
      | Some (px, py) =>
          '(_, ns, result) ← registerHit currentBoard currentShips px py;
          nb ← registerHitBoard currentBoard (c_playerShips cl) px py;
          Returned ({| playerBoard := nb; cpuBoard := cpuBoard st;
                       playerShips := ns; cpuShips := cpuShips st;
                       playerTurn :=
                         if checkWin ns then playerTurn st
                         else if decide (result = Miss) then true else false;
                       gameOver :=
                         if checkWin ns then Some cpu else gameOver st;
                       cpuLastShot := Some (px, py);
                       playerShots := playerShots st;
                       computerShots := computerShots st + 1 |},
                    if checkWin ns then []
                    else if decide (result = Miss) then [] else [cl])
      end.

(** [playerFire(x, y)] with the timer it arms: after a miss that does not
    end the game, one that runs the [cpuFire] of the render that the
    handler belongs to. *)
Definition playerFireT (st : game) (x y : Z) : outcome (game * list closure) :=
  if bool_decide (is_Some (gameOver st)) || negb (playerTurn st)
  then Returned (st, [])
  else
    '(_, ns, result) ← registerHit (cpuBoard st) (cpuShips st) x y;
    st' ← playerFire st x y;
    Returned (st', if checkWin ns then []
                   else if decide (result = Miss) then [closureOf st] else []).

(** ** Vocabulary of the specification *)

(** A board as [createEmptyBoard] makes it: ten rows of ten cells. *)
Definition board_ok (b : Board) : Prop :=
  length b = Z.to_nat BOARD_SIZE ∧
  Forall (λ row : list Cell, length row = Z.to_nat BOARD_SIZE) b.

(** The cell at a coordinate exists and satisfies [p]. *)
Definition cellIs (p : Cell → bool) (b : Board) (xy : Coord) : bool :=
  match getCell b xy.1 xy.2 with
  | Some c => p c
  | None => false
  end.

(** The coordinates of the cells that satisfy [p]. *)
Definition cellsWhere (p : Cell → bool) (b : Board) : list Coord :=
  filter (λ xy, cellIs p b xy) coords.

Definition ofShip (i : Z) (c : Cell) : bool := bool_decide (shipId c = Some i).
Definition firedOfShip (i : Z) (c : Cell) : bool := ofShip i c && hit c.

Definition chebyshev (a b : Coord) : Z :=
  Z.max (Z.abs (a.1 - b.1)) (Z.abs (a.2 - b.2)).

Global Instance board_ok_dec b : Decision (board_ok b).
Proof. unfold board_ok. apply _. Defined.

(** A cell after [cell.hit = true]. *)
Definition fired (c : Cell) : Cell := mkCell (hasShip c) true (shipId c).

Definition sumZ (l : list Z) : Z := foldr Z.add 0 l.

(** The cells of a ship of [size] cells anchored at [(x, y)]. *)
Definition shipCells (x y size : Z) (horizontal : bool) : list Coord :=
  shipCell x y horizontal <$> seqZ 0 size.

(** The sizes of the ships of a fleet, as a list in some order. *)
Definition fleetSizes (ships : gmap Z Ship.t) : list Z :=
  Ship.size <$> (map_to_list ships).*2.

(** The relation of the data model between a board and the fleet of the
    same side: an occupied cell carries the id of a ship of the fleet, an
    empty cell carries none; a ship is stored under its own id, its size is
    the number of its cells and its hit counter the number of its cells
    that were fired at. *)
Record consistent (b : Board) (ships : gmap Z Ship.t) : Prop := {
  cons_board : board_ok b;
  cons_cell : ∀ x y c, getCell b x y = Some c →
    if hasShip c
    then ∃ i, shipId c = Some i ∧ i ≠ 0 ∧ is_Some (ships !! i)
    else shipId c = None;
  cons_ship : ∀ i s, ships !! i = Some s →
    Ship.id s = i ∧
    Ship.size s = Z.of_nat (length (cellsWhere (ofShip i) b)) ∧
    Ship.hits s = Z.of_nat (length (cellsWhere (firedOfShip i) b))
}.

(** A checker for [consistent]. *)
Definition consistentb (b : Board) (ships : gmap Z Ship.t) : bool :=
  bool_decide (board_ok b) &&
  forallb (λ xy : Coord,
    match getCell b xy.1 xy.2 with
    | Some c =>
        if hasShip c
        then match shipId c with
             | Some i => negb (i =? 0) && bool_decide (is_Some (ships !! i))
             | None => false
             end
        else bool_decide (shipId c = None)
    | None => false
    end) coords &&
  forallb (λ '(i, s),
    bool_decide (Ship.id s = i) &&
    bool_decide (Ship.size s = Z.of_nat (length (cellsWhere (ofShip i) b))) &&
    bool_decide (Ship.hits s = Z.of_nat (length (cellsWhere (firedOfShip i) b))))
    (map_to_list ships).

(** The invariants the data model states for a board and its fleet. *)
Definition data_model (b : Board) (ships : gmap Z Ship.t) : Prop :=
  (∀ x y c, getCell b x y = Some c →
     (is_Some (shipId c) ↔ hasShip c = true)) ∧
  (∀ i s, ships !! i = Some s → 0 ≤ Ship.hits s ≤ Ship.size s).

(** From [b] to [b'] no cell was lost or moved, and no fired flag was
    reset. *)
Definition fired_kept (b b' : Board) : Prop :=
  ∀ x y c, getCell b x y = Some c →
    ∃ c', getCell b' x y = Some c' ∧
          hasShip c' = hasShip c ∧ shipId c' = shipId c ∧
          (hit c = true → hit c' = true).

(** The contract of [Math.random()]: a draw lies in [0, 1), so that
    [Math.floor(r * n)] is one of [0 .. n-1]. *)
Definition in_range (r : draw) : Prop :=
  ∀ n, 0 < n → 0 ≤ floor_mul r n < n.

(** ** Invariant of the placement loop *)

(** What holds of the local variables of [placeShipsRandomly] between two
    attempts, [placed] being the sizes of the ships placed so far, in
    order. *)
Record placement_inv (st : placing) (placed : list Z) : Prop := {
  pi_board : board_ok (p_board st);
  pi_next : p_shipId st = 1 + Z.of_nat (length placed);
  pi_cell : ∀ x y c, getCell (p_board st) x y = Some c →
    hit c = false ∧
    if hasShip c
    then ∃ i, shipId c = Some i ∧ 1 ≤ i < p_shipId st
    else shipId c = None;
  pi_ship : ∀ i s, p_ships st !! i = Some s →
    1 ≤ i < p_shipId st ∧
    s = Ship.mk i (Z.of_nat (length (cellsWhere (ofShip i) (p_board st)))) 0;
  pi_dom : ∀ i, 1 ≤ i < p_shipId st → is_Some (p_ships st !! i);
  pi_sizes : fleetSizes (p_ships st) ≡ₚ placed;
  pi_occupied :
    Z.of_nat (length (cellsWhere hasShip (p_board st))) = sumZ placed;
  pi_apart : ∀ (a b : Coord) ca cb,
    getCell (p_board st) a.1 a.2 = Some ca →
    getCell (p_board st) b.1 b.2 = Some cb →
    hasShip ca = true → hasShip cb = true → shipId ca ≠ shipId cb →
    2 ≤ chebyshev a b
}.

(** Every ship placed so far lies on a straight segment of its size. *)
Definition straight (st : placing) : Prop :=
  ∀ i s, p_ships st !! i = Some s →
    ∃ x y h, ∀ xy, cellIs (ofShip i) (p_board st) xy = true ↔
                   xy ∈ shipCells x y (Ship.size s) h.

(** The ship with id [i] has the size that was placed as number [i]. *)
Definition ordered (st : placing) (placed : list Z) : Prop :=
  ∀ i s, p_ships st !! i = Some s →
    placed !! Z.to_nat (i - 1) = Some (Ship.size s).

(** No element of the list is larger than an earlier one. *)
Definition descending (l : list Z) : Prop :=
  ∀ i j a b, (i ≤ j)%nat → l !! i = Some a → l !! j = Some b → b ≤ a.

(** ** Runs of the game *)

(** A run of clicks of the human player. *)
Definition playerFires (st : game) (shots : list Coord) : outcome game :=
  loop_state (λ st '(x, y), playerFire st x y) st shots.

(** A run of calls of [cpuFire], one draw each. *)
Definition cpuFires (st : game) (rs : list draw) : outcome game :=
  loop_state cpuFire st rs.

(** What can happen to the component state: a new game, a click on the
    opponent's grid, a timer that runs [cpuFire]. A handler arms a timer
    only past its own guard, so the closure that a timer runs has seen no
    end of the game; its [playerShips] is the fleet of an earlier render,
    here any fleet. A timer may fire in any state: a new game and the end
    of the game leave the pending timers pending. The runs of [run] below
    go through such states only ([run_reachable]). *)
Inductive step : game → game → Prop :=
  | step_newGame rand calls st st' calls' :
      newGame rand calls st = Returned (st', calls') → step st st'
  | step_playerFire st x y st' :
      playerFire st x y = Returned st' → step st st'
  | step_cpuFire st ships r st' armed :
      cpuFireFrom (mkClosure None ships) st r = Returned (st', armed) →
      step st st'.

Inductive reachable : game → Prop :=
  | reachable_initial : reachable initialGame
  | reachable_step st st' : reachable st → step st st' → reachable st'.

(** The component state with the pending timers, in the order in which they
    were armed; all have the same delay, so they fire in this order. *)
Record world := mkWorld { w_state : game; w_timers : list closure }.

(** What the user and the clock do: a click on the button of a new game
    (the page also starts one when it is mounted), with the draws that
    [Math.random()] then returns; a click on a cell of the opponent's grid;
    the first pending timer, with the draw of its call of
    [Math.random()]. *)
Inductive event :=
  | NewGame (rand : rng) (calls : nat)
  | Click (x y : Z)
  | Timer (r : draw).

Definition fire (w : world) (e : event) : outcome world :=
  match e with
  | NewGame rand calls =>
      '(st, _) ← newGame rand calls (w_state w);
      Returned {| w_state := st; w_timers := w_timers w |}
  | Click x y =>
      '(st, armed) ← playerFireT (w_state w) x y;
      Returned {| w_state := st; w_timers := w_timers w ++ armed |}
  | Timer r =>
      match w_timers w with
      | [] => Returned w
      | cl :: timers =>
          '(st, armed) ← cpuFireFrom cl (w_state w) r;
          Returned {| w_state := st; w_timers := timers ++ armed |}
      end
  end.

Definition run (w : world) (events : list event) : outcome world :=
  loop_state fire w events.

(** The human player is to move, or has won; the game is over exactly when
    the win check holds of the opponent's fleet. *)
Definition player_leads (st : game) : Prop :=
  consistent (cpuBoard st) (cpuShips st) ∧
  playerTurn st = true ∧
  ((gameOver st = None ∧ checkWin (cpuShips st) = false) ∨
   (gameOver st = Some player ∧ checkWin (cpuShips st) = true)).

(** The same for the opponent: the game is over, won by the opponent,
    exactly when the win check holds of the human player's fleet. *)
Definition cpu_leads (st : game) : Prop :=
  consistent (playerBoard st) (playerShips st) ∧
  ((gameOver st = None ∧ checkWin (playerShips st) = false) ∨
   (gameOver st = Some cpu ∧ checkWin (playerShips st) = true)).

(** ** The resolver on a heap

    [registerHit] copies before it writes: [cloneBoard] builds new row
    arrays and new cell objects, [{ ...ships[id] }] a new ship object and
    [{ ...ships, [id]: ship }] a new fleet object, and the two assignments
    [cell.hit = true] and [ship.hits += 1] go to the copies. To state that
    the objects of the caller are left as they were, the same function is
    modelled once more on a heap of objects. An address is an index of the
    heap, and an allocation appends to it. A read at an address that does
    not hold an object of the expected kind throws. *)

Inductive object :=
  | OCell (c : Cell)
  | OArray (refs : list nat)
  | OShip (s : Ship.t)
  | OFleet (refs : gmap Z nat).

Abbreviation heap := (list object).

Definition alloc (h : heap) (o : object) : heap * nat := (h ++ [o], length h).

Definition cellAt (h : heap) (a : nat) : outcome Cell :=
  match h !! a with Some (OCell c) => Returned c | _ => Thrown end.
Definition arrayAt (h : heap) (a : nat) : outcome (list nat) :=
  match h !! a with Some (OArray refs) => Returned refs | _ => Thrown end.
Definition shipAt (h : heap) (a : nat) : outcome Ship.t :=
  match h !! a with Some (OShip s) => Returned s | _ => Thrown end.
Definition fleetAt (h : heap) (a : nat) : outcome (gmap Z nat) :=
  match h !! a with Some (OFleet refs) => Returned refs | _ => Thrown end.

(** The callback [(c) => ({ ...c })], with the array under construction. *)
Definition cloneCellH (st : heap * list nat) (cell : nat)
    : outcome (heap * list nat) :=
  let '(h, cells') := st in
  c ← cellAt h cell;
  let '(h, a) := alloc h (OCell (mkCell (hasShip c) (hit c) (shipId c))) in
  Returned (h, cells' ++ [a]).

(** The callback [(row) => row.map((c) => ({ ...c }))]. *)
Definition cloneRowH (st : heap * list nat) (row : nat)
    : outcome (heap * list nat) :=
  let '(h, rows') := st in
  cells ← arrayAt h row;
  '(h, cells') ← loop_state cloneCellH (h, []) cells;
  let '(h, a) := alloc h (OArray cells') in
  Returned (h, rows' ++ [a]).

(** [board.map((row) => row.map((c) => ({ ...c })))] *)
Definition cloneBoardH (h : heap) (board : nat) : outcome (heap * nat) :=
  rows ← arrayAt h board;
  '(h, rows') ← loop_state cloneRowH (h, []) rows;
  Returned (alloc h (OArray rows')).

(** [registerHit(board, ships, x, y)] with [board] and [ships] the
    addresses of the board array and of the fleet object; it returns the
    heap after the call and the addresses of the returned board and
    fleet. *)
Definition registerHitH (h : heap) (board ships : nat) (x y : Z)
    : outcome (heap * nat * nat * result) :=
  '(h, next) ← cloneBoardH h board;
  rows ← arrayAt h next;
  match index rows y with
  | None => Thrown
  | Some row =>
      cells ← arrayAt h row;
      match index cells x with
      | None => Thrown
      | Some a =>
          cell ← cellAt h a;
          if hit cell then Returned (h, next, ships, Repeat)
          else
            let cell := mkCell (hasShip cell) true (shipId cell) in
            let h := <[a := OCell cell]> h in
            if hasShip cell && truthy (shipId cell) then
              refs ← fleetAt h ships;
              match shipId cell ≫= (refs !!.) with
              | None => IllTyped
              | Some sa =>
                  s ← shipAt h sa;
                  let ship := Ship.mk (Ship.id s) (Ship.size s) (Ship.hits s + 1) in
                  let '(h, sa') := alloc h (OShip ship) in
                  let sunk := Ship.size ship <=? Ship.hits ship in
                  let '(h, updated) :=
                    alloc h (OFleet (<[Ship.id ship := sa']> refs)) in
                  Returned (h, next, updated, if sunk then Sunk else Hit)
              end
            else Returned (h, next, ships, Miss)
      end
  end.

(** The board array at [a] has its cell objects at the addresses [addrs],
    and they hold the cells of [b]. *)
Definition board_at (h : heap) (a : nat) (addrs : list (list nat)) (b : Board)
    : Prop :=
  (∃ rows, h !! a = Some (OArray rows) ∧
           Forall2 (λ r cells, h !! r = Some (OArray cells)) rows addrs) ∧
  Forall2 (Forall2 (λ ca c, h !! ca = Some (OCell c))) addrs b.

(** The value of the board at address [a] is [b]. *)
Definition repr_board (h : heap) (a : nat) (b : Board) : Prop :=
  ∃ addrs, board_at h a addrs b.

(** The value of the fleet object at address [a] is [ships]. *)
Definition repr_fleet (h : heap) (a : nat) (ships : gmap Z Ship.t) : Prop :=
  ∃ refs, h !! a = Some (OFleet refs) ∧
    ∀ i, match refs !! i with
         | Some sa => ∃ s, h !! sa = Some (OShip s) ∧ ships !! i = Some s
         | None => ships !! i = None
         end.

(** ** Inputs for the examples *)

(** The draw [p/q], for [0 ≤ p < q]. *)
Definition ratio (p q : Z) : draw :=
  {| lt_half := bool_decide (2 * p < q); floor_mul := λ n, (p * n) `div` q |}.

(** The draw [0], and the generator that returns it at every call. *)
Definition zeroDraw : draw := ratio 0 1.
Definition zeros : rng := λ _, zeroDraw.

(** A generator under which every ship is placed at its first attempt: all
    ships horizontal, anchored at the listed coordinates. An attempt takes
    three draws: [0] for the orientation, and the midpoints of the intervals
    that [Math.floor] sends to [x] and to [y]. *)
Definition tenShipsAnchors : list Coord :=
  [(0, 0); (5, 0); (0, 2); (4, 2); (7, 2); (0, 4); (3, 4); (5, 4); (7, 4); (9, 4)].
Definition tenShips : rng := λ k,
  default zeroDraw
    ((zip SHIP_SIZES tenShipsAnchors ≫= λ '(size, (x, y)),
        [ ratio 0 1;
          ratio (2 * x + 1) (2 * (BOARD_SIZE - size + 1));
          ratio (2 * y + 1) (2 * BOARD_SIZE) ]) !! k).

(** A one-ship board: a ship of one cell at (0,0). *)
Definition soloBoard : Board :=
  setCell createEmptyBoard 0 0 (mkCell true false (Some 1)).
Definition soloFleet : gmap Z Ship.t := {[1 := Ship.mk 1 1 0]}.

(** A live state in which both sides have the one-ship board. *)
Definition soloGame : game :=
  {| playerBoard := soloBoard; cpuBoard := soloBoard;
     playerShips := soloFleet; cpuShips := soloFleet;
     playerTurn := true; gameOver := None; cpuLastShot := None;
     playerShots := 0; computerShots := 0 |}.

(** What [placeShipsRandomly] returns under [zeros]: the first ship on the
    cells (0,0)..(3,0); and a live state with it on the opponent's side. *)
Definition zerosBoard : Board :=
  foldl (λ b x, setCell b x 0 (mkCell true false (Some 1)))
        createEmptyBoard [0; 1; 2; 3].
Definition zerosFleet : gmap Z Ship.t := {[1 := Ship.mk 1 4 0]}.
Definition zerosGame : game :=
  {| playerBoard := createEmptyBoard; cpuBoard := zerosBoard;
     playerShips := ∅; cpuShips := zerosFleet;
     playerTurn := true; gameOver := None; cpuLastShot := None;
     playerShots := 0; computerShots := 0 |}.

(** A run of the page: a new game in which the human player gets ten
    ships and the opponent the one that [zeros] places; a hit on that
    ship; a miss, which arms a timer; the shot of that timer, a hit at
    (0,0). *)
Definition midGameEvents : list event :=
  [NewGame tenShips 0; Click 0 0; Click 9 9; Timer zeroDraw].
Definition midGame : game :=
  match run (mkWorld initialGame []) midGameEvents with
  | Returned w => w_state w
  | _ => initialGame
  end.

(** A run in which a timer outlives its game: a miss arms it, a new game
    is started at once, and the human player sinks the opponent's only
    ship with four clicks before the timer is due. *)
Definition staleTimerEvents : list event :=
  [NewGame tenShips 0; Click 9 9; NewGame tenShips 0;
   Click 0 0; Click 1 0; Click 2 0; Click 3 0].
Definition staleGame : game :=
  match run (mkWorld initialGame []) (staleTimerEvents ++ [Timer zeroDraw]) with
  | Returned w => w_state w
  | _ => initialGame
  end.

(** A heap that holds the one-ship board at address 0 (row [i] at address
    [1 + 11 * i], followed by its ten cells), the ship at address 111 and
    the fleet at address 112. *)
Definition soloHeap : heap :=
  [OArray ((λ i, 1 + 11 * i)%nat <$> seq 0 10)] ++
  (seq 0 10 ≫= λ i,
     OArray ((λ j, 2 + 11 * i + j)%nat <$> seq 0 10) ::
     (seq 0 10 ≫= λ j,
        [OCell (if bool_decide (i = 0%nat ∧ j = 0%nat)
                then mkCell true false (Some 1) else emptyCell)])) ++
  [OShip (Ship.mk 1 1 0); OFleet {[1 := 111%nat]}].

(** ** Presentation: labels, the grid, the counters of ships left *)

(** [s[i]] for a string [s] and an integer [i]. *)
Definition charAt (s : string) (i : Z) : option Ascii.ascii :=
  if i <? 0 then None else String.get (Z.to_nat i) s.

(** [Number.isSafeInteger(n)], for an integer [n]. *)
Definition safeInteger (n : Z) : Prop := - (2 ^ 53 - 1) ≤ n ≤ 2 ^ 53 - 1.

(** [coordLabel(x, y)] for an integer column [x] and a row [y] that is a
    safe integer: the template prints [undefined] for a letter that is not
    there, and the integer [y + 1] in decimal. The sum is the one of the
    integers as long as [y] is safe; beyond, the program adds in floating
    point and rounds. The page calls the function with the coordinates of
    cells of the board only. *)
Definition coordLabel (x y : Z) : string :=
  let letters := "ABCDEFGHIJ" in
  match charAt letters x with
  | Some c => String c ""
  | None => "undefined"
  end +:+ pretty (y + 1).

(** The test [isShipSunk] of [Grid], as the [if] that follows reads it. *)
Definition isShipSunk (cell : Cell) (ships : gmap Z Ship.t) : bool :=
  hit cell && hasShip cell && truthy (shipId cell) &&
  match shipId cell ≫= (ships !!.) with
  | Some s => Ship.size s <=? Ship.hits s
  | None => false
  end.

(** What [Grid] renders for one cell: the [aria-label], the state class,
    the [disabled] attribute, the text of the button and whether the marker
    of the last shot is drawn. *)
Record button := mkButton {
  b_label : string;
  b_class : string;
  b_disabled : bool;
  b_text : string;
  b_marker : bool
}.

Global Instance button_eq_dec : EqDecision button.
Proof. solve_decision. Defined.

Definition gridCell (board : Board) (ships : gmap Z Ship.t)
    (revealShips disabled : bool) (ariaLabel : string)
    (lastShot : option Coord) (x y : Z) : outcome button :=
  match getCell board x y with
  | None => Thrown
  | Some cell =>
      let hit := hit cell in
      let hasShip := hasShip cell in
      let showShip := revealShips && hasShip in
      let isShipSunk := isShipSunk cell ships in
      let stateClass :=
        if isShipSunk then
          "bg-orange-600 text-orange-50 ring-2 ring-orange-400/50 shadow-xl shadow-orange-500/40 border-orange-500/60 scale-105 animate-scale-in"
        else if hit && hasShip then
          "bg-destructive text-destructive-foreground border-2 border-destructive ring-2 ring-destructive/40 shadow-xl shadow-destructive/50 scale-105 animate-scale-in"
        else if hit && negb hasShip then
          "bg-muted/60 text-muted-foreground border-muted/40 shadow-md"
        else if showShip then
          "bg-accent text-accent-foreground border-accent/30"
        else "bg-secondary hover:bg-secondary/80" in
      let aria := coordLabel x y in
      Returned {|
        b_label := ariaLabel +:+ " " +:+ aria;
        b_class := stateClass;
        b_disabled := disabled || hit;
        b_text := if hit && hasShip then "⨉"
                  else if hit then "•"
                  else if showShip then "▢"
                  else "";
        b_marker := match lastShot with
                    | Some (lx, ly) => (lx =? x) && (ly =? y)
                    | None => false
                    end |}
  end.

(** The buttons of [Grid], row by row. *)
Definition Grid (board : Board) (ships : gmap Z Ship.t)
    (revealShips disabled : bool) (ariaLabel : string)
    (lastShot : option Coord) : outcome (list button) :=
  loop_state (λ acc '(x, y),
      b ← gridCell board ships revealShips disabled ariaLabel lastShot x y;
      Returned (acc ++ [b]))
    [] coords.

(** The grid of the opponent's board, as the component renders it. *)
Definition cpuGrid (st : game) (ariaLabel : string) : outcome (list button) :=
  Grid (cpuBoard st) (cpuShips st) false
       (negb (playerTurn st) || bool_decide (is_Some (gameOver st)))
       ariaLabel None.

(** [Object.values(ships).filter(s => s.hits < s.size).length] *)
Definition remaining (ships : gmap Z Ship.t) : nat :=
  length (filter (λ s, Ship.hits s < Ship.size s) (map_to_list ships).*2).

Definition totalPlayerRemaining (st : game) : nat := remaining (playerShips st).
Definition totalCpuRemaining (st : game) : nat := remaining (cpuShips st).

(** The state class of a cell of a sunk ship, and the one of a cell that
    shows nothing. *)
Definition sunkClass : string :=
  "bg-orange-600 text-orange-50 ring-2 ring-orange-400/50 shadow-xl shadow-orange-500/40 border-orange-500/60 scale-105 animate-scale-in".
Definition plainClass : string := "bg-secondary hover:bg-secondary/80".

(** ** Saved results and their statistics *)

(** The fields of a row of [game_results] that the statistics read. *)
Record GameResult := mkResult {
  winner : string;
  player_shots : Z
}.

(** The [winner] column that [saveGameResult] writes. *)
Definition winnerLabel (w : side) : string :=
  if decide (w = player) then "player" else "computer".

(** The check constraint of the [winner] column. *)
Definition winner_check (g : GameResult) : Prop :=
  winner g = "player" ∨ winner g = "computer".

(** The counts of [stats] in [GameResults]. *)
Definition totalGames (gameResults : list GameResult) : nat :=
  length gameResults.
Definition playerWins (gameResults : list GameResult) : nat :=
  length (filter (λ g, winner g = "player") gameResults).
Definition computerWins (gameResults : list GameResult) : nat :=
  length (filter (λ g, winner g = "computer") gameResults).

(** [s.padStart(n, c)] for a one-character filler [c]. *)
Definition padStart (n : nat) (c : Ascii.ascii) (s : string) : string :=
  Nat.iter (n - String.length s) (String c) s.

(** [formatDuration(seconds)] of [GameResults], for a column that holds an
    integer or [null]: [!seconds] holds of [null] and of [0]; [Math.floor]
    of the quotient rounds down, and [%] takes the sign of [seconds]. *)
Definition formatDuration (seconds : option Z) : string :=
  match seconds with
  | None => "N/A"
  | Some seconds =>
      if seconds =? 0 then "N/A"
      else
        let minutes := seconds `div` 60 in
        let remainingSeconds := seconds `rem` 60 in
        pretty minutes +:+ ":" +:+ padStart 2 "0"%char (pretty remainingSeconds)
  end.

(** ** Properties *)

(** *** Outcomes and loops *)

Lemma bind_Returned {A B} (m : outcome A) (k : A → outcome B) b :
  m ≫= k = Returned b ↔ ∃ a, m = Returned a ∧ k a = Returned b.
Proof.
  destruct m; simpl; split; try (intros (? & ? & ?)); try done; eauto.
  by simplify_eq.
Qed.

Lemma loop_all_true {A} (body : A → outcome bool) l :
  loop_all body l = Returned true ↔ Forall (λ a, body a = Returned true) l.
Proof.
  induction l as [|a l IH]; simpl.
  - split; [constructor | done].
  - rewrite Forall_cons, <- IH.
    destruct (body a) as [[]| |]; split; (done || by intros []).
Qed.

Lemma loop_state_cons {S A} (body : S → A → outcome S) s a l :
  loop_state body s (a :: l) = body s a ≫= λ s', loop_state body s' l.
Proof. done. Qed.

Lemma loop_all_returns {A} (body : A → outcome bool) l :
  Forall (λ a, ∃ r, body a = Returned r) l → ∃ r, loop_all body l = Returned r.
Proof.
  induction 1 as [|a l [[] Ha] _ IH]; simpl; [eauto | |]; rewrite Ha; eauto.
Qed.

(** *** Arrays and boards *)

Lemma index_Some {A} (l : list A) i a :
  index l i = Some a ↔ 0 ≤ i ∧ l !! Z.to_nat i = Some a.
Proof.
  unfold index. destruct (Z.ltb_spec i 0); split; intros; try done; try lia; try tauto.
Qed.

Lemma getCell_Some (b : Board) x y c :
  getCell b x y = Some c ↔
  0 ≤ x ∧ 0 ≤ y ∧ ∃ row, b !! Z.to_nat y = Some row ∧ row !! Z.to_nat x = Some c.
Proof.
  unfold getCell. split.
  - destruct (index b y) as [row|] eqn:E; [|done].
    apply index_Some in E as [? ?]. intros [? ?]%index_Some. eauto 10.
  - intros (? & ? & row & Hr & Hc).
    assert (index b y = Some row) as -> by (by apply index_Some).
    by apply index_Some.
Qed.

Lemma getCell_setCell (b : Board) x y c x' y' :
  is_Some (getCell b x y) →
  getCell (setCell b x y c) x' y' =
    if decide (x' = x ∧ y' = y) then Some c else getCell b x' y'.
Proof.
  intros [c0 (Hx & Hy & row & Hr & Hc)%getCell_Some].
  unfold getCell, setCell, index.
  destruct (Z.ltb_spec y' 0).
  { case_decide; [lia | done]. }
  destruct (decide (y' = y)) as [->|Hne].
  - rewrite list_lookup_alter_eq, Hr. simpl.
    destruct (Z.ltb_spec x' 0).
    { case_decide; [lia | done]. }
    destruct (decide (x' = x)) as [->|Hnx].
    + rewrite decide_True by done.
      apply list_lookup_insert_eq. by eapply lookup_lt_Some.
    + rewrite decide_False by tauto.
      rewrite list_lookup_insert_ne by lia. done.
  - rewrite list_lookup_alter_ne by lia.
    rewrite decide_False by tauto. done.
Qed.

Lemma board_ok_setCell b x y c : board_ok b → board_ok (setCell b x y c).
Proof.
  intros [Hl Hr]. split; unfold setCell.
  - by rewrite length_alter.
  - apply Forall_lookup. intros i row Hi.
    destruct (decide (i = Z.to_nat y)) as [->|].
    + rewrite list_lookup_alter_eq in Hi.
      destruct (b !! Z.to_nat y) as [row0|] eqn:E; simplify_eq/=.
      rewrite length_insert. eapply Forall_lookup_1 in Hr; eauto.
    + rewrite list_lookup_alter_ne in Hi by done.
      eapply Forall_lookup_1 in Hr; eauto.
Qed.

Lemma inBounds_spec x y :
  inBounds x y = true ↔ 0 ≤ x < BOARD_SIZE ∧ 0 ≤ y < BOARD_SIZE.
Proof. unfold inBounds. rewrite !andb_true_iff. lia. Qed.

Lemma getCell_inBounds b x y :
  board_ok b → (is_Some (getCell b x y) ↔ inBounds x y = true).
Proof.
  intros [Hl Hr]. rewrite inBounds_spec. unfold BOARD_SIZE in *. split.
  - intros [c (Hx & Hy & row & Hrow & Hc)%getCell_Some].
    apply lookup_lt_Some in Hrow as Hlt.
    eapply Forall_lookup_1 in Hr; eauto.
    apply lookup_lt_Some in Hc. lia.
  - intros [? ?].
    destruct (lookup_lt_is_Some_2 b (Z.to_nat y)) as [row Hrow]; [lia|].
    eapply Forall_lookup_1 in Hr as Hlen; eauto.
    destruct (lookup_lt_is_Some_2 row (Z.to_nat x)) as [c Hc]; [lia|].
    exists c. apply getCell_Some. split_and!; [lia|lia|eauto].
Qed.

Lemma cloneBoard_id b : cloneBoard b = b.
Proof.
  unfold cloneBoard. induction b as [|row b IH]; simpl; [done|].
  rewrite IH. f_equal.
  induction row as [|[] row IHr]; simpl; by rewrite ?IHr.
Qed.

Lemma board_ok_empty : board_ok createEmptyBoard.
Proof.
  split; unfold createEmptyBoard.
  - by rewrite length_replicate.
  - apply Forall_replicate. by rewrite length_replicate.
Qed.

Lemma getCell_empty x y c :
  getCell createEmptyBoard x y = Some c → c = emptyCell.
Proof.
  intros (_ & _ & row & Hr & Hc)%getCell_Some.
  apply lookup_replicate_1 in Hr as [-> _].
  by apply lookup_replicate_1 in Hc as [-> _].
Qed.

Lemma elem_of_coords x y : (x, y) ∈ coords ↔ inBounds x y = true.
Proof.
  rewrite inBounds_spec. unfold coords.
  rewrite list_elem_of_bind. split.
  - intros (y' & (x' & Hxy & Hx)%list_elem_of_bind & Hy).
    apply list_elem_of_singleton in Hxy. simplify_eq.
    apply elem_of_seqZ in Hx, Hy. lia.
  - intros [? ?]. exists y. split; [|apply elem_of_seqZ; lia].
    apply list_elem_of_bind. exists x. split; [constructor|apply elem_of_seqZ; lia].
Qed.

Lemma NoDup_coords : NoDup coords.
Proof. apply (bool_decide_unpack _). by vm_compute. Qed.

(** *** Counting cells *)

Lemma filter_ext_elem {A} (P Q : A → Prop)
    `{!∀ x, Decision (P x), !∀ x, Decision (Q x)} (l : list A) :
  (∀ x, x ∈ l → (P x ↔ Q x)) → filter P l = filter Q l.
Proof.
  induction l as [|a l IH]; intros Hext; [done|].
  rewrite !filter_cons.
  rewrite IH by (intros; apply Hext; by right).
  assert (P a ↔ Q a) as Ha by (apply Hext; by left).
  destruct (decide (P a)), (decide (Q a)); tauto.
Qed.

Lemma elem_of_cellsWhere p b (xy : Coord) :
  xy ∈ cellsWhere p b ↔
  ∃ c, getCell b xy.1 xy.2 = Some c ∧ p c = true ∧ xy ∈ coords.
Proof.
  unfold cellsWhere. rewrite list_elem_of_filter. unfold cellIs.
  destruct (getCell b xy.1 xy.2) as [c|]; split.
  - intros [Hp ?]. exists c. by apply Is_true_true in Hp.
  - intros (c' & ? & Hp & ?). simplify_eq. by rewrite Hp.
  - by intros [[] _].
  - by intros (c' & ? & _).
Qed.

Lemma NoDup_cellsWhere p b : NoDup (cellsWhere p b).
Proof. apply NoDup_filter, NoDup_coords. Qed.

Lemma cellsWhere_ext p q b b' :
  (∀ xy, xy ∈ coords → cellIs p b xy = cellIs q b' xy) →
  cellsWhere p b = cellsWhere q b'.
Proof.
  intros H. apply filter_ext_elem. intros xy Hxy. by rewrite (H xy Hxy).
Qed.

(** Cells that newly satisfy [q] on [b'], the others being as on [b]. *)
Lemma cellsWhere_add p q b b' (cs : list Coord) :
  NoDup cs →
  (∀ xy, xy ∈ cs → xy ∈ coords ∧ cellIs p b xy = false ∧ cellIs q b' xy = true) →
  (∀ xy, xy ∈ coords → xy ∉ cs → cellIs q b' xy = cellIs p b xy) →
  cellsWhere q b' ≡ₚ cs ++ cellsWhere p b.
Proof.
  intros Hnd Hin Hout. apply NoDup_Permutation.
  - apply NoDup_cellsWhere.
  - apply NoDup_app. split_and!; [done| |apply NoDup_cellsWhere].
    intros xy Hxy. unfold cellsWhere. rewrite list_elem_of_filter.
    destruct (Hin xy Hxy) as (_ & -> & _). by intros [[] _].
  - intros xy. rewrite elem_of_app. unfold cellsWhere.
    rewrite !list_elem_of_filter. split.
    + intros [Hq Hc]. destruct (decide (xy ∈ cs)); [by left|right].
      by rewrite <- Hout.
    + intros [Hxy|[Hp Hc]].
      * destruct (Hin xy Hxy) as (? & _ & ->). done.
      * destruct (decide (xy ∈ cs)) as [Hxy|Hxy].
        -- destruct (Hin xy Hxy) as (? & _ & ->). done.
        -- by rewrite Hout.
Qed.

Lemma cellsWhere_sub p q b :
  (∀ c, p c = true → q c = true) →
  (length (cellsWhere p b) ≤ length (cellsWhere q b))%nat ∧
  (length (cellsWhere p b) = length (cellsWhere q b) →
   ∀ xy, xy ∈ cellsWhere q b → xy ∈ cellsWhere p b).
Proof.
  intros Hpq.
  assert (cellsWhere p b ⊆+ cellsWhere q b) as Hsub.
  { apply NoDup_submseteq; [apply NoDup_cellsWhere|].
    intros xy (c & ? & ? & ?)%elem_of_cellsWhere.
    apply elem_of_cellsWhere. eauto. }
  split.
  - by apply submseteq_length.
  - intros Hlen xy Hxy.
    apply submseteq_length_Permutation in Hsub; [|lia].
    by rewrite Hsub.
Qed.

(** *** Placement *)

Lemma loop_state_fmap {S A B} (f : A → B) (body : S → B → outcome S) s l :
  loop_state (λ s a, body s (f a)) s l = loop_state body s (f <$> l).
Proof.
  revert s. induction l as [|a l IH]; intros s; simpl; [done|].
  destruct (body s (f a)); simpl; auto.
Qed.

Lemma writeCell_Returned b x y c :
  is_Some (getCell b x y) → writeCell b x y c = Returned (setCell b x y c).
Proof.
  intros [c0 (Hx & Hy & row & Hr & Hc)%getCell_Some].
  unfold writeCell.
  assert (index b y = Some row) as -> by (by apply index_Some).
  apply lookup_lt_Some in Hc.
  destruct (Z.leb_spec 0 x); [|lia].
  destruct (Z.ltb_spec x (Z.of_nat (length row))); [done|lia].
Qed.

(** Writing one cell value to the in-bounds cells [cs]. *)
Lemma write_cells b (cs : list Coord) c :
  board_ok b →
  (∀ xy, xy ∈ cs → inBounds xy.1 xy.2 = true) →
  ∃ b', loop_state (λ board '(cx, cy), writeCell board cx cy c) b cs
          = Returned b' ∧
        board_ok b' ∧
        ∀ x y, getCell b' x y = if decide ((x, y) ∈ cs) then Some c
                                else getCell b x y.
Proof.
  revert b. induction cs as [|[cx cy] cs IH]; intros b Hb Hin; simpl.
  - exists b. split_and!; [done..|]. intros x y.
    by destruct (decide ((x, y) ∈ [])) as [?%elem_of_nil|].
  - assert (is_Some (getCell b cx cy)) as Hsome.
    { apply getCell_inBounds; [done|]. apply (Hin (cx, cy)). by left. }
    rewrite writeCell_Returned by done. simpl.
    destruct (IH (setCell b cx cy c)) as (b' & -> & Hb' & Hget).
    { by apply board_ok_setCell. }
    { intros xy ?. apply Hin. by right. }
    exists b'. split_and!; [done..|]. intros x y.
    rewrite Hget, getCell_setCell by done.
    destruct (decide ((x, y) ∈ cs)) as [Hxy|Hxy].
    + rewrite decide_True; [done|]. by right.
    + destruct (decide (x = cx ∧ y = cy)) as [[-> ->]|Hne].
      * rewrite decide_True; [done|]. by left.
      * rewrite decide_False; [done|].
        intros [?|?]%elem_of_cons; simplify_eq; tauto.
Qed.

Lemma elem_of_shipCells x y size h (xy : Coord) :
  xy ∈ shipCells x y size h ↔ ∃ i, 0 ≤ i < size ∧ xy = shipCell x y h i.
Proof.
  unfold shipCells. rewrite list_elem_of_fmap.
  split; intros (i & ? & ?); exists i.
  - split; [|done]. apply elem_of_seqZ in H0. lia.
  - split; [done|]. apply elem_of_seqZ. lia.
Qed.

Lemma NoDup_shipCells x y size h : NoDup (shipCells x y size h).
Proof.
  unfold shipCells. apply NoDup_fmap_2_strong; [|apply NoDup_seqZ].
  intros i j _ _. unfold shipCell. destruct h; intros; simplify_eq; lia.
Qed.

Lemma length_shipCells x y size h :
  0 ≤ size → Z.of_nat (length (shipCells x y size h)) = size.
Proof. intros. unfold shipCells. rewrite length_fmap, length_seqZ. lia. Qed.

Lemma elem_of_offsets dx dy :
  (dx, dy) ∈ offsets ↔ -1 ≤ dx ≤ 1 ∧ -1 ≤ dy ≤ 1.
Proof.
  unfold offsets. simpl. rewrite !elem_of_cons, elem_of_nil. split.
  - intros H. repeat destruct H as [H|H]; simplify_eq; try done; lia.
  - intros [? ?].
    assert (dx = -1 ∨ dx = 0 ∨ dx = 1) as Hx by lia.
    assert (dy = -1 ∨ dy = 0 ∨ dy = 1) as Hy by lia.
    destruct Hx as [-> | [-> | ->]], Hy as [-> | [-> | ->]]; tauto.
Qed.

Lemma canPlaceShip_returns b x y size h :
  board_ok b → ∃ r, canPlaceShip b x y size h = Returned r.
Proof.
  intros Hb. apply loop_all_returns, Forall_forall. intros i _.
  destruct (shipCell x y h i) as [cx cy].
  destruct (inBounds cx cy); cbn [negb]; [|eauto].
  apply loop_all_returns, Forall_forall. intros [dx dy] _.
  destruct (inBounds (cx + dx) (cy + dy)) eqn:E; [|eauto].
  apply (getCell_inBounds b) in E as [c ->]; eauto.
Qed.

Lemma chebyshev_le_1 (a b : Coord) :
  chebyshev a b ≤ 1 ↔ -1 ≤ b.1 - a.1 ≤ 1 ∧ -1 ≤ b.2 - a.2 ≤ 1.
Proof. unfold chebyshev. lia. Qed.

(** What a successful [canPlaceShip] has checked. *)
Lemma canPlaceShip_true b x y size h :
  board_ok b →
  canPlaceShip b x y size h = Returned true →
  ∀ xy, xy ∈ shipCells x y size h →
    inBounds xy.1 xy.2 = true ∧
    ∀ (q : Coord) c, getCell b q.1 q.2 = Some c → chebyshev xy q ≤ 1 →
                     hasShip c = false.
Proof.
  intros Hb Hcan xy (i & Hi & ->)%elem_of_shipCells.
  apply loop_all_true in Hcan.
  eapply Forall_forall in Hcan; [|apply elem_of_seqZ; split; [|rewrite Z.add_0_l]; apply Hi].
  destruct (shipCell x y h i) as [cx cy]. cbn [fst snd].
  destruct (inBounds cx cy); cbn [negb] in Hcan; [|done].
  split; [done|]. intros [qx qy] c Hq [Hdx Hdy]%chebyshev_le_1.
  cbn [fst snd] in *.
  apply loop_all_true in Hcan.
  apply (proj1 (Forall_forall _ _)) with (x := (qx - cx, qy - cy)) in Hcan;
    [|by apply elem_of_offsets].
  cbv beta iota zeta in Hcan.
  replace (cx + (qx - cx)) with qx in Hcan by lia.
  replace (cy + (qy - cy)) with qy in Hcan by lia.
  assert (inBounds qx qy = true) as Hin by (apply (getCell_inBounds b); eauto).
  rewrite Hin, Hq in Hcan. destruct (hasShip c); by simplify_eq/=.
Qed.

Lemma placement_inv_calls b s i k k' placed :
  placement_inv (mkPlacing b s i k) placed →
  placement_inv (mkPlacing b s i k') placed.
Proof. intros []. by constructor. Qed.

Lemma sumZ_app l k : sumZ (l ++ k) = sumZ l + sumZ k.
Proof. unfold sumZ. induction l; simpl; lia. Qed.

Lemma cellIs_Some p b (xy : Coord) c :
  getCell b xy.1 xy.2 = Some c → cellIs p b xy = p c.
Proof. unfold cellIs. by intros ->. Qed.

Lemma coords_getCell b (xy : Coord) :
  board_ok b → xy ∈ coords ↔ is_Some (getCell b xy.1 xy.2).
Proof.
  intros Hb. destruct xy as [x y]. rewrite elem_of_coords. simpl.
  by rewrite getCell_inBounds.
Qed.

Lemma cellsWhere_false b : cellsWhere (λ _, false) b = [].
Proof.
  unfold cellsWhere. induction coords as [|a l IH]; [done|].
  rewrite filter_cons_False; [done|]. unfold cellIs.
  destruct (getCell _ _ _); simpl; tauto.
Qed.

(** Placing a ship where [canPlaceShip] allows keeps the invariant. *)
Lemma placeShip_inv st placed x y size h :
  placement_inv st placed →
  0 ≤ size →
  canPlaceShip (p_board st) x y size h = Returned true →
  ∃ st', placeShip st x y size h = Returned st' ∧
         p_calls st' = p_calls st ∧
         placement_inv st' (placed ++ [size]).
Proof.
  intros [Hb Hnext Hcell Hship Hdom Hsizes Hocc Hapart] Hsize Hcan.
  pose proof (canPlaceShip_true _ _ _ _ _ Hb Hcan) as Hchk.
  set (new := {| hasShip := true; hit := false; shipId := Some (p_shipId st) |}).
  set (cs := shipCells x y size h) in *.
  destruct (write_cells (p_board st) cs new Hb) as (b' & Hloop & Hb' & Hget).
  { intros xy Hxy. by apply Hchk. }
  unfold placeShip.
  rewrite (loop_state_fmap (shipCell x y h)
             (λ board '(cx, cy), writeCell board cx cy new)).
  fold (shipCells x y size h). fold cs. rewrite Hloop. simpl.
  eexists. split_and!; [done..|].
  (* facts about old cells at ship positions *)
  assert (∀ xy c, xy ∈ cs → getCell (p_board st) xy.1 xy.2 = Some c →
                  hasShip c = false ∧ shipId c = None) as Hfree.
  { intros xy c Hxy Hc. destruct (Hchk xy Hxy) as [_ Hq].
    assert (hasShip c = false) as Hc'.
    { apply (Hq xy c Hc). unfold chebyshev. lia. }
    split; [done|]. destruct (Hcell _ _ _ Hc) as [_ Hs]. by rewrite Hc' in Hs. }
  assert (∀ xy, xy ∈ cs → xy ∈ coords) as Hcoords.
  { intros [cx cy] Hxy. apply elem_of_coords. by apply (Hchk (cx, cy)). }
  assert (∀ xy : Coord, getCell b' xy.1 xy.2 =
            if decide (xy ∈ cs) then Some new else getCell (p_board st) xy.1 xy.2)
    as Hget'.
  { intros [qx qy]. apply Hget. }
  assert (p_ships st !! p_shipId st = None) as Hfresh.
  { destruct (p_ships st !! p_shipId st) eqn:E; [|done].
    apply Hship in E as [? _]. lia. }
  constructor; simpl.
  - done.
  - rewrite length_app. simpl. lia.
  - intros qx qy c. rewrite Hget. case_decide.
    + intros ?; simplify_eq. simpl. split; [done|]. eexists. split; [done|]. lia.
    + intros Hc. destruct (Hcell _ _ _ Hc) as [? Hs]. split; [done|].
      destruct (hasShip c); [|done]. destruct Hs as (i & ? & ?).
      exists i. split; [done|lia].
  - intros i s. rewrite lookup_insert. case_decide as Hi.
    + intros ?; simplify_eq. split; [lia|]. f_equal.
      rewrite <- (length_shipCells x y size h) by done. fold cs.
      f_equal. apply Permutation_length. symmetry.
      rewrite <- (app_nil_r cs), <- (cellsWhere_false (p_board st)).
      apply cellsWhere_add; [apply NoDup_shipCells| |].
      * intros xy Hxy. split_and!; [by apply Hcoords| |].
        -- unfold cellIs. by destruct (getCell _ _ _).
        -- unfold cellIs. rewrite Hget', decide_True by done.
           unfold ofShip. simpl. by rewrite bool_decide_eq_true_2.
      * intros xy Hxy Hncs. unfold cellIs at 1. rewrite Hget', decide_False by done.
        apply (coords_getCell _ _ Hb) in Hxy as [c Hc]. rewrite Hc.
        unfold cellIs. rewrite Hc. unfold ofShip.
        apply bool_decide_eq_false_2.
        destruct (Hcell _ _ _ Hc) as [_ Hs].
        destruct (hasShip c); [|by rewrite Hs].
        destruct Hs as (j & -> & ?). intros ?; simplify_eq. lia.
    + intros Hs. destruct (Hship _ _ Hs) as [? ->]. split; [lia|].
      f_equal. f_equal. f_equal. apply cellsWhere_ext.
      intros xy Hxy. unfold cellIs at 2. rewrite Hget'.
      apply (coords_getCell _ _ Hb) in Hxy as [c Hc].
      rewrite (cellIs_Some _ _ _ _ Hc). case_decide as Hcs; [|by rewrite Hc].
      destruct (Hfree _ _ Hcs Hc) as [_ Hnone]. unfold ofShip. simpl.
      rewrite Hnone. rewrite !bool_decide_eq_false_2; [done| |done].
      intros ?; simplify_eq.
  - intros i Hi. rewrite lookup_insert. case_decide; [by eexists|].
    apply Hdom. lia.
  - unfold fleetSizes. rewrite map_to_list_insert by done. simpl.
    fold (fleetSizes (p_ships st)). rewrite Hsizes.
    apply Permutation_cons_append.
  - rewrite sumZ_app. simpl. rewrite <- Hocc.
    assert (cellsWhere hasShip b' ≡ₚ cs ++ cellsWhere hasShip (p_board st))
      as ->; [|rewrite length_app, Nat2Z.inj_add; unfold cs;
               rewrite length_shipCells by done; lia].
    apply cellsWhere_add; [apply NoDup_shipCells| |].
    + intros xy Hxy. split_and!; [by apply Hcoords| |].
      * destruct (proj1 (coords_getCell _ xy Hb) (Hcoords _ Hxy)) as [c Hc].
        rewrite (cellIs_Some _ _ _ _ Hc). by apply (Hfree xy).
      * unfold cellIs. by rewrite Hget', decide_True.
    + intros xy Hxy Hncs. unfold cellIs at 1. by rewrite Hget', decide_False.
  - intros a q ca cb. rewrite !Hget'.
    destruct (decide (a ∈ cs)) as [Ha|Ha], (decide (q ∈ cs)) as [Hq|Hq];
      intros ?? Hsa Hsq Hne; simplify_eq/=.
    + destruct (Z.le_gt_cases 2 (chebyshev a q)) as [|Hlt]; [done|exfalso].
      destruct (Hchk a Ha) as [_ Hfr].
      rewrite (Hfr q cb) in Hsq; [done..|lia].
    + destruct (Z.le_gt_cases 2 (chebyshev a q)) as [|Hlt]; [done|exfalso].
      destruct (Hchk q Hq) as [_ Hfr].
      rewrite (Hfr a ca) in Hsa; [done|done|]. unfold chebyshev in *. lia.
    + eauto.
Qed.

Lemma placement_inv_init calls :
  placement_inv (mkPlacing createEmptyBoard ∅ 1 calls) [].
Proof.
  assert (∀ p, p emptyCell = false → cellsWhere p createEmptyBoard = []) as Hnone.
  { intros p Hp. rewrite <- (cellsWhere_false createEmptyBoard).
    apply cellsWhere_ext. intros xy _. unfold cellIs.
    destruct (getCell _ _ _) as [c|] eqn:E; [|done].
    apply getCell_empty in E as ->. done. }
  constructor; cbn [p_board p_ships p_shipId].
  - apply board_ok_empty.
  - done.
  - by intros x y c ->%getCell_empty.
  - intros i s. by rewrite lookup_empty.
  - intros i. lia.
  - unfold fleetSizes. by rewrite map_to_list_empty.
  - by rewrite Hnone.
  - intros a b ca cb ->%getCell_empty. done.
Qed.

Lemma attempts_inv rand size n st placed :
  placement_inv st placed → 0 ≤ size →
  ∃ st', attempts rand size n st = Returned st' ∧
         (placement_inv st' placed ∨ placement_inv st' (placed ++ [size])).
Proof.
  intros Hinv Hsize. revert st Hinv.
  induction n as [|n IH]; intros [b s i k] Hinv; simpl.
  { eauto. }
  destruct (canPlaceShip_returns b
              (floor_mul (rand (S k))
                 (if lt_half (rand k) then BOARD_SIZE - size + 1 else BOARD_SIZE))
              (floor_mul (rand (S (S k)))
                 (if lt_half (rand k) then BOARD_SIZE else BOARD_SIZE - size + 1))
              size (lt_half (rand k))) as [[] Hcan].
  { apply Hinv. }
  - rewrite Hcan.
    apply (placement_inv_calls _ _ _ _ (S (S (S k)))) in Hinv.
    destruct (placeShip_inv _ _ _ _ _ _ Hinv Hsize Hcan) as (st' & -> & _ & ?).
    eauto.
  - rewrite Hcan. apply IH. by eapply placement_inv_calls.
Qed.

Lemma place_all_inv rand sizes st placed :
  placement_inv st placed → Forall (λ s, 0 ≤ s) sizes →
  ∃ st' placed',
    loop_state (λ st size, attempts rand size 500 st) st sizes = Returned st' ∧
    placement_inv st' (placed ++ placed') ∧ placed' `sublist_of` sizes.
Proof.
  intros Hinv Hsizes. revert st placed Hinv.
  induction Hsizes as [|size sizes Hsize _ IH]; intros st placed Hinv.
  { exists st, []. rewrite app_nil_r. by split_and!. }
  cbn [loop_state].
  destruct (attempts_inv rand size 500 st placed Hinv Hsize) as (st1 & -> & [H1|H1]);
    destruct (IH _ _ H1) as (st' & placed' & Hloop & Hinv' & Hsub).
  - exists st', placed'. split_and!; [done..|]. by apply sublist_cons.
  - exists st', (size :: placed'). split_and!; [done| |by apply sublist_skip].
    by rewrite <- app_assoc in Hinv'.
Qed.

(** [placeShipsRandomly] returns, and its result satisfies the invariant
    for some sublist [placed] of the configured sizes. *)
Lemma placeShipsRandomly_inv rand calls :
  ∃ b ships calls' placed,
    placeShipsRandomly rand calls = Returned (b, ships, calls') ∧
    placement_inv (mkPlacing b ships (1 + Z.of_nat (length placed)) calls') placed ∧
    placed `sublist_of` SHIP_SIZES.
Proof.
  destruct (place_all_inv rand SHIP_SIZES _ [] (placement_inv_init calls))
    as ([b s i k] & placed & Hloop & Hinv & Hsub).
  { unfold SHIP_SIZES. repeat constructor; lia. }
  exists b, s, k, placed. unfold placeShipsRandomly. rewrite Hloop.
  split_and!; [done| |done].
  simpl in Hinv. by rewrite <- (pi_next _ _ Hinv).
Qed.

Lemma sumZ_Permutation l k : l ≡ₚ k → sumZ l = sumZ k.
Proof. unfold sumZ. induction 1; simpl; lia. Qed.

(** *** Claims about the placement generator *)

(** C1, as the code has it: for every sequence of draws the generator
    returns; the lengths of the ships of the returned fleet form a
    sub-multiset of [SHIP_SIZES] (a ship whose 500 attempts all fail is left
    out), and the board has as many occupied cells as the placed lengths add
    up to. When ten ships are placed, their lengths are exactly the
    configured multiset and 20 cells are occupied. *)
Theorem placement_fleet_within_configuration (rand : rng) (calls : nat) :
  ∃ board ships calls',
    placeShipsRandomly rand calls = Returned (board, ships, calls') ∧
    fleetSizes ships ⊆+ SHIP_SIZES ∧
    Z.of_nat (length (cellsWhere hasShip board)) = sumZ (fleetSizes ships) ∧
    (size ships = 10%nat →
     fleetSizes ships ≡ₚ SHIP_SIZES ∧
     length (cellsWhere hasShip board) = 20%nat).
Proof.
  destruct (placeShipsRandomly_inv rand calls)
    as (b & ships & calls' & placed & Hrun & Hinv & Hsub).
  exists b, ships, calls'.
  pose proof (pi_sizes _ _ Hinv) as Hsizes.
  pose proof (pi_occupied _ _ Hinv) as Hocc.
  cbn [p_ships p_board] in Hsizes, Hocc.
  assert (fleetSizes ships ⊆+ SHIP_SIZES) as Hms.
  { rewrite Hsizes. by apply sublist_submseteq. }
  split_and!; [done..| |].
  - by rewrite (sumZ_Permutation _ _ Hsizes).
  - intros Hten.
    assert (fleetSizes ships ≡ₚ SHIP_SIZES) as Hall.
    { apply submseteq_length_Permutation; [done|].
      unfold fleetSizes. rewrite !length_fmap, length_map_to_list, Hten.
      done. }
    split; [done|].
    rewrite <- (sumZ_Permutation _ _ Hsizes), (sumZ_Permutation _ _ Hall) in Hocc.
    change (sumZ SHIP_SIZES) with 20 in Hocc. lia.
Qed.

(** C1 as stated fails in two ways. Under [tenShips] all ten ships are
    placed, and they occupy 20 cells, not 19. Under [zeros] the first ship
    takes the cells (0,0)..(3,0) and every later ship is tried 500 times at
    the same anchor, so the fleet has one ship and the board four occupied
    cells. *)
Lemma placement_not_ten_ships_on_19_cells :
  (∃ board ships calls',
     placeShipsRandomly tenShips 0 = Returned (board, ships, calls') ∧
     size ships = 10%nat ∧
     length (cellsWhere hasShip board) = 20%nat) ∧
  (∃ board calls',
     placeShipsRandomly zeros 0
       = Returned (board, {[1 := Ship.mk 1 4 0]}, calls') ∧
     cellsWhere hasShip board = [(0, 0); (1, 0); (2, 0); (3, 0)]) ∧
  ¬ (∀ rand calls board ships calls',
       placeShipsRandomly rand calls = Returned (board, ships, calls') →
       size ships = 10%nat ∧
       fleetSizes ships ≡ₚ SHIP_SIZES ∧
       length (cellsWhere hasShip board) = 19%nat).
Proof.
  assert (∃ board ships calls',
     placeShipsRandomly tenShips 0 = Returned (board, ships, calls') ∧
     size ships = 10%nat ∧
     length (cellsWhere hasShip board) = 20%nat) as Hten.
  { eexists _, _, _. split; [by vm_compute|]. split; by vm_compute. }
  split_and!; [done| |].
  - eexists _, _. split; [by vm_compute|]. by vm_compute.
  - destruct Hten as (b & s & k & Hrun & _ & Hlen).
    intros Hclaim. destruct (Hclaim _ _ _ _ _ Hrun) as (_ & _ & Hlen').
    rewrite Hlen in Hlen'. done.
Qed.

(** C5: for every sequence of draws the generator returns a board on which
    occupied cells of different ships are at Chebyshev distance at least 2,
    and on which every ship of the fleet has exactly [size] cells of its
    own, each occupied cell carrying the id of one ship of the fleet. *)
Theorem placement_ships_apart (rand : rng) (calls : nat) :
  ∃ board ships calls',
    placeShipsRandomly rand calls = Returned (board, ships, calls') ∧
    (∀ (a b : Coord) ca cb,
       getCell board a.1 a.2 = Some ca → getCell board b.1 b.2 = Some cb →
       hasShip ca = true → hasShip cb = true → shipId ca ≠ shipId cb →
       2 ≤ chebyshev a b) ∧
    (∀ x y c, getCell board x y = Some c → hasShip c = true →
       ∃ i, shipId c = Some i ∧ is_Some (ships !! i)) ∧
    (∀ i s, ships !! i = Some s →
       Ship.size s = Z.of_nat (length (cellsWhere (ofShip i) board))) ∧
    Z.of_nat (length (cellsWhere hasShip board)) = sumZ (fleetSizes ships).
Proof.
  destruct (placeShipsRandomly_inv rand calls)
    as (b & ships & calls' & placed & Hrun & Hinv & Hsub).
  exists b, ships, calls'. split_and!; [done|..].
  - apply (pi_apart _ _ Hinv).
  - intros x y c Hc Hs. destruct (pi_cell _ _ Hinv x y c Hc) as [_ Hid].
    rewrite Hs in Hid. destruct Hid as (i & ? & ?). exists i. split; [done|].
    by apply (pi_dom _ _ Hinv).
  - intros i s Hs. by destruct (pi_ship _ _ Hinv i s Hs) as [_ ->].
  - pose proof (pi_occupied _ _ Hinv) as Hocc.
    pose proof (pi_sizes _ _ Hinv) as Hsizes.
    cbn [p_board p_ships] in Hocc, Hsizes. rewrite Hocc.
    by apply sumZ_Permutation.
Qed.

(** *** Consistent boards and fleets *)

Lemma consistentb_sound b ships : consistentb b ships = true → consistent b ships.
Proof.
  unfold consistentb. rewrite !andb_true_iff, !forallb_forall.
  intros [[Hb%bool_decide_eq_true Hcells] Hships]. constructor.
  - done.
  - intros x y c Hc.
    assert (In (x, y) coords) as Hin.
    { apply list_elem_of_In, (coords_getCell b (x, y) Hb). by eexists. }
    specialize (Hcells _ Hin). simpl in Hcells. rewrite Hc in Hcells.
    destruct (hasShip c).
    + destruct (shipId c) as [i|]; [|done].
      apply andb_true_iff in Hcells as [Hi Hs%bool_decide_eq_true].
      exists i. split_and!; [done| |done].
      apply negb_true_iff, Z.eqb_neq in Hi. done.
    + by apply bool_decide_eq_true in Hcells.
  - intros i s His.
    assert (In (i, s) (map_to_list ships)) as Hin.
    { by apply list_elem_of_In, elem_of_map_to_list. }
    specialize (Hships _ Hin). simpl in Hships.
    rewrite !andb_true_iff, !bool_decide_eq_true in Hships. tauto.
Qed.

Lemma placement_inv_consistent st placed :
  placement_inv st placed → consistent (p_board st) (p_ships st).
Proof.
  intros Hinv. constructor.
  - apply Hinv.
  - intros x y c Hc. destruct (pi_cell _ _ Hinv x y c Hc) as [_ Hid].
    destruct (hasShip c); [|done]. destruct Hid as (i & ? & ?).
    exists i. split_and!; [done|lia|]. by apply (pi_dom _ _ Hinv).
  - intros i s Hs. destruct (pi_ship _ _ Hinv i s Hs) as [_ ->]. simpl.
    split_and!; [done..|].
    replace (cellsWhere (firedOfShip i) (p_board st))
      with (cellsWhere (λ _, false) (p_board st));
      [by rewrite cellsWhere_false|].
    apply cellsWhere_ext. intros xy _.
    unfold cellIs. destruct (getCell _ _ _) as [c|] eqn:E; [|done].
    destruct (pi_cell _ _ Hinv _ _ c E) as [Hh _].
    unfold firedOfShip. rewrite Hh. by rewrite andb_false_r.
Qed.

(** Changing the cell at [(x, y)]. *)
Lemma cellsWhere_setCell_same p b x y c c' :
  getCell b x y = Some c → p c' = p c →
  cellsWhere p (setCell b x y c') = cellsWhere p b.
Proof.
  intros Hc Hp. apply cellsWhere_ext. intros [qx qy] _. unfold cellIs. simpl.
  rewrite getCell_setCell by eauto. case_decide as Hq; [|done].
  destruct Hq as [-> ->]. by rewrite Hc.
Qed.

Lemma cellsWhere_setCell_new p b x y c c' :
  board_ok b → getCell b x y = Some c → p c = false → p c' = true →
  cellsWhere p (setCell b x y c') ≡ₚ (x, y) :: cellsWhere p b.
Proof.
  intros Hb Hc Hp Hp'. apply (cellsWhere_add p p b _ [(x, y)]).
  - apply NoDup_singleton.
  - intros xy ->%list_elem_of_singleton. split_and!.
    + apply (coords_getCell b (x, y) Hb). by eexists.
    + unfold cellIs. simpl. by rewrite Hc.
    + unfold cellIs. simpl. rewrite getCell_setCell by eauto.
      by rewrite decide_True.
  - intros [qx qy] _ Hne. unfold cellIs. simpl.
    rewrite getCell_setCell by eauto. rewrite decide_False; [done|].
    intros [-> ->]. apply Hne. by left.
Qed.

(** *** The shot resolver, case by case *)

Lemma registerHit_repeat b ships x y c :
  getCell b x y = Some c → hit c = true →
  registerHit b ships x y = Returned (b, ships, Repeat).
Proof.
  intros Hc Hh. unfold registerHit. rewrite cloneBoard_id, Hc, Hh. done.
Qed.

Lemma registerHit_miss b ships x y c :
  getCell b x y = Some c → hit c = false →
  hasShip c && truthy (shipId c) = false →
  registerHit b ships x y = Returned (setCell b x y (fired c), ships, Miss).
Proof.
  intros Hc Hh Hs. unfold registerHit. rewrite cloneBoard_id, Hc, Hh.
  cbn [hasShip shipId]. by rewrite Hs.
Qed.

Lemma registerHit_ship b ships x y c i s :
  getCell b x y = Some c → hit c = false →
  hasShip c = true → shipId c = Some i → i ≠ 0 → ships !! i = Some s →
  registerHit b ships x y =
    Returned (setCell b x y (fired c),
              <[Ship.id s := Ship.mk (Ship.id s) (Ship.size s) (Ship.hits s + 1)]> ships,
              if Ship.size s <=? Ship.hits s + 1 then Sunk else Hit).
Proof.
  intros Hc Hh Hs Hid Hi Hship. unfold registerHit.
  rewrite cloneBoard_id, Hc, Hh. cbn [hasShip shipId].
  rewrite Hs, Hid. cbn [truthy andb mbind option_bind].
  assert ((i =? 0) = false) as -> by by apply Z.eqb_neq.
  cbn [negb]. rewrite Hship. unfold fired. by rewrite Hs, Hid.
Qed.

Lemma registerHit_dangling b ships x y c i :
  getCell b x y = Some c → hit c = false →
  hasShip c = true → shipId c = Some i → i ≠ 0 → ships !! i = None →
  registerHit b ships x y = IllTyped.
Proof.
  intros Hc Hh Hs Hid Hi Hship. unfold registerHit.
  rewrite cloneBoard_id, Hc, Hh. cbn [hasShip shipId].
  rewrite Hs, Hid. cbn [truthy andb mbind option_bind].
  assert ((i =? 0) = false) as -> by by apply Z.eqb_neq.
  cbn [negb]. by rewrite Hship.
Qed.

Lemma registerHit_Thrown b ships x y :
  getCell b x y = None → registerHit b ships x y = Thrown.
Proof. intros Hc. unfold registerHit. by rewrite cloneBoard_id, Hc. Qed.

(** On a consistent pair, an occupied cell that was not fired at belongs to
    a ship that is stored under its id and still has a cell to lose. *)
Lemma consistent_unfired_ship b ships x y c :
  consistent b ships → getCell b x y = Some c →
  hasShip c = true → hit c = false →
  ∃ i s, shipId c = Some i ∧ i ≠ 0 ∧ ships !! i = Some s ∧
         Ship.id s = i ∧ 0 ≤ Ship.hits s < Ship.size s.
Proof.
  intros Hcons Hc Hs Hh.
  pose proof (cons_cell _ _ Hcons x y c Hc) as Hid. rewrite Hs in Hid.
  destruct Hid as (i & Hid & Hi & [s Hship]).
  destruct (cons_ship _ _ Hcons i s Hship) as (? & Hsize & Hhits).
  exists i, s. split_and!; [done..|lia|].
  rewrite Hsize, Hhits. apply inj_lt.
  destruct (cellsWhere_sub (firedOfShip i) (ofShip i) b) as [Hle Heq].
  { unfold firedOfShip. by intros c' [? _]%andb_true_iff. }
  destruct (decide (length (cellsWhere (firedOfShip i) b)
                    = length (cellsWhere (ofShip i) b))) as [Hlen|]; [|lia].
  exfalso.
  assert ((x, y) ∈ cellsWhere (firedOfShip i) b) as Hin.
  { apply Heq; [done|]. apply elem_of_cellsWhere. exists c. split_and!; [done| |].
    - unfold ofShip. by apply bool_decide_eq_true.
    - apply (coords_getCell b (x, y)); [apply Hcons|by eexists]. }
  apply elem_of_cellsWhere in Hin as (c' & Hc' & Hf & _). simpl in Hc'.
  simplify_eq. unfold firedOfShip in Hf. rewrite Hh in Hf.
  by rewrite andb_false_r in Hf.
Qed.

Lemma consistent_fire_miss b ships x y c :
  consistent b ships → getCell b x y = Some c → hasShip c = false →
  consistent (setCell b x y (fired c)) ships.
Proof.
  intros Hcons Hc Hs.
  pose proof (cons_cell _ _ Hcons x y c Hc) as Hnone. rewrite Hs in Hnone.
  constructor.
  - apply board_ok_setCell, Hcons.
  - intros qx qy c'. rewrite getCell_setCell by eauto. case_decide.
    + intros ?; simplify_eq. cbn [fired hasShip shipId]. by rewrite Hs.
    + apply Hcons.
  - intros i s Hship. destruct (cons_ship _ _ Hcons i s Hship) as (? & ? & ?).
    rewrite !(cellsWhere_setCell_same _ b x y c); [done|done| |done|done].
    unfold firedOfShip, ofShip. cbn [fired shipId hit]. rewrite Hnone.
    by rewrite !bool_decide_eq_false_2.
Qed.

Lemma consistent_fire_ship b ships x y c i s :
  consistent b ships → getCell b x y = Some c →
  hit c = false → shipId c = Some i → ships !! i = Some s →
  consistent (setCell b x y (fired c))
             (<[i := Ship.mk i (Ship.size s) (Ship.hits s + 1)]> ships).
Proof.
  intros Hcons Hc Hh Hid Hship.
  destruct (cons_ship _ _ Hcons i s Hship) as (Hi & Hsize & Hhits).
  constructor.
  - apply board_ok_setCell, Hcons.
  - intros qx qy c'. rewrite getCell_setCell by eauto.
    intros Hc'.
    assert (∃ c0, getCell b qx qy = Some c0 ∧ hasShip c' = hasShip c0 ∧
                  shipId c' = shipId c0) as (c0 & Hc0 & -> & ->).
    { case_decide as Hq; [|eauto]. destruct Hq as [-> ->]. simplify_eq. eauto. }
    pose proof (cons_cell _ _ Hcons qx qy c0 Hc0) as Hcell.
    destruct (hasShip c0); [|done]. destruct Hcell as (j & ? & ? & ?).
    exists j. split_and!; [done..|]. rewrite lookup_insert_is_Some.
    destruct (decide (i = j)); auto.
  - intros j s'. rewrite lookup_insert. case_decide as Hj.
    + intros ?; simplify_eq. cbn [Ship.id Ship.size Ship.hits].
      split_and!; [done| |].
      * by rewrite (cellsWhere_setCell_same _ b x y c).
      * rewrite (cellsWhere_setCell_new _ b x y c); [|apply Hcons|done|..].
        -- rewrite Hhits. simpl. lia.
        -- unfold firedOfShip. by rewrite Hh, andb_false_r.
        -- unfold firedOfShip, ofShip. cbn [fired shipId hit].
           by rewrite bool_decide_eq_true_2.
    + intros Hs'. destruct (cons_ship _ _ Hcons j s' Hs') as (? & ? & ?).
      rewrite !(cellsWhere_setCell_same _ b x y c); [done|done| |done|done].
      unfold firedOfShip, ofShip. cbn [fired shipId hit]. rewrite Hid.
      rewrite !bool_decide_eq_false_2; [done|congruence..].
Qed.

(** The resolver on a consistent pair: it returns, the result is again
    consistent, and it is one of three shapes. *)
Lemma registerHit_consistent b ships x y c :
  consistent b ships → getCell b x y = Some c →
  ∃ nb ns r,
    registerHit b ships x y = Returned (nb, ns, r) ∧ consistent nb ns ∧
    ((hit c = true ∧ nb = b ∧ ns = ships ∧ r = Repeat) ∨
     (hit c = false ∧ hasShip c = false ∧
      nb = setCell b x y (fired c) ∧ ns = ships ∧ r = Miss) ∨
     (hit c = false ∧ hasShip c = true ∧
      ∃ i s, shipId c = Some i ∧ ships !! i = Some s ∧
             Ship.hits s < Ship.size s ∧
             nb = setCell b x y (fired c) ∧
             ns = <[i := Ship.mk i (Ship.size s) (Ship.hits s + 1)]> ships ∧
             r = if decide (Ship.hits s + 1 = Ship.size s) then Sunk else Hit)).
Proof.
  intros Hcons Hc.
  destruct (hit c) eqn:Hh.
  { exists b, ships, Repeat. rewrite (registerHit_repeat _ _ _ _ c) by done.
    split_and!; [done..|]. by left. }
  destruct (hasShip c) eqn:Hs.
  - destruct (consistent_unfired_ship _ _ _ _ _ Hcons Hc Hs Hh)
      as (i & s & Hid & Hi & Hship & Hsid & Hlt).
    rewrite (registerHit_ship _ _ _ _ c i s) by done. rewrite Hsid.
    eexists _, _, _. split_and!; [done| |].
    + by apply consistent_fire_ship.
    + right; right. split_and!; [done..|]. exists i, s.
      split_and!; [done|done|lia|done|done|].
      destruct (Z.leb_spec (Ship.size s) (Ship.hits s + 1));
        case_decide; (done || lia).
  - rewrite (registerHit_miss _ _ _ _ c) by (by rewrite ?Hs).
    eexists _, _, _. split_and!; [done| |].
    + by apply consistent_fire_miss.
    + right; left. done.
Qed.

(** *** Claims about the shot resolver *)

(** C2: on a board and fleet of the data model, a shot at an in-bounds cell
    that was not fired at returns a board on which that cell is fired; on an
    empty cell the outcome is miss and the fleet is the same; on an occupied
    cell the ship the cell refers to has its hit counter incremented by one
    in the returned fleet, and the outcome is sunk when the new counter
    equals the size of the ship, hit otherwise. *)
Theorem registerHit_unfired_cell b ships x y c :
  consistent b ships → inBounds x y = true →
  getCell b x y = Some c → hit c = false →
  ∃ nb ns r,
    registerHit b ships x y = Returned (nb, ns, r) ∧
    (∃ c', getCell nb x y = Some c' ∧ hit c' = true) ∧
    (hasShip c = false → r = Miss ∧ ns = ships) ∧
    (hasShip c = true →
     ∃ i s, shipId c = Some i ∧ ships !! i = Some s ∧
            ns !! i = Some (Ship.mk i (Ship.size s) (Ship.hits s + 1)) ∧
            r = if decide (Ship.hits s + 1 = Ship.size s) then Sunk else Hit).
Proof.
  intros Hcons _ Hc Hh.
  destruct (registerHit_consistent _ _ x y c Hcons Hc)
    as (nb & ns & r & Hrun & _ & Hcase).
  exists nb, ns, r. split; [done|].
  destruct Hcase as [(? & _)|[(_ & Hs & -> & -> & ->)|(_ & Hs & i & s & Hi)]];
    [congruence| |].
  - split_and!.
    + exists (fired c). split; [|done].
      rewrite getCell_setCell by eauto. by rewrite decide_True.
    + done.
    + congruence.
  - destruct Hi as (Hid & Hship & Hlt & -> & -> & ->). split_and!.
    + exists (fired c). split; [|done].
      rewrite getCell_setCell by eauto. by rewrite decide_True.
    + congruence.
    + intros _. exists i, s. split_and!; [done..| |done].
      by rewrite lookup_insert_eq.
Qed.

Lemma registerHit_unfired_cell_witness :
  ∃ nb ns r,
    registerHit soloBoard soloFleet 0 0 = Returned (nb, ns, r) ∧
    (∃ c', getCell nb 0 0 = Some c' ∧ hit c' = true) ∧
    (hasShip (mkCell true false (Some 1)) = false → r = Miss ∧ ns = soloFleet) ∧
    (hasShip (mkCell true false (Some 1)) = true →
     ∃ i s, shipId (mkCell true false (Some 1)) = Some i ∧
            soloFleet !! i = Some s ∧
            ns !! i = Some (Ship.mk i (Ship.size s) (Ship.hits s + 1)) ∧
            r = if decide (Ship.hits s + 1 = Ship.size s) then Sunk else Hit).
Proof.
  apply (registerHit_unfired_cell soloBoard soloFleet 0 0
           (mkCell true false (Some 1))).
  - apply consistentb_sound. vm_compute. reflexivity.
  - reflexivity.
  - reflexivity.
  - reflexivity.
Defined.

(** C3: a shot at an in-bounds cell that was already fired at returns
    repeat, with the board and the fleet it was given. *)
Theorem registerHit_fired_cell b ships x y c :
  inBounds x y = true → getCell b x y = Some c → hit c = true →
  registerHit b ships x y = Returned (b, ships, Repeat).
Proof. intros _. apply registerHit_repeat. Qed.

Lemma registerHit_fired_cell_witness :
  registerHit (setCell soloBoard 0 0 (mkCell true true (Some 1)))
              {[1 := Ship.mk 1 1 1]} 0 0
  = Returned (setCell soloBoard 0 0 (mkCell true true (Some 1)),
              {[1 := Ship.mk 1 1 1]}, Repeat).
Proof.
  apply (registerHit_fired_cell _ _ 0 0 (mkCell true true (Some 1)));
    reflexivity.
Defined.

(** *** The win check *)

Lemma checkWin_true ships :
  checkWin ships = true ↔
  ∀ i s, ships !! i = Some s → Ship.size s ≤ Ship.hits s.
Proof.
  unfold checkWin. rewrite forallb_forall. split.
  - intros H i s His. apply Z.leb_le, H, list_elem_of_In.
    apply list_elem_of_fmap. exists (i, s). split; [done|].
    by apply elem_of_map_to_list.
  - intros H s ([i s'] & -> & His)%list_elem_of_In%list_elem_of_fmap.
    apply Z.leb_le, (H i). by apply elem_of_map_to_list.
Qed.

Lemma checkWin_empty : checkWin ∅ = true.
Proof. apply checkWin_true. intros i s. by rewrite lookup_empty. Qed.

(** On a consistent pair the fleet is destroyed exactly when every occupied
    cell was fired at. *)
Lemma checkWin_consistent b ships :
  consistent b ships →
  checkWin ships = true ↔
  ∀ x y c, getCell b x y = Some c → hasShip c = true → hit c = true.
Proof.
  intros Hcons. rewrite checkWin_true. split.
  - intros Hwin x y c Hc Hs.
    destruct (hit c) eqn:Hh; [done|exfalso].
    destruct (consistent_unfired_ship _ _ _ _ _ Hcons Hc Hs Hh)
      as (i & s & _ & _ & Hship & _ & Hlt).
    specialize (Hwin i s Hship). lia.
  - intros Hall i s Hship.
    destruct (cons_ship _ _ Hcons i s Hship) as (_ & -> & ->).
    rewrite (cellsWhere_ext (firedOfShip i) (ofShip i) b b); [done|].
    intros xy _. unfold cellIs.
    destruct (getCell b xy.1 xy.2) as [c|] eqn:Hc; [|done].
    unfold firedOfShip. destruct (ofShip i c) eqn:Hof; [|done].
    apply bool_decide_eq_true in Hof.
    pose proof (cons_cell _ _ Hcons _ _ c Hc) as Hcell.
    destruct (hasShip c) eqn:Hs; [|congruence].
    by rewrite (Hall _ _ c Hc Hs).
Qed.

(** *** The candidate list of [cpuFire] *)

Lemma candidates_loop b acc (l : list Coord) :
  (∀ xy, xy ∈ l → is_Some (getCell b xy.1 xy.2)) →
  loop_state (λ acc '(x, y),
    match getCell b x y with
    | Some c => Returned (if hit c then acc else acc ++ [(x, y)])
    | None => Thrown
    end) acc l
  = Returned (acc ++ filter (λ xy, cellIs (λ c, negb (hit c)) b xy) l).
Proof.
  revert acc. induction l as [|[x y] l IH]; intros acc Hl; cbn [loop_state].
  { by rewrite app_nil_r. }
  destruct (Hl (x, y)) as [c Hc]; [by left|]. simpl in Hc.
  rewrite Hc. cbn [mbind outcome_bind].
  rewrite IH by (intros; apply Hl; by right).
  rewrite filter_cons.
  assert (cellIs (λ c0, negb (hit c0)) b (x, y) = negb (hit c)) as Hcell.
  { unfold cellIs. simpl. by rewrite Hc. }
  destruct (decide _) as [Hd|Hd]; rewrite Hcell in Hd;
    destruct (hit c); simpl in Hd; try done.
  by rewrite <- app_assoc.
Qed.

Lemma candidates_Returned b :
  board_ok b →
  candidates b = Returned (cellsWhere (λ c, negb (hit c)) b).
Proof.
  intros Hb. unfold candidates. rewrite candidates_loop; [done|].
  intros xy. by apply coords_getCell.
Qed.

(** *** The firing handlers *)

Lemma playerFire_live st x y nb ns r :
  gameOver st = None → playerTurn st = true →
  registerHit (cpuBoard st) (cpuShips st) x y = Returned (nb, ns, r) →
  playerFire st x y =
    Returned {| playerBoard := playerBoard st; cpuBoard := nb;
                playerShips := playerShips st; cpuShips := ns;
                playerTurn := if checkWin ns then true
                              else if decide (r = Miss) then false else true;
                gameOver := if checkWin ns then Some player else None;
                cpuLastShot := cpuLastShot st;
                playerShots := playerShots st + 1;
                computerShots := computerShots st |}.
Proof.
  intros Hgo Hturn Hrun. unfold playerFire. rewrite Hgo, Hturn, Hrun.
  cbn. by destruct (checkWin ns).
Qed.

Lemma playerFire_inv st x y st' :
  playerFire st x y = Returned st' →
  st' = st ∨
  ∃ nb ns r,
    registerHit (cpuBoard st) (cpuShips st) x y = Returned (nb, ns, r) ∧
    playerBoard st' = playerBoard st ∧ playerShips st' = playerShips st ∧
    cpuBoard st' = nb ∧ cpuShips st' = ns.
Proof.
  unfold playerFire. destruct (_ || _); [intros; simplify_eq; by left|].
  destruct (registerHit _ _ _ _) as [[[nb ns] r]| |]; cbn; [|done..].
  intros Hst. right. exists nb, ns, r.
  destruct (checkWin ns); by simplify_eq.
Qed.

Lemma cpuFire_live st rnd cands px py nb ns r :
  gameOver st = None →
  candidates (playerBoard st) = Returned cands →
  index cands (floor_mul rnd (Z.of_nat (length cands))) = Some (px, py) →
  registerHit (playerBoard st) (playerShips st) px py = Returned (nb, ns, r) →
  cpuFire st rnd =
    Returned {| playerBoard := nb; cpuBoard := cpuBoard st;
                playerShips := ns; cpuShips := cpuShips st;
                playerTurn := if checkWin ns then playerTurn st
                              else if decide (r = Miss) then true else false;
                gameOver := if checkWin ns then Some cpu else None;
                cpuLastShot := Some (px, py);
                playerShots := playerShots st;
                computerShots := computerShots st + 1 |}.
Proof.
  intros Hgo Hcands Hpick Hrun. unfold cpuFire. rewrite Hgo, Hcands. cbn.
  rewrite bool_decide_eq_false_2.
  2:{ intros ->. unfold index in Hpick. by destruct (_ <? _). }
  rewrite Hpick, Hrun. done.
Qed.

Lemma cpuFire_inv st rnd st' :
  cpuFire st rnd = Returned st' →
  st' = st ∨
  ∃ px py nb ns r,
    registerHit (playerBoard st) (playerShips st) px py = Returned (nb, ns, r) ∧
    playerBoard st' = nb ∧ playerShips st' = ns ∧
    cpuBoard st' = cpuBoard st ∧ cpuShips st' = cpuShips st.
Proof.
  unfold cpuFire. destruct (bool_decide _); [intros; simplify_eq; by left|].
  destruct (candidates _) as [cands| |]; cbn; [|done..].
  destruct (bool_decide (cands = [])); [intros; simplify_eq; by left|].
  destruct (index _ _) as [[px py]|]; [|done].
  destruct (registerHit _ _ _ _) as [[[nb ns] r]| |] eqn:Hrun; cbn; [|done..].
  intros ?; simplify_eq. right. by exists px, py, nb, ns, r.
Qed.

(** C4: a shot resolved from a live state. The fleet that was fired at is
    checked first: when it is destroyed the firing side has won; otherwise a
    miss passes the turn to the other side, and any other outcome leaves it
    with the firing side. The first part is the human player firing at the
    opponent's board, the second the opponent firing at the cell it picked
    among its candidates. *)
Theorem turn_after_resolved_shot :
  (∀ st x y nb ns r,
     gameOver st = None → playerTurn st = true →
     registerHit (cpuBoard st) (cpuShips st) x y = Returned (nb, ns, r) →
     ∃ st', playerFire st x y = Returned st' ∧
            cpuBoard st' = nb ∧ cpuShips st' = ns ∧
            (checkWin ns = true → gameOver st' = Some player) ∧
            (checkWin ns = false → r = Miss →
             gameOver st' = None ∧ playerTurn st' = false) ∧
            (checkWin ns = false → r ≠ Miss →
             gameOver st' = None ∧ playerTurn st' = true)) ∧
  (∀ st rnd cands px py nb ns r,
     gameOver st = None →
     candidates (playerBoard st) = Returned cands →
     index cands (floor_mul rnd (Z.of_nat (length cands))) = Some (px, py) →
     registerHit (playerBoard st) (playerShips st) px py = Returned (nb, ns, r) →
     ∃ st', cpuFire st rnd = Returned st' ∧
            playerBoard st' = nb ∧ playerShips st' = ns ∧
            (checkWin ns = true → gameOver st' = Some cpu) ∧
            (checkWin ns = false → r = Miss →
             gameOver st' = None ∧ playerTurn st' = true) ∧
            (checkWin ns = false → r ≠ Miss →
             gameOver st' = None ∧ playerTurn st' = false)).
Proof.
  split.
  - intros st x y nb ns r Hgo Hturn Hrun.
    rewrite (playerFire_live _ _ _ _ _ _ Hgo Hturn Hrun).
    eexists. split; [done|]. cbn. split_and!; [done..| | |].
    + by intros ->.
    + intros -> ->. by rewrite decide_True.
    + intros -> ?. by rewrite decide_False.
  - intros st rnd cands px py nb ns r Hgo Hcands Hpick Hrun.
    rewrite (cpuFire_live _ _ _ _ _ _ _ _ Hgo Hcands Hpick Hrun).
    eexists. split; [done|]. cbn. split_and!; [done..| | |].
    + by intros ->.
    + intros -> ->. by rewrite decide_True.
    + intros -> ?. by rewrite decide_False.
Qed.

(** The board that [registerHit] returns is the one of
    [registerHitBoard], whatever the fleets. *)
Lemma registerHit_registerHitBoard b ships ships' x y nb ns r :
  registerHit b ships x y = Returned (nb, ns, r) →
  registerHitBoard b ships' x y = Returned nb.
Proof.
  unfold registerHit, registerHitBoard.
  destruct (getCell _ x y) as [c|]; [|done].
  destruct (hit c). { by intros [= <- _ _]. }
  destruct (_ && _); [|by intros [= <- _ _]].
  destruct (_ ≫= _); [|done]. by intros [= <- _ _].
Qed.

(** What a call of [cpuFire] by a closure has done when it returns:
    nothing, or one resolved shot at a candidate. *)
Lemma cpuFireFrom_cases cl st rnd st' armed :
  cpuFireFrom cl st rnd = Returned (st', armed) →
  (st' = st ∧ armed = [] ∧
   (is_Some (c_gameOver cl) ∨ candidates (playerBoard st) = Returned [])) ∨
  (c_gameOver cl = None ∧
   ∃ cands px py nb ns r,
     candidates (playerBoard st) = Returned cands ∧
     index cands (floor_mul rnd (Z.of_nat (length cands))) = Some (px, py) ∧
     registerHit (playerBoard st) (playerShips st) px py
       = Returned (nb, ns, r) ∧
     st' = {| playerBoard := nb; cpuBoard := cpuBoard st;
              playerShips := ns; cpuShips := cpuShips st;
              playerTurn := if checkWin ns then playerTurn st
                            else if decide (r = Miss) then true else false;
              gameOver := if checkWin ns then Some cpu else gameOver st;
              cpuLastShot := Some (px, py);
              playerShots := playerShots st;
              computerShots := computerShots st + 1 |} ∧
     armed = if checkWin ns then []
             else if decide (r = Miss) then [] else [cl]).
Proof.
  unfold cpuFireFrom. destruct (c_gameOver cl) as [w|] eqn:Hgo.
  { rewrite bool_decide_eq_true_2 by eauto. intros [= <- <-].
    left. split_and!; [done..|]. left. eauto. }
  rewrite bool_decide_eq_false_2 by (by intros [? ?]).
  destruct (candidates (playerBoard st)) as [cands| |] eqn:Hcands;
    cbn [mbind outcome_bind]; [|done..].
  destruct (decide (cands = [])) as [->|Hne].
  { rewrite bool_decide_eq_true_2 by done. intros [= <- <-].
    left. split_and!; [done..|]. by right. }
  rewrite bool_decide_eq_false_2 by done.
  destruct (index cands _) as [[px py]|] eqn:Hpick; [|done].
  destruct (registerHit _ (playerShips st) px py)
    as [[[nb ns] res]| |] eqn:Hrun; cbn [mbind outcome_bind]; [|done..].
  rewrite (registerHit_registerHitBoard _ _ (c_playerShips cl) _ _ _ _ _ Hrun).
  cbn [mbind outcome_bind]. intros [= <- <-]. right. split; [done|].
  by exists cands, px, py, nb, ns, res.
Qed.

(** The call by a closure whose [gameOver] is that of the state, whatever
    its fleet, does to the state what [cpuFire] does: so the call by a
    timer in a game that is not over, and the call by the closure of the
    render of the state itself. *)
Lemma cpuFireFrom_cpuFire cl st r :
  c_gameOver cl = gameOver st →
  cpuFireFrom cl st r ≫= (λ p, Returned p.1) = cpuFire st r.
Proof.
  intros Hgo. unfold cpuFireFrom, cpuFire. rewrite Hgo.
  destruct (bool_decide _); [done|].
  destruct (candidates _) as [cands| |]; cbn [mbind outcome_bind]; [|done..].
  destruct (bool_decide _); [done|].
  destruct (index _ _) as [[px py]|]; [|done].
  destruct (registerHit _ _ _ _) as [[[nb ns] res]| |] eqn:Hrun; [|done..].
  cbn [mbind outcome_bind].
  by rewrite (registerHit_registerHitBoard _ _ (c_playerShips cl) _ _ _ _ _ Hrun).
Qed.

Lemma cpuFireFrom_closureOf st r :
  cpuFireFrom (closureOf st) st r ≫= (λ p, Returned p.1) = cpuFire st r.
Proof. by apply cpuFireFrom_cpuFire. Qed.

(** A click with its timer: the state is the one of [playerFire], and a
    timer is armed only in a live state. *)
Lemma playerFireT_inv st x y st' armed :
  playerFireT st x y = Returned (st', armed) →
  playerFire st x y = Returned st' ∧
  (armed = [] ∨ (armed = [closureOf st] ∧ gameOver st = None)).
Proof.
  unfold playerFireT.
  destruct (bool_decide (is_Some (gameOver st)) || negb (playerTurn st))
    eqn:Hguard.
  { intros [= <- <-]. split; [|by left]. unfold playerFire. by rewrite Hguard. }
  destruct (registerHit _ _ _ _) as [[[nb ns] res]| |];
    cbn [mbind outcome_bind]; [|done..].
  destruct (playerFire st x y) as [st1| |]; cbn [mbind outcome_bind]; [|done..].
  intros [= <- <-]. split; [done|].
  apply orb_false_iff in Hguard as [Hgo _]. apply bool_decide_eq_false in Hgo.
  assert (gameOver st = None) as Hnone.
  { destruct (gameOver st); [|done]. destruct Hgo. eauto. }
  destruct (checkWin ns); [by left|]. case_decide; [by right|by left].
Qed.

(** A handler whose closure has seen the end of the game does nothing. *)
Lemma finished_closure_does_nothing :
  (∀ st x y, is_Some (gameOver st) → playerFire st x y = Returned st) ∧
  (∀ cl st r, is_Some (c_gameOver cl) → cpuFireFrom cl st r = Returned (st, [])).
Proof.
  split.
  - intros st x y Hover. unfold playerFire. by rewrite bool_decide_eq_true_2.
  - intros cl st r Hover. unfold cpuFireFrom. by rewrite bool_decide_eq_true_2.
Qed.

(** C7: the code breaks the claim for the shots of the opponent. The guard
    of [cpuFire] tests the [gameOver] of the closure that the timer runs,
    and that is never set. In the run [staleTimerEvents] a miss arms a
    timer, a new game is started and won by the human player while the
    timer is pending; the game is then over, a click does nothing, and the
    timer, when it is due, fires at (0,0) of the human player's board: the
    cell is marked, the ship there is hit, the turn goes to the opponent,
    a shot is counted and the next timer is armed, all in a game that
    stays over. *)
Theorem stale_timer_fires_in_finished_game :
  ∃ w w',
    run (mkWorld initialGame []) staleTimerEvents = Returned w ∧
    gameOver (w_state w) = Some player ∧
    (∀ x y, playerFire (w_state w) x y = Returned (w_state w)) ∧
    w_timers w ≠ [] ∧ Forall (λ cl, c_gameOver cl = None) (w_timers w) ∧
    fire w (Timer zeroDraw) = Returned w' ∧
    gameOver (w_state w') = Some player ∧
    cellIs hit (playerBoard (w_state w)) (0, 0) = false ∧
    cellIs hit (playerBoard (w_state w')) (0, 0) = true ∧
    playerShips (w_state w) !! 1 = Some (Ship.mk 1 4 0) ∧
    playerShips (w_state w') !! 1 = Some (Ship.mk 1 4 1) ∧
    playerTurn (w_state w) = true ∧ playerTurn (w_state w') = false ∧
    computerShots (w_state w') = computerShots (w_state w) + 1 ∧
    w_timers w' ≠ [].
Proof.
  eexists _, _. split; [vm_compute; reflexivity|].
  split; [vm_compute; reflexivity|].
  split.
  { intros x y. apply (proj1 finished_closure_does_nothing).
    vm_compute. eauto. }
  split; [vm_compute; discriminate|].
  split; [repeat constructor|].
  split; [vm_compute; reflexivity|].
  split_and!; try (vm_compute; reflexivity); vm_compute; discriminate.
Qed.

Lemma turn_after_resolved_shot_witness :
  ∃ st', playerFire soloGame 1 1 = Returned st' ∧
         cpuBoard st' = setCell soloBoard 1 1 (fired emptyCell) ∧
         cpuShips st' = soloFleet ∧
         (checkWin soloFleet = true → gameOver st' = Some player) ∧
         (checkWin soloFleet = false → Miss = Miss →
          gameOver st' = None ∧ playerTurn st' = false) ∧
         (checkWin soloFleet = false → Miss ≠ Miss →
          gameOver st' = None ∧ playerTurn st' = true).
Proof.
  apply (proj1 turn_after_resolved_shot soloGame 1 1); reflexivity.
Defined.

Lemma index_in_range {A} (l : list A) i :
  0 ≤ i < Z.of_nat (length l) → ∃ a, index l i = Some a ∧ a ∈ l.
Proof.
  intros Hi. destruct (lookup_lt_is_Some_2 l (Z.to_nat i)) as [a Ha]; [lia|].
  exists a. split; [apply index_Some; split; [lia|done]|].
  by eapply list_elem_of_lookup_2.
Qed.

Lemma in_range_ratio p q : 0 ≤ p < q → in_range (ratio p q).
Proof.
  intros Hpq n Hn. cbn [ratio floor_mul]. split.
  - apply Z.div_pos; nia.
  - apply Z.div_lt_upper_bound; nia.
Qed.

(** C10: the win check holds of a fleet without ships, and a side whose
    fleet has no ship loses at the first shot resolved against it: a click
    of the human player on an empty cell of the opponent's board, or a shot
    of the opponent at a board on which a cell is left to fire at. *)
Theorem empty_fleet_counts_as_destroyed :
  checkWin ∅ = true ∧
  (∀ st x y c,
     gameOver st = None → playerTurn st = true → cpuShips st = ∅ →
     getCell (cpuBoard st) x y = Some c → hasShip c = false →
     ∃ st', playerFire st x y = Returned st' ∧ gameOver st' = Some player) ∧
  (∀ st r,
     gameOver st = None → playerShips st = ∅ →
     consistent (playerBoard st) ∅ →
     cellsWhere (λ c, negb (hit c)) (playerBoard st) ≠ [] →
     in_range r →
     ∃ st', cpuFire st r = Returned st' ∧ gameOver st' = Some cpu).
Proof.
  split_and!.
  - apply checkWin_empty.
  - intros st x y c Hgo Hturn Hships Hc Hs.
    assert (∃ nb r, registerHit (cpuBoard st) (cpuShips st) x y
                    = Returned (nb, ∅, r)) as (nb & r & Hrun).
    { rewrite Hships. destruct (hit c) eqn:Hh.
      - eexists _, _. by apply (registerHit_repeat _ _ _ _ c).
      - eexists _, _. apply (registerHit_miss _ _ _ _ c); [done..|].
        by rewrite Hs. }
    rewrite (playerFire_live _ _ _ _ _ _ Hgo Hturn Hrun).
    eexists. split; [done|]. cbn. by rewrite checkWin_empty.
  - intros st r Hgo Hships Hcons Hcand Hr.
    pose proof (candidates_Returned _ (cons_board _ _ Hcons)) as Hcands.
    set (cands := cellsWhere (λ c, negb (hit c)) (playerBoard st)) in *.
    destruct (index_in_range cands (floor_mul r (Z.of_nat (length cands))))
      as ([px py] & Hpick & Hin).
    { apply Hr. destruct cands; [done|]. simpl. lia. }
    apply elem_of_cellsWhere in Hin as (c & Hc & Hh & _). simpl in Hc.
    apply negb_true_iff in Hh.
    assert (hasShip c = false) as Hs.
    { pose proof (cons_cell _ _ Hcons _ _ c Hc) as Hcell.
      destruct (hasShip c); [|done].
      destruct Hcell as (i & _ & _ & [s Hs]). by rewrite lookup_empty in Hs. }
    assert (registerHit (playerBoard st) (playerShips st) px py
            = Returned (setCell (playerBoard st) px py (fired c), ∅, Miss))
      as Hrun.
    { rewrite Hships. apply (registerHit_miss _ _ _ _ c); [done..|].
      by rewrite Hs. }
    rewrite (cpuFire_live _ _ _ _ _ _ _ _ Hgo Hcands Hpick Hrun).
    eexists. split; [done|]. cbn. by rewrite checkWin_empty.
Qed.

Lemma empty_fleet_counts_as_destroyed_witness :
  (∃ st', playerFire initialGame 0 0 = Returned st' ∧
          gameOver st' = Some player) ∧
  (∃ st', cpuFire initialGame zeroDraw = Returned st' ∧
          gameOver st' = Some cpu).
Proof.
  destruct empty_fleet_counts_as_destroyed as (_ & Hplayer & Hcpu). split.
  - apply (Hplayer initialGame 0 0 emptyCell); reflexivity.
  - apply (Hcpu initialGame zeroDraw); try reflexivity.
    + apply consistentb_sound. vm_compute. reflexivity.
    + vm_compute. discriminate.
    + apply in_range_ratio. lia.
Defined.

(** *** Invariants of the data model *)

Lemma consistent_data_model b ships : consistent b ships → data_model b ships.
Proof.
  intros Hcons. split.
  - intros x y c Hc. pose proof (cons_cell _ _ Hcons x y c Hc) as Hcell.
    destruct (hasShip c).
    + destruct Hcell as (i & -> & _). split; eauto.
    + rewrite Hcell. split; [by intros [? ?]|done].
  - intros i s Hs. destruct (cons_ship _ _ Hcons i s Hs) as (_ & -> & ->).
    split; [lia|]. apply inj_le.
    apply (cellsWhere_sub (firedOfShip i) (ofShip i) b).
    unfold firedOfShip. by intros c [? _]%andb_true_iff.
Qed.

Lemma fired_kept_refl b : fired_kept b b.
Proof. intros x y c Hc. exists c. by split_and!. Qed.

Lemma fired_kept_setCell b x y c :
  getCell b x y = Some c → fired_kept b (setCell b x y (fired c)).
Proof.
  intros Hc qx qy c' Hc'. rewrite getCell_setCell by eauto.
  case_decide as Hq; [|exists c'; by split_and!].
  destruct Hq as [-> ->]. rewrite Hc in Hc'. injection Hc' as <-.
  exists (fired c). by split_and!.
Qed.

Lemma registerHit_fired_kept b ships x y nb ns r :
  registerHit b ships x y = Returned (nb, ns, r) → fired_kept b nb.
Proof.
  unfold registerHit. rewrite cloneBoard_id.
  destruct (getCell b x y) as [c|] eqn:Hc; [|done].
  destruct (hit c); [intros; simplify_eq; apply fired_kept_refl|].
  destruct (_ && _).
  - destruct (_ ≫= _); [|done]. intros; simplify_eq.
    by apply fired_kept_setCell.
  - intros; simplify_eq. by apply fired_kept_setCell.
Qed.

Lemma registerHit_Returned_consistent b ships x y nb ns r :
  consistent b ships → registerHit b ships x y = Returned (nb, ns, r) →
  consistent nb ns.
Proof.
  intros Hcons Hrun.
  destruct (getCell b x y) as [c|] eqn:Hc.
  - destruct (registerHit_consistent _ _ x y c Hcons Hc)
      as (nb' & ns' & r' & Hrun' & ? & _).
    rewrite Hrun in Hrun'. by simplify_eq.
  - by rewrite registerHit_Thrown in Hrun.
Qed.

Lemma placeShipsRandomly_consistent rand calls b ships calls' :
  placeShipsRandomly rand calls = Returned (b, ships, calls') →
  consistent b ships.
Proof.
  destruct (placeShipsRandomly_inv rand calls)
    as (b' & ships' & k & placed & -> & Hinv & _).
  intros ?; simplify_eq. by apply placement_inv_consistent in Hinv.
Qed.

Lemma consistent_initial : consistent createEmptyBoard ∅.
Proof. apply (placement_inv_consistent _ _ (placement_inv_init 0)). Qed.
Lemma newGame_inv rand calls st st' calls' :
  newGame rand calls st = Returned (st', calls') →
  ∃ calls1,
    placeShipsRandomly rand calls
      = Returned (playerBoard st', playerShips st', calls1) ∧
    placeShipsRandomly rand calls1
      = Returned (cpuBoard st', cpuShips st', calls').
Proof.
  unfold newGame.
  generalize (placeShipsRandomly rand calls).
  generalize (placeShipsRandomly rand). intros place [[[pb ps] k]| |]; [|done..].
  cbn. destruct (place k) as [[[cb cs] k']| |] eqn:Hplace; [|done..].
  cbn. intros ?; simplify_eq. cbn. eauto.
Qed.

Lemma reachable_consistent st :
  reachable st →
  consistent (playerBoard st) (playerShips st) ∧
  consistent (cpuBoard st) (cpuShips st).
Proof.
  induction 1 as [|st st' _ [Hp Hc] Hstep].
  { split; apply consistent_initial. }
  destruct Hstep as [rand calls st st' calls' Hnew|st x y st' Hfire|
                     st ships r st' armed Hfire].
  - apply newGame_inv in Hnew as (k & H1 & H2).
    split; by eapply placeShipsRandomly_consistent.
  - apply playerFire_inv in Hfire
      as [->|(nb & ns & r & Hrun & -> & -> & <- & <-)]; [done|].
    split; [done|]. eapply registerHit_Returned_consistent; [apply Hc|apply Hrun].
  - apply cpuFireFrom_cases in Hfire
      as [(-> & _)|(_ & cands & px & py & nb & ns & res & _ & _ & Hrun & -> & _)];
      [done|].
    split; [|done]. eapply registerHit_Returned_consistent; [apply Hp|apply Hrun].
Qed.

(** A run of the page goes through states that the component can reach,
    and every timer it leaves pending runs a closure that has seen no end
    of the game. *)
Lemma fire_reachable w e w' :
  reachable (w_state w) →
  Forall (λ cl, c_gameOver cl = None) (w_timers w) →
  fire w e = Returned w' →
  reachable (w_state w') ∧ Forall (λ cl, c_gameOver cl = None) (w_timers w').
Proof.
  intros Hreach Htimers. destruct e as [rand calls|x y|r]; cbn [fire].
  - intros ([st calls'] & Hnew & [= <-])%bind_Returned. split; [|done].
    eapply reachable_step; [done|]. by eapply step_newGame.
  - intros ([st armed] & [Hfire Harmed]%playerFireT_inv & [= <-])%bind_Returned.
    cbn [w_state w_timers]. split.
    + eapply reachable_step; [done|]. by eapply step_playerFire.
    + apply Forall_app. split; [done|].
      destruct Harmed as [->|[-> Hgo]]; [done|]. by repeat constructor.
  - destruct (w_timers w) as [|cl timers] eqn:Hw; [by intros [= <-]; rewrite Hw|].
    apply Forall_cons in Htimers as [Hcl Htimers].
    intros ([st armed] & Hfire & [= <-])%bind_Returned.
    cbn [w_state w_timers]. split.
    + eapply reachable_step; [done|].
      apply (step_cpuFire _ (c_playerShips cl) r _ armed).
      destruct cl as [go ships]. cbn in Hcl. by subst go.
    + apply Forall_app. split; [done|].
      apply cpuFireFrom_cases in Hfire
        as [(_ & -> & _)|(_ & cands & px & py & nb & ns & res & _ & _ & _ & _ & ->)];
        [done|].
      destruct (checkWin ns); [done|]. case_decide; [done|]. by repeat constructor.
Qed.

Lemma run_reachable events w :
  run (mkWorld initialGame []) events = Returned w → reachable (w_state w).
Proof.
  cut (∀ w0, reachable (w_state w0) →
         Forall (λ cl, c_gameOver cl = None) (w_timers w0) →
         run w0 events = Returned w → reachable (w_state w)).
  { intros Hgen. apply Hgen; [apply reachable_initial|done]. }
  unfold run. induction events as [|e events IH]; intros w0 Hreach Htimers.
  { cbn [loop_state]. by intros [= <-]. }
  rewrite loop_state_cons. intros (w1 & Hfire & Hrest)%bind_Returned.
  destruct (fire_reachable _ _ _ Hreach Htimers Hfire). by eapply IH.
Qed.

(** The state at the end of a run, as the examples take it, is one the
    component can reach. *)
Lemma run_state_reachable events :
  reachable (match run (mkWorld initialGame []) events with
             | Returned w => w_state w
             | _ => initialGame
             end).
Proof.
  destruct (run _ events) as [w| |] eqn:Hrun; [|apply reachable_initial..].
  by eapply run_reachable.
Qed.

(** C9: in every state the component can reach, by new games, clicks and
    shots of the opponent, also those of timers that outlive their game,
    both boards and fleets satisfy the invariants of the data model: a cell
    has a ship id exactly when it is occupied, and the hit counter of a
    ship lies between 0 and its size. A click or a shot of the opponent,
    run by any closure, never resets a fired flag, and moves no ship. *)
Theorem reachable_states_keep_data_model st :
  reachable st →
  data_model (playerBoard st) (playerShips st) ∧
  data_model (cpuBoard st) (cpuShips st) ∧
  (∀ x y st', playerFire st x y = Returned st' →
     fired_kept (playerBoard st) (playerBoard st') ∧
     fired_kept (cpuBoard st) (cpuBoard st')) ∧
  (∀ r st', cpuFire st r = Returned st' →
     fired_kept (playerBoard st) (playerBoard st') ∧
     fired_kept (cpuBoard st) (cpuBoard st')) ∧
  (∀ cl r st' armed, cpuFireFrom cl st r = Returned (st', armed) →
     fired_kept (playerBoard st) (playerBoard st') ∧
     fired_kept (cpuBoard st) (cpuBoard st')).
Proof.
  intros [Hp Hc]%reachable_consistent.
  split_and!; [by apply consistent_data_model..| | |].
  - intros x y st' [->|(nb & ns & r & Hrun & -> & _ & <- & _)]%playerFire_inv.
    + split; apply fired_kept_refl.
    + split; [apply fired_kept_refl|]. by eapply registerHit_fired_kept.
  - intros r st' [->|(px & py & nb & ns & r' & Hrun & <- & _ & -> & _)]%cpuFire_inv.
    + split; apply fired_kept_refl.
    + split; [|apply fired_kept_refl]. by eapply registerHit_fired_kept.
  - intros cl r st' armed
      [(-> & _)|(_ & cands & px & py & nb & ns & res & _ & _ & Hrun & -> & _)]
      %cpuFireFrom_cases.
    + split; apply fired_kept_refl.
    + split; [|apply fired_kept_refl]. by eapply registerHit_fired_kept.
Qed.

Lemma reachable_states_keep_data_model_witness :
  data_model (playerBoard midGame) (playerShips midGame) ∧
  data_model (cpuBoard midGame) (cpuShips midGame) ∧
  (∀ x y st', playerFire midGame x y = Returned st' →
     fired_kept (playerBoard midGame) (playerBoard st') ∧
     fired_kept (cpuBoard midGame) (cpuBoard st')) ∧
  (∀ r st', cpuFire midGame r = Returned st' →
     fired_kept (playerBoard midGame) (playerBoard st') ∧
     fired_kept (cpuBoard midGame) (cpuBoard st')) ∧
  (∀ cl r st' armed, cpuFireFrom cl midGame r = Returned (st', armed) →
     fired_kept (playerBoard midGame) (playerBoard st') ∧
     fired_kept (cpuBoard midGame) (cpuBoard st')).
Proof.
  apply (reachable_states_keep_data_model midGame).
  unfold midGame. apply run_state_reachable.
Defined.

(** The state [midGame] has ships and fired cells on both sides: on
    either board the cell (0,0) of the first ship is fired at, and the
    ship has one hit. *)
Lemma midGame_cells :
  getCell (playerBoard midGame) 0 0 = Some (mkCell true true (Some 1)) ∧
  playerShips midGame !! 1 = Some (Ship.mk 1 4 1) ∧
  size (playerShips midGame) = 10%nat ∧
  getCell (cpuBoard midGame) 0 0 = Some (mkCell true true (Some 1)) ∧
  getCell (cpuBoard midGame) 9 9 = Some (mkCell false true None) ∧
  cpuShips midGame !! 1 = Some (Ship.mk 1 4 1) ∧
  gameOver midGame = None.
Proof. split_and!; vm_compute; reflexivity. Qed.

(** *** Firing at every cell of a fleet *)

Lemma canPlaceShip_empty x y size h :
  (∀ xy, xy ∈ shipCells x y size h → inBounds xy.1 xy.2 = true) →
  canPlaceShip createEmptyBoard x y size h = Returned true.
Proof.
  intros Hin. apply loop_all_true, Forall_forall. intros i Hi.
  assert (shipCell x y h i ∈ shipCells x y size h) as Hcell.
  { apply elem_of_shipCells. exists i. split; [|done].
    apply elem_of_seqZ in Hi. lia. }
  apply Hin in Hcell.
  destruct (shipCell x y h i) as [cx cy]. cbn [fst snd] in Hcell.
  rewrite Hcell. cbn [negb]. apply loop_all_true, Forall_forall. intros [dx dy] _.
  destruct (inBounds (cx + dx) (cy + dy)) eqn:E; [|done].
  apply (getCell_inBounds _ _ _ board_ok_empty) in E as [c Hc].
  rewrite Hc. by apply getCell_empty in Hc as ->.
Qed.

(** With draws in range the first ship is placed at the first attempt. *)
Lemma first_ship_placed rand calls n :
  (∀ k, in_range (rand k)) →
  ∃ st', attempts rand 4 (S n) (mkPlacing createEmptyBoard ∅ 1 calls)
           = Returned st' ∧
         placement_inv st' [4].
Proof.
  intros Hrand. cbn [attempts p_calls p_board p_ships p_shipId].
  pose proof (Hrand (S calls) 7) as Hx7. pose proof (Hrand (S calls) 10) as Hx10.
  pose proof (Hrand (S (S calls)) 7) as Hy7.
  pose proof (Hrand (S (S calls)) 10) as Hy10.
  change (BOARD_SIZE - 4 + 1) with 7. change BOARD_SIZE with 10.
  generalize dependent (lt_half (rand calls)). intros h.
  generalize dependent (floor_mul (rand (S calls))).
  generalize dependent (floor_mul (rand (S (S calls)))). intros fy Hy7 Hy10 fx Hx7 Hx10.
  assert (canPlaceShip createEmptyBoard (fx (if h then 7 else 10))
            (fy (if h then 10 else 7)) 4 h = Returned true) as Hcan.
  { apply canPlaceShip_empty.
    intros xy (i & Hi & ->)%elem_of_shipCells.
    apply inBounds_spec. unfold BOARD_SIZE.
    destruct h; cbn [shipCell fst snd]; lia. }
  rewrite Hcan.
  destruct (placeShip_inv (mkPlacing createEmptyBoard ∅ 1 (S (S (S calls))))
              [] (fx (if h then 7 else 10)) (fy (if h then 10 else 7)) 4 h)
    as (st' & Hplace & _ & Hinv);
    [apply placement_inv_init|done|done|eauto].
Qed.

Lemma sumZ_nonneg l : Forall (λ s, 0 ≤ s) l → 0 ≤ sumZ l.
Proof. unfold sumZ. induction 1; simpl; lia. Qed.

(** A board as the generator returns it: consistent with its fleet and
    without a fired cell; with draws in range, it has an occupied cell. *)
Lemma placeShipsRandomly_fresh rand calls b ships calls' :
  placeShipsRandomly rand calls = Returned (b, ships, calls') →
  consistent b ships ∧
  (∀ x y c, getCell b x y = Some c → hit c = false) ∧
  ((∀ k, in_range (rand k)) → cellsWhere hasShip b ≠ []).
Proof.
  intros Hrun. split; [by eapply placeShipsRandomly_consistent|].
  revert Hrun. unfold placeShipsRandomly, SHIP_SIZES. rewrite loop_state_cons.
  intros ([b' s' i k] & Hloop & Heq)%bind_Returned.
  cbn [p_board p_ships p_calls] in Heq. injection Heq as -> -> ->.
  apply bind_Returned in Hloop as (st1 & Hfirst & Hrest).
  destruct (attempts_inv rand 4 500 _ [] (placement_inv_init calls))
    as (st1' & Hfirst' & Hinv1); [done|].
  rewrite Hfirst in Hfirst'. injection Hfirst' as <-.
  assert (Forall (λ s, 0 ≤ s) [3; 3; 2; 2; 2; 1; 1; 1; 1]) as Hpos.
  { repeat constructor; lia. }
  split.
  - assert (∃ placed, placement_inv st1 placed) as [placed Hinv1']
      by (destruct Hinv1; eauto).
    destruct (place_all_inv rand _ st1 placed Hinv1' Hpos)
      as (st' & placed' & Hloop & Hinv & _).
    rewrite Hrest in Hloop. injection Hloop as <-.
    intros x y c Hc. by destruct (pi_cell _ _ Hinv x y c Hc).
  - intros Hrand.
    destruct (first_ship_placed rand calls 499 Hrand)
      as (st1' & Hfirst' & Hinv4).
    rewrite Hfirst in Hfirst'. injection Hfirst' as <-.
    destruct (place_all_inv rand _ st1 [4] Hinv4 Hpos)
      as (st' & placed' & Hloop & Hinv & Hsub).
    rewrite Hrest in Hloop. injection Hloop as <-.
    pose proof (pi_occupied _ _ Hinv) as Hocc. cbn [p_board] in Hocc.
    intros Hnil. rewrite Hnil, sumZ_app in Hocc.
    assert (0 ≤ sumZ placed'); [|simpl in Hocc; lia].
    apply sumZ_nonneg. eapply Forall_forall. intros s Hs.
    eapply elem_of_sublist in Hs; [|done].
    by eapply (proj1 (Forall_forall _ _)) in Hpos.
Qed.

Lemma fired_kept_trans b1 b2 b3 :
  fired_kept b1 b2 → fired_kept b2 b3 → fired_kept b1 b3.
Proof.
  intros H12 H23 x y c Hc.
  destruct (H12 x y c Hc) as (c2 & Hc2 & ? & ? & ?).
  destruct (H23 x y c2 Hc2) as (c3 & Hc3 & ? & ? & ?).
  exists c3. split_and!; [done|congruence..|auto].
Qed.

Lemma cellIs_cellsWhere p b (xy : Coord) :
  board_ok b → cellIs p b xy = true ↔ xy ∈ cellsWhere p b.
Proof.
  intros Hb. rewrite elem_of_cellsWhere. unfold cellIs. split.
  - destruct (getCell b xy.1 xy.2) as [c|] eqn:Hc; [|done].
    intros Hp. exists c. split_and!; [done..|].
    apply (coords_getCell b xy Hb). by rewrite Hc.
  - by intros (c & -> & ? & _).
Qed.

(** A click on an occupied cell while the player leads. *)
Lemma playerFire_leads st x y c :
  player_leads st →
  getCell (cpuBoard st) x y = Some c → hasShip c = true →
  ∃ st', playerFire st x y = Returned st' ∧ player_leads st' ∧
         fired_kept (cpuBoard st) (cpuBoard st') ∧
         ∃ c', getCell (cpuBoard st') x y = Some c' ∧ hit c' = true.
Proof.
  intros (Hcons & Hturn & [[Hgo Hwin]|[Hgo Hwin]]) Hc Hs.
  - destruct (registerHit_consistent _ _ x y c Hcons Hc)
      as (nb & ns & r & Hrun & Hcons' & Hcase).
    rewrite (playerFire_live _ _ _ _ _ _ Hgo Hturn Hrun).
    eexists. split; [done|]. unfold player_leads. cbn.
    assert (r ≠ Miss) as Hr.
    { destruct Hcase as [(_ & _ & _ & ->)|[(_ & ? & _)|(_ & _ & i & s & Hi)]];
        [discriminate|congruence|].
      destruct Hi as (_ & _ & _ & _ & _ & ->). case_decide; discriminate. }
    split_and!.
    + done.
    + destruct (checkWin ns); [done|]. by rewrite decide_False.
    + destruct (checkWin ns); [right|left]; done.
    + by eapply registerHit_fired_kept.
    + destruct Hcase as [(Hh & -> & _)|[(_ & ? & _)|(_ & _ & i & s & Hi)]];
        [by eauto|congruence|].
      destruct Hi as (_ & _ & _ & -> & _). exists (fired c).
      rewrite getCell_setCell by eauto. by rewrite decide_True.
  - exists st. split_and!.
    + unfold playerFire. by rewrite Hgo.
    + split_and!; [done..|]. by right.
    + apply fired_kept_refl.
    + exists c. split; [done|].
      by apply (checkWin_consistent _ _ Hcons) with x y.
Qed.

Lemma playerFires_leads st shots :
  player_leads st →
  (∀ xy, xy ∈ shots → cellIs hasShip (cpuBoard st) xy = true) →
  ∃ st', playerFires st shots = Returned st' ∧ player_leads st' ∧
         fired_kept (cpuBoard st) (cpuBoard st') ∧
         ∀ xy, xy ∈ shots → cellIs hit (cpuBoard st') xy = true.
Proof.
  revert st. induction shots as [|[x y] shots IH]; intros st Hlead Hshots.
  { exists st. split_and!; [done..|apply fired_kept_refl|].
    by intros xy ?%elem_of_nil. }
  assert (cellIs hasShip (cpuBoard st) (x, y) = true) as Hxy
    by (apply Hshots; by left).
  unfold cellIs in Hxy. cbn [fst snd] in Hxy.
  destruct (getCell (cpuBoard st) x y) as [c|] eqn:Hc; [|done].
  destruct (playerFire_leads st x y c Hlead Hc Hxy)
    as (st1 & Hfire & Hlead1 & Hkept1 & c1 & Hc1 & Hh1).
  destruct (IH st1 Hlead1) as (st' & Hrun & Hlead' & Hkept' & Hfired).
  { intros [qx qy] Hq.
    assert ((qx, qy) ∈ (x, y) :: shots) as Hq' by (by right).
    specialize (Hshots (qx, qy) Hq').
    unfold cellIs in *. cbn [fst snd] in *.
    destruct (getCell (cpuBoard st) qx qy) as [cq|] eqn:Hcq; [|done].
    destruct (Hkept1 _ _ _ Hcq) as (cq' & -> & -> & _). done. }
  exists st'. unfold playerFires in *. cbn [loop_state]. rewrite Hfire.
  split_and!; [done|done|by eapply fired_kept_trans|].
  intros [qx qy] [?|Hq]%elem_of_cons; [|by apply Hfired].
  simplify_eq. unfold cellIs. cbn [fst snd].
  destruct (Hkept' _ _ _ Hc1) as (c' & -> & _ & _ & Hh). by apply Hh.
Qed.

(** A shot of the opponent while the opponent leads. *)
Lemma cpuFire_leads st r :
  cpu_leads st → in_range r →
  ∃ st', cpuFire st r = Returned st' ∧ cpu_leads st' ∧
         fired_kept (playerBoard st) (playerBoard st').
Proof.
  intros (Hcons & [[Hgo Hwin]|[Hgo Hwin]]) Hr.
  - pose proof (candidates_Returned _ (cons_board _ _ Hcons)) as Hcands.
    set (cands := cellsWhere (λ c, negb (hit c)) (playerBoard st)) in *.
    destruct (decide (cands = [])) as [Hnil|Hnil].
    { exists st. split_and!; [|split; [done|by left]|apply fired_kept_refl].
      unfold cpuFire. rewrite Hgo, Hcands. cbn.
      by rewrite bool_decide_eq_true_2. }
    destruct (index_in_range cands (floor_mul r (Z.of_nat (length cands))))
      as ([px py] & Hpick & Hin).
    { apply Hr. destruct cands; [done|]. cbn [length]. lia. }
    apply elem_of_cellsWhere in Hin as (c & Hc & _). cbn [fst snd] in Hc.
    destruct (registerHit_consistent _ _ px py c Hcons Hc)
      as (nb & ns & res & Hrun & Hcons' & _).
    rewrite (cpuFire_live _ _ _ _ _ _ _ _ Hgo Hcands Hpick Hrun).
    eexists. split; [done|]. unfold cpu_leads.
    cbn [playerBoard playerShips gameOver]. split_and!.
    + done.
    + destruct (checkWin ns); [right|left]; done.
    + by eapply registerHit_fired_kept.
  - exists st. split_and!; [|split; [done|by right]|apply fired_kept_refl].
    unfold cpuFire. by rewrite Hgo.
Qed.

Lemma cpuFires_leads st rs :
  cpu_leads st → Forall in_range rs →
  ∃ st', cpuFires st rs = Returned st' ∧ cpu_leads st' ∧
         fired_kept (playerBoard st) (playerBoard st').
Proof.
  intros Hlead Hrs. revert st Hlead.
  induction Hrs as [|r rs Hr _ IH]; intros st Hlead.
  { exists st. split_and!; [done..|apply fired_kept_refl]. }
  destruct (cpuFire_leads st r Hlead Hr) as (st1 & Hfire & Hlead1 & Hkept1).
  destruct (IH st1 Hlead1) as (st' & Hrun & Hlead' & Hkept').
  exists st'. unfold cpuFires in *. rewrite loop_state_cons, Hfire.
  split_and!; [done..|]. by eapply fired_kept_trans.
Qed.

(** A fleet as the generator returns it, with draws in range, is not
    destroyed. *)
Lemma placeShipsRandomly_not_won rand calls board ships calls' :
  (∀ k, in_range (rand k)) →
  placeShipsRandomly rand calls = Returned (board, ships, calls') →
  checkWin ships = false.
Proof.
  intros Hrand Hplaced.
  destruct (placeShipsRandomly_fresh _ _ _ _ _ Hplaced)
    as (Hcons & Hfresh & Hocc). specialize (Hocc Hrand).
  destruct (checkWin ships) eqn:Hwin; [exfalso|done].
  destruct (cellsWhere hasShip board) as [|xy l] eqn:Hcells; [done|].
  assert (xy ∈ cellsWhere hasShip board) as Hin
    by (rewrite Hcells; by left).
  apply elem_of_cellsWhere in Hin as (c & Hc & Hs & _).
  pose proof (proj1 (checkWin_consistent _ _ Hcons) Hwin _ _ c Hc Hs).
  by rewrite (Hfresh _ _ c Hc) in *.
Qed.

(** Once every occupied cell of the board a game started from is fired,
    the fleet is destroyed. *)
Lemma all_fired_checkWin b ships b' ships' :
  consistent b ships → consistent b' ships' → fired_kept b b' →
  (∀ xy, cellIs hasShip b xy = true → cellIs hit b' xy = true) →
  checkWin ships' = true.
Proof.
  intros Hcons Hcons' Hkept Hfired.
  apply (checkWin_consistent _ _ Hcons'). intros x y c' Hc' Hs'.
  assert (is_Some (getCell b x y)) as [c Hc].
  { apply (getCell_inBounds _ _ _ (cons_board _ _ Hcons)).
    apply (getCell_inBounds _ _ _ (cons_board _ _ Hcons')). eauto. }
  destruct (Hkept _ _ _ Hc) as (c'' & Hc'' & Hs'' & _).
  rewrite Hc' in Hc''. injection Hc'' as <-.
  specialize (Hfired (x, y)). unfold cellIs in Hfired. cbn [fst snd] in Hfired.
  rewrite Hc, Hc' in Hfired. apply Hfired. congruence.
Qed.

(** C6: a board and fleet that the generator returned, with draws in range.
    When they are the opponent's, in a live state in which the human player
    is to move, a run of clicks that covers the occupied cells of that
    board, and no other cell, in any order, returns a state in which the win
    check holds of the opponent's fleet and the game is over, won by the
    human player. When they are the human player's, in a live state, a run
    of shots of the opponent after which the occupied cells of that board,
    and no other cell, are fired returns a state in which the win check
    holds of the human player's fleet and the game is over, won by the
    opponent. *)
Theorem firing_at_every_ship_cell_wins rand calls board ships calls' :
  (∀ k, in_range (rand k)) →
  placeShipsRandomly rand calls = Returned (board, ships, calls') →
  (∀ st shots,
     cpuBoard st = board → cpuShips st = ships →
     gameOver st = None → playerTurn st = true →
     (∀ xy, xy ∈ shots ↔ cellIs hasShip board xy = true) →
     ∃ st', playerFires st shots = Returned st' ∧
            checkWin (cpuShips st') = true ∧
            gameOver st' = Some player) ∧
  (∀ st rs,
     playerBoard st = board → playerShips st = ships →
     gameOver st = None → Forall in_range rs →
     ∃ st', cpuFires st rs = Returned st' ∧
            ((∀ xy, cellIs hit (playerBoard st') xy = true ↔
                    cellIs hasShip board xy = true) →
             checkWin (playerShips st') = true ∧
             gameOver st' = Some cpu)).
Proof.
  intros Hrand Hplaced.
  pose proof (placeShipsRandomly_not_won _ _ _ _ _ Hrand Hplaced) as Hlive.
  destruct (placeShipsRandomly_fresh _ _ _ _ _ Hplaced) as (Hcons & _ & _).
  split.
  - intros st shots <- <- Hgo Hturn Hshots.
    assert (player_leads st) as Hlead.
    { split_and!; [done..|]. by left. }
    destruct (playerFires_leads st shots Hlead)
      as (st' & Hrun & (Hcons' & _ & Hover) & Hkept & Hfired).
    { intros xy. apply Hshots. }
    exists st'. split; [done|].
    assert (checkWin (cpuShips st') = true) as Hwin.
    { apply (all_fired_checkWin _ _ _ _ Hcons Hcons' Hkept).
      intros xy Hxy. by apply Hfired, Hshots. }
    split; [done|].
    destruct Hover as [[_ ?]|[? _]]; [congruence|done].
  - intros st rs <- <- Hgo Hrs.
    assert (cpu_leads st) as Hlead.
    { split; [done|]. by left. }
    destruct (cpuFires_leads st rs Hlead Hrs)
      as (st' & Hrun & (Hcons' & Hover) & Hkept).
    exists st'. split; [done|]. intros Hfired.
    assert (checkWin (playerShips st') = true) as Hwin.
    { apply (all_fired_checkWin _ _ _ _ Hcons Hcons' Hkept).
      intros xy Hxy. by apply Hfired. }
    split; [done|].
    destruct Hover as [[_ ?]|[? _]]; [congruence|done].
Qed.

Lemma firing_at_every_ship_cell_wins_witness :
  ∃ st', playerFires zerosGame [(2, 0); (0, 0); (3, 0); (1, 0)] = Returned st' ∧
         checkWin (cpuShips st') = true ∧
         gameOver st' = Some player.
Proof.
  assert (∃ calls', placeShipsRandomly zeros 0
                    = Returned (zerosBoard, zerosFleet, calls')) as [calls' Hplaced].
  { eexists. vm_compute. reflexivity. }
  assert (∀ k, in_range (zeros k)) as Hrand.
  { intros k. apply in_range_ratio. lia. }
  destruct (firing_at_every_ship_cell_wins zeros 0 _ _ _ Hrand Hplaced)
    as [Hplayer _].
  apply (Hplayer zerosGame).
  - reflexivity.
  - reflexivity.
  - reflexivity.
  - reflexivity.
  - intros xy. rewrite cellIs_cellsWhere.
    + change (cellsWhere hasShip zerosBoard)
        with [(0, 0); (1, 0); (2, 0); (3, 0)].
      rewrite !elem_of_cons, !elem_of_nil. tauto.
    + apply (bool_decide_unpack _). vm_compute. reflexivity.
Defined.

(** *** The resolver on a heap *)

Lemma cell_copy c : mkCell (hasShip c) (hit c) (shipId c) = c.
Proof. by destruct c. Qed.

Lemma alloc_prefix (h : heap) o : h `prefix_of` h ++ [o].
Proof. by apply prefix_app_r. Qed.

Lemma alloc_lookup (h : heap) o : (h ++ [o]) !! length h = Some o.
Proof. by apply list_lookup_middle. Qed.

Lemma cellAt_Returned (h : heap) a c :
  h !! a = Some (OCell c) → cellAt h a = Returned c.
Proof. unfold cellAt. by intros ->. Qed.

Lemma arrayAt_Returned (h : heap) a refs :
  h !! a = Some (OArray refs) → arrayAt h a = Returned refs.
Proof. unfold arrayAt. by intros ->. Qed.

Lemma cells_prefix (h h' : heap) cells row :
  h `prefix_of` h' →
  Forall2 (λ ca c, h !! ca = Some (OCell c)) cells row →
  Forall2 (λ ca c, h' !! ca = Some (OCell c)) cells row.
Proof.
  intros Hpre Hcells. eapply Forall2_impl; [done|]. intros ca c Hc.
  cbn in *. eapply prefix_lookup_Some; [exact Hc|exact Hpre].
Qed.

Lemma cloneCellH_Returned (h : heap) acc ca c :
  h !! ca = Some (OCell c) →
  cloneCellH (h, acc) ca = Returned (h ++ [OCell c], acc ++ [length h]).
Proof.
  intros Hca. unfold cloneCellH. rewrite (cellAt_Returned _ _ _ Hca).
  cbn. by rewrite cell_copy.
Qed.

Lemma cloneCells_spec (h : heap) cells row acc :
  Forall2 (λ ca c, h !! ca = Some (OCell c)) cells row →
  ∃ h' new,
    loop_state cloneCellH (h, acc) cells = Returned (h', acc ++ new) ∧
    h `prefix_of` h' ∧
    Forall2 (λ ca c, h' !! ca = Some (OCell c)) new row ∧
    Forall (λ a, length h ≤ a < length h')%nat new ∧
    NoDup new.
Proof.
  intros Hcells. revert cells h acc Hcells.
  induction row as [|c row IH]; intros cells h acc Hcells.
  { apply Forall2_nil_inv_r in Hcells as ->. exists h, [].
    rewrite app_nil_r. split_and!; [reflexivity|reflexivity|constructor..]. }
  apply Forall2_cons_inv_r in Hcells as (ca & cells' & Hca & Hcells & ->).
  rewrite loop_state_cons, (cloneCellH_Returned _ _ _ _ Hca).
  cbn [mbind outcome_bind].
  destruct (IH cells' (h ++ [OCell c]) (acc ++ [length h]))
    as (h' & new & Hrun & Hpre & Hnew & Hbounds & Hnd).
  { apply (cells_prefix h); [apply alloc_prefix|exact Hcells]. }
  rewrite length_app in Hbounds. cbn in Hbounds.
  exists h', (length h :: new). rewrite Hrun, <- app_assoc.
  split_and!; [done| | | |].
  - etrans; [apply alloc_prefix|done].
  - constructor; [|done].
    eapply prefix_lookup_Some; [apply alloc_lookup|done].
  - constructor.
    + apply prefix_length in Hpre. rewrite length_app in Hpre. cbn in Hpre. lia.
    + eapply Forall_impl; [done|]. cbn. lia.
  - constructor; [|done]. intros Hin.
    eapply (proj1 (Forall_forall _ _)) in Hbounds; [|done]. cbn in Hbounds. lia.
Qed.

Lemma rows_prefix (h h' : heap) rows (addrs : list (list nat)) :
  h `prefix_of` h' →
  Forall2 (λ r cells, h !! r = Some (OArray cells)) rows addrs →
  Forall2 (λ r cells, h' !! r = Some (OArray cells)) rows addrs.
Proof.
  intros Hpre Hrows. eapply Forall2_impl; [done|]. intros r cells Hr.
  cbn in *. eapply prefix_lookup_Some; [exact Hr|exact Hpre].
Qed.

Lemma grid_prefix (h h' : heap) (addrs : list (list nat)) (b : Board) :
  h `prefix_of` h' →
  Forall2 (Forall2 (λ ca c, h !! ca = Some (OCell c))) addrs b →
  Forall2 (Forall2 (λ ca c, h' !! ca = Some (OCell c))) addrs b.
Proof.
  intros Hpre Hgrid. eapply Forall2_impl; [done|]. intros cells row.
  by apply cells_prefix.
Qed.

Lemma cloneRowH_Returned (h : heap) acc r cells row :
  h !! r = Some (OArray cells) →
  Forall2 (λ ca c, h !! ca = Some (OCell c)) cells row →
  ∃ h1 new,
    cloneRowH (h, acc) r
      = Returned (h1 ++ [OArray new], acc ++ [length h1]) ∧
    h `prefix_of` h1 ∧
    Forall2 (λ ca c, h1 !! ca = Some (OCell c)) new row ∧
    Forall (λ a, length h ≤ a < length h1)%nat new ∧
    NoDup new.
Proof.
  intros Hr Hcells.
  destruct (cloneCells_spec h cells row [] Hcells)
    as (h1 & new & Hrun & Hpre & Hnew & Hbounds & Hnd).
  exists h1, new. unfold cloneRowH. rewrite (arrayAt_Returned _ _ _ Hr).
  cbn [mbind outcome_bind]. rewrite Hrun. by split_and!.
Qed.

Lemma cloneRows_spec (h : heap) rows (addrs : list (list nat)) (b : Board) acc :
  Forall2 (λ r cells, h !! r = Some (OArray cells)) rows addrs →
  Forall2 (Forall2 (λ ca c, h !! ca = Some (OCell c))) addrs b →
  ∃ h' newrows newaddrs,
    loop_state cloneRowH (h, acc) rows = Returned (h', acc ++ newrows) ∧
    h `prefix_of` h' ∧
    Forall2 (λ r cells, h' !! r = Some (OArray cells)) newrows newaddrs ∧
    Forall2 (Forall2 (λ ca c, h' !! ca = Some (OCell c))) newaddrs b ∧
    Forall (λ a, length h ≤ a < length h')%nat (concat newaddrs) ∧
    NoDup (concat newaddrs).
Proof.
  intros Hrows Hgrid. revert rows addrs h acc Hrows Hgrid.
  induction b as [|row b IH]; intros rows addrs h acc Hrows Hgrid.
  { apply Forall2_nil_inv_r in Hgrid as ->.
    apply Forall2_nil_inv_r in Hrows as ->. exists h, [], [].
    rewrite app_nil_r. split_and!; [reflexivity|reflexivity|constructor..]. }
  apply Forall2_cons_inv_r in Hgrid as (cells & addrs' & Hcells & Hgrid & ->).
  apply Forall2_cons_inv_r in Hrows as (r & rows' & Hr & Hrows & ->).
  destruct (cloneRowH_Returned h acc r cells row Hr Hcells)
    as (h1 & new & Hrow & Hpre1 & Hnew & Hbounds1 & Hnd1).
  rewrite loop_state_cons, Hrow. cbn [mbind outcome_bind].
  assert (h `prefix_of` h1 ++ [OArray new]) as Hpre2
    by (etrans; [done|apply alloc_prefix]).
  destruct (IH rows' addrs' (h1 ++ [OArray new]) (acc ++ [length h1]))
    as (h' & newrows & newaddrs & Hrun & Hpre & Hnewrows & Hnewgrid & Hbounds & Hnd).
  { by apply (rows_prefix h). }
  { by apply (grid_prefix h). }
  rewrite length_app in Hbounds. cbn [length] in Hbounds.
  pose proof (prefix_length _ _ Hpre) as Hlen. rewrite length_app in Hlen.
  cbn [length] in Hlen.
  pose proof (prefix_length _ _ Hpre1) as Hlen1.
  exists h', (length h1 :: newrows), (new :: newaddrs).
  rewrite Hrun, <- app_assoc. split_and!; [done| | | | |].
  - by etrans.
  - constructor; [|done].
    eapply prefix_lookup_Some; [apply alloc_lookup|done].
  - constructor; [|done].
    apply (cells_prefix h1); [|done]. etrans; [apply alloc_prefix|done].
  - cbn [concat]. apply Forall_app. split.
    + eapply Forall_impl; [done|]. cbn. lia.
    + eapply Forall_impl; [done|]. cbn. lia.
  - cbn [concat]. apply NoDup_app. split_and!; [done| |done].
    intros a Ha Ha'.
    eapply (proj1 (Forall_forall _ _)) in Hbounds1; [|done].
    eapply (proj1 (Forall_forall _ _)) in Hbounds; [|done].
    cbn in *. lia.
Qed.

Lemma cloneBoardH_spec (h : heap) a addrs b :
  board_at h a addrs b →
  ∃ h' a' addrs',
    cloneBoardH h a = Returned (h', a') ∧
    h `prefix_of` h' ∧ board_at h' a' addrs' b ∧
    Forall (λ x, length h ≤ x)%nat (concat addrs') ∧
    NoDup (concat addrs').
Proof.
  intros [(rows & Ha & Hrows) Hgrid].
  destruct (cloneRows_spec h rows addrs b [] Hrows Hgrid)
    as (h' & newrows & newaddrs & Hrun & Hpre & Hnewrows & Hnewgrid & Hbounds & Hnd).
  exists (h' ++ [OArray newrows]), (length h'), newaddrs.
  unfold cloneBoardH. rewrite (arrayAt_Returned _ _ _ Ha).
  cbn [mbind outcome_bind]. rewrite Hrun. cbn [mbind outcome_bind app].
  split_and!; [done| | | |done].
  - etrans; [done|apply alloc_prefix].
  - split.
    + exists newrows. split; [apply alloc_lookup|].
      apply (rows_prefix h'); [apply alloc_prefix|done].
    + apply (grid_prefix h'); [apply alloc_prefix|done].
  - eapply Forall_impl; [done|]. cbn. lia.
Qed.

Lemma concat_NoDup_lookup {A} (ll : list (list A)) i j i' j' l l' a :
  NoDup (concat ll) →
  ll !! i = Some l → l !! j = Some a →
  ll !! i' = Some l' → l' !! j' = Some a →
  i = i' ∧ j = j'.
Proof.
  revert i i'. induction ll as [|l0 ll IH]; intros i i' Hnd Hi Hj Hi' Hj'.
  { done. }
  cbn [concat] in Hnd. apply NoDup_app in Hnd as (Hnd0 & Hdisj & Hnd').
  assert (∀ k (m : list A) n, ll !! k = Some m → m !! n = Some a →
                             a ∈ concat ll) as Hin.
  { intros k m n Hk Hn. apply list_elem_of_In, in_concat. exists m.
    split; apply list_elem_of_In; by eapply list_elem_of_lookup_2. }
  destruct i as [|i], i' as [|i']; simplify_eq/=.
  - split; [done|]. by apply (NoDup_lookup _ j j' a Hnd0).
  - exfalso. eapply Hdisj; [by eapply list_elem_of_lookup_2|by eapply Hin].
  - exfalso. eapply Hdisj; [by eapply list_elem_of_lookup_2|by eapply Hin].
  - destruct (IH i i') as [-> ->]; done.
Qed.

Lemma prefix_insert_ge {A} (h h' : list A) a o :
  h `prefix_of` h' → (length h ≤ a)%nat → h `prefix_of` <[a := o]> h'.
Proof.
  intros [k ->] Ha. rewrite insert_app_r_alt by done. by apply prefix_app_r.
Qed.

Lemma board_at_prefix (h h' : heap) a addrs b :
  h `prefix_of` h' → board_at h a addrs b → board_at h' a addrs b.
Proof.
  intros Hpre [(rows & Ha & Hrows) Hgrid]. split.
  - exists rows. split; [by eapply prefix_lookup_Some|by apply (rows_prefix h)].
  - by apply (grid_prefix h).
Qed.

Lemma repr_board_prefix (h h' : heap) a b :
  h `prefix_of` h' → repr_board h a b → repr_board h' a b.
Proof. intros Hpre [addrs Hat]. exists addrs. by eapply board_at_prefix. Qed.

Lemma repr_fleet_prefix (h h' : heap) a ships :
  h `prefix_of` h' → repr_fleet h a ships → repr_fleet h' a ships.
Proof.
  intros Hpre (refs & Ha & Hrefs). exists refs.
  split; [by eapply prefix_lookup_Some|]. intros i. specialize (Hrefs i).
  destruct (refs !! i) as [sa|]; [|done]. destruct Hrefs as (s & Hs & ?).
  exists s. split; [by eapply prefix_lookup_Some|done].
Qed.

(** The cell object of one position. *)
Lemma board_at_cell (h : heap) a addrs (b : Board) x y c :
  board_at h a addrs b → getCell b x y = Some c →
  ∃ rows r cells ca,
    h !! a = Some (OArray rows) ∧ index rows y = Some r ∧
    h !! r = Some (OArray cells) ∧ index cells x = Some ca ∧
    h !! ca = Some (OCell c) ∧
    addrs !! Z.to_nat y = Some cells ∧ cells !! Z.to_nat x = Some ca.
Proof.
  intros [(rows & Ha & Hrows) Hgrid] (Hx & Hy & row & Hrow & Hc)%getCell_Some.
  destruct (Forall2_lookup_r _ _ _ _ _ Hgrid Hrow) as (cells & Hcells & Hrowc).
  destruct (Forall2_lookup_r _ _ _ _ _ Hrowc Hc) as (ca & Hca & Hcell).
  destruct (Forall2_lookup_r _ _ _ _ _ Hrows Hcells) as (r & Hr & Harr).
  exists rows, r, cells, ca. split_and!; try done; by apply index_Some.
Qed.

(** Writing to the cell object of one position changes the value of the
    board at that position only, when no two positions share an object. *)
Lemma board_at_write (h : heap) a addrs (b : Board) x y cells ca c' :
  board_at h a addrs b → NoDup (concat addrs) →
  addrs !! y = Some cells → cells !! x = Some ca →
  board_at (<[ca := OCell c']> h) a addrs
           (alter (λ row, <[x := c']> row) y b).
Proof.
  intros [(rows & Ha & Hrows) Hgrid] Hnd Hcells Hca.
  destruct (Forall2_lookup_l _ _ _ _ _ Hgrid Hcells) as (row & Hrow & Hrowc).
  destruct (Forall2_lookup_l _ _ _ _ _ Hrowc Hca) as (c & Hc & Hcell).
  cbn in Hcell.
  assert (∀ r refs, h !! r = Some (OArray refs) →
            <[ca := OCell c']> h !! r = Some (OArray refs)) as Harr.
  { intros r refs Hr. rewrite list_lookup_insert_ne; [done|]. congruence. }
  split.
  - exists rows. split; [by apply Harr|].
    eapply Forall2_impl; [done|]. intros r refs. apply Harr.
  - apply Forall2_same_length_lookup. split.
    { rewrite length_alter. by eapply Forall2_length. }
    intros i cells_i row_i Hi Hri.
    assert (∃ row0, b !! i = Some row0 ∧
              row_i = if decide (i = y) then <[x := c']> row0 else row0)
      as (row0 & Hrow0 & ->).
    { destruct (decide (i = y)) as [->|Hne].
      - rewrite list_lookup_alter_eq in Hri.
        destruct (b !! y) as [row0|]; simplify_eq/=. eauto.
      - rewrite list_lookup_alter_ne in Hri by done. eauto. }
    pose proof (Forall2_lookup_lr _ _ _ _ _ _ Hgrid Hi Hrow0) as Hrow0c.
    apply Forall2_same_length_lookup. split.
    { case_decide; [rewrite length_insert|]; by eapply Forall2_length. }
    intros j ca_ij c_ij Hj Hcj.
    destruct (decide (i = y ∧ j = x)) as [[-> ->]|Hne].
    + rewrite decide_True in Hcj by done.
      assert (x < length row0)%nat as Hlt.
      { rewrite <- (Forall2_length _ _ _ Hrow0c). by eapply lookup_lt_Some. }
      rewrite list_lookup_insert_eq in Hcj by done.
      rewrite Hcells in Hi. injection Hi as <-.
      rewrite Hca in Hj. injection Hj as <-. injection Hcj as <-.
      apply list_lookup_insert_eq. by eapply lookup_lt_Some.
    + assert (row0 !! j = Some c_ij) as Hc0.
      { case_decide as Hiy; [|done]. subst i.
        rewrite list_lookup_insert_ne in Hcj; [done|]. intros ->. tauto. }
      rewrite list_lookup_insert_ne.
      * eapply (Forall2_lookup_lr _ _ _ _ _ _ Hrow0c); done.
      * intros <-. apply Hne.
        by eapply (concat_NoDup_lookup addrs i j y x cells_i cells).
Qed.

Lemma setCell_alter (b : Board) x y c :
  setCell b x y c = alter (λ row, <[Z.to_nat x := c]> row) (Z.to_nat y) b.
Proof. done. Qed.

(** The resolver on the heap computes what the resolver on values
    computes, in new objects: the heap it was given is a prefix of the heap
    it returns. *)
Lemma registerHitH_refines (h : heap) ba sa b ships x y nb ns r :
  repr_board h ba b → repr_fleet h sa ships →
  registerHit b ships x y = Returned (nb, ns, r) →
  ∃ h' ba' sa',
    registerHitH h ba sa x y = Returned (h', ba', sa', r) ∧
    repr_board h' ba' nb ∧ repr_fleet h' sa' ns ∧
    h `prefix_of` h'.
Proof.
  intros [addrs Hat] Hfleet. unfold registerHit. rewrite cloneBoard_id.
  destruct (getCell b x y) as [c|] eqn:Hc; [|done].
  destruct (cloneBoardH_spec h ba addrs b Hat)
    as (h1 & ba1 & addrs1 & Hclone & Hpre1 & Hat1 & Hnew & Hnd).
  destruct (board_at_cell _ _ _ _ _ _ _ Hat1 Hc)
    as (rows & row & cells & ca & Hrows & Hrow & Hcells & Hca & Hcell & Hy & Hx).
  assert (length h ≤ ca)%nat as Hfresh.
  { eapply (proj1 (Forall_forall _ _)) in Hnew; [done|].
    apply list_elem_of_In, in_concat. exists cells.
    split; apply list_elem_of_In; by eapply list_elem_of_lookup_2. }
  unfold registerHitH. rewrite Hclone. cbn [mbind outcome_bind].
  rewrite (arrayAt_Returned _ _ _ Hrows). cbn [mbind outcome_bind].
  rewrite Hrow, (arrayAt_Returned _ _ _ Hcells). cbn [mbind outcome_bind].
  rewrite Hca, (cellAt_Returned _ _ _ Hcell). cbn [mbind outcome_bind].
  destruct (hit c) eqn:Hh.
  { intros ?; simplify_eq. eexists _, _, _. split_and!; [done| | |done].
    - by exists addrs1.
    - by eapply repr_fleet_prefix. }
  cbn [hasShip shipId].
  set (h2 := <[ca := OCell (mkCell (hasShip c) true (shipId c))]> h1).
  assert (h `prefix_of` h2) as Hpre2 by (by apply prefix_insert_ge).
  assert (board_at h2 ba1 addrs1 (setCell b x y (mkCell (hasShip c) true (shipId c))))
    as Hat2.
  { rewrite setCell_alter. by eapply board_at_write. }
  destruct (hasShip c && truthy (shipId c)) eqn:Hs.
  2:{ intros ?; simplify_eq. eexists _, _, _. split_and!; [done| | |done].
      - by exists addrs1.
      - by eapply repr_fleet_prefix. }
  pose proof (repr_fleet_prefix _ _ _ _ Hpre2 Hfleet) as (refs & Hrefs & Hships).
  unfold fleetAt. rewrite Hrefs. cbn [mbind outcome_bind].
  destruct (shipId c) as [i|]; [|by rewrite andb_false_r in Hs].
  cbn [mbind option_bind]. specialize (Hships i).
  destruct (ships !! i) as [s|] eqn:Hship; [|done].
  destruct (refs !! i) as [si|] eqn:Hsi; [|done].
  destruct Hships as (s' & Hs' & Heq). injection Heq as <-.
  unfold shipAt. rewrite Hs'. cbn [mbind outcome_bind alloc].
  cbn [Ship.id Ship.size Ship.hits].
  intros ?; simplify_eq. eexists _, _, _. split_and!; [done| | |].
  - exists addrs1. eapply board_at_prefix; [|done].
    etrans; apply alloc_prefix.
  - eexists. split; [apply alloc_lookup|]. intros j.
    rewrite !lookup_insert. case_decide.
    + eexists. split; [|done].
      eapply prefix_lookup_Some; [apply alloc_lookup|apply alloc_prefix].
    + assert (repr_fleet ((h2 ++ [OShip (Ship.mk (Ship.id s) (Ship.size s) (Ship.hits s + 1))])
                ++ [OFleet (<[Ship.id s := length h2]> refs)]) sa ships)
        as (refs' & Hrefs' & Hships').
      { eapply repr_fleet_prefix; [|done]. etrans; [done|].
        etrans; apply alloc_prefix. }
      assert (refs' = refs) as ->.
      { eapply prefix_lookup_Some in Hrefs; [|etrans; apply alloc_prefix].
        rewrite Hrefs in Hrefs'. by simplify_eq. }
      apply Hships'.
  - etrans; [done|]. etrans; apply alloc_prefix.
Qed.

(** C8: a shot at an in-bounds cell that was not fired at. The returned
    board has the fired cell at [(x, y)] and the cells of the given board
    everywhere else. The returned fleet is the given fleet when the cell is
    empty; when it is occupied, it differs from the given fleet in the
    record of the ship the cell refers to, and in no other. The call builds
    its results in new objects: every object of the heap it was given is
    the same after the call, and the given board and fleet still have their
    values. *)
Theorem registerHit_changes_one_cell (h : heap) ba sa b ships x y c :
  consistent b ships → repr_board h ba b → repr_fleet h sa ships →
  inBounds x y = true → getCell b x y = Some c → hit c = false →
  ∃ nb ns r h' ba' sa',
    registerHit b ships x y = Returned (nb, ns, r) ∧
    registerHitH h ba sa x y = Returned (h', ba', sa', r) ∧
    repr_board h' ba' nb ∧ repr_fleet h' sa' ns ∧
    (h `prefix_of` h' ∧ repr_board h' ba b ∧ repr_fleet h' sa ships) ∧
    (getCell nb x y = Some (fired c) ∧
     ∀ x' y', (x', y') ≠ (x, y) → getCell nb x' y' = getCell b x' y') ∧
    (hasShip c = false → ns = ships) ∧
    (hasShip c = true →
     ∃ i, shipId c = Some i ∧ ns !! i ≠ ships !! i ∧
          ∀ j, j ≠ i → ns !! j = ships !! j).
Proof.
  intros Hcons Hboard Hfleet _ Hc Hh.
  destruct (registerHit_consistent _ _ x y c Hcons Hc)
    as (nb & ns & r & Hrun & _ & Hcase).
  destruct (registerHitH_refines _ _ _ _ _ _ _ _ _ _ Hboard Hfleet Hrun)
    as (h' & ba' & sa' & HrunH & Hboard' & Hfleet' & Hpre).
  exists nb, ns, r, h', ba', sa'. split_and!; [done..| | | | | |].
  - by eapply repr_board_prefix.
  - by eapply repr_fleet_prefix.
  - destruct Hcase as [(? & _)|[(_ & _ & -> & _)|(_ & _ & i & s & Hi)]];
      [congruence| |destruct Hi as (_ & _ & _ & -> & _)];
      rewrite getCell_setCell by eauto; by rewrite decide_True.
  - intros x' y' Hne.
    destruct Hcase as [(? & _)|[(_ & _ & -> & _)|(_ & _ & i & s & Hi)]];
      [congruence| |destruct Hi as (_ & _ & _ & -> & _)];
      rewrite getCell_setCell by eauto; rewrite decide_False; try done;
      intros [-> ->]; by apply Hne.
  - intros Hs.
    destruct Hcase as [(? & _)|[(_ & _ & _ & -> & _)|(_ & ? & _)]]; congruence.
  - intros Hs.
    destruct Hcase as [(? & _)|[(_ & ? & _)|(_ & _ & i & s & Hi)]];
      [congruence..|].
    destruct Hi as (Hid & Hship & _ & _ & -> & _). exists i.
    split_and!; [done| |].
    + rewrite lookup_insert_eq, Hship. intros Heq. injection Heq as Heq.
      apply (f_equal Ship.hits) in Heq. cbn in Heq. lia.
    + intros j Hj. by rewrite lookup_insert_ne.
Qed.

Lemma repr_solo :
  repr_board soloHeap 0 soloBoard ∧ repr_fleet soloHeap 112 soloFleet.
Proof.
  split.
  - exists ((λ i, (λ j, 2 + 11 * i + j)%nat <$> seq 0 10) <$> seq 0 10).
    split.
    + exists ((λ i, 1 + 11 * i)%nat <$> seq 0 10).
      split; [reflexivity|]. repeat constructor.
    + repeat constructor.
  - exists {[1 := 111%nat]}. split; [reflexivity|]. intros i.
    unfold soloFleet. destruct (decide (i = 1)) as [->|].
    + rewrite !lookup_singleton_eq. by eexists.
    + by rewrite !lookup_singleton_ne.
Qed.

Lemma registerHit_changes_one_cell_witness :
  ∃ nb ns r h' ba' sa',
    registerHit soloBoard soloFleet 0 0 = Returned (nb, ns, r) ∧
    registerHitH soloHeap 0 112 0 0 = Returned (h', ba', sa', r) ∧
    repr_board h' ba' nb ∧ repr_fleet h' sa' ns ∧
    (soloHeap `prefix_of` h' ∧ repr_board h' 0 soloBoard ∧
     repr_fleet h' 112 soloFleet) ∧
    (getCell nb 0 0 = Some (fired (mkCell true false (Some 1))) ∧
     ∀ x' y', (x', y') ≠ (0, 0) → getCell nb x' y' = getCell soloBoard x' y') ∧
    (hasShip (mkCell true false (Some 1)) = false → ns = soloFleet) ∧
    (hasShip (mkCell true false (Some 1)) = true →
     ∃ i, shipId (mkCell true false (Some 1)) = Some i ∧
          ns !! i ≠ soloFleet !! i ∧
          ∀ j, j ≠ i → ns !! j = soloFleet !! j).
Proof.
  apply (registerHit_changes_one_cell soloHeap 0 112 soloBoard soloFleet 0 0
           (mkCell true false (Some 1))).
  - apply consistentb_sound. vm_compute. reflexivity.
  - apply repr_solo.
  - apply repr_solo.
  - reflexivity.
  - reflexivity.
  - reflexivity.
Defined.

(** ** Further properties of the engine *)

(** *** The shot resolver: errors, repeats, counts *)

(** X1: on a ten by ten board the resolver throws exactly when the
    coordinate is out of bounds. *)
Theorem registerHit_throws_out_of_bounds b ships x y :
  board_ok b →
  registerHit b ships x y = Thrown ↔ inBounds x y = false.
Proof.
  intros Hb. rewrite <- not_true_iff_false, <- (getCell_inBounds b x y Hb).
  unfold registerHit. rewrite cloneBoard_id.
  destruct (getCell b x y) as [c|] eqn:Hc.
  - split; [|intros []; eauto].
    destruct (hit c); [done|]. destruct (_ && _); [|done].
    by destruct (_ ≫= _).
  - split; [|done]. by intros _ [? ?].
Qed.

Lemma registerHit_throws_out_of_bounds_witness :
  registerHit createEmptyBoard ∅ 10 0 = Thrown ↔ inBounds 10 0 = false.
Proof.
  apply (registerHit_throws_out_of_bounds createEmptyBoard ∅ 10 0).
  apply (bool_decide_unpack _). vm_compute. reflexivity.
Defined.

(** X2: a second shot at the coordinate of a shot that returned is a
    repeat, and returns the board and the fleet of the first. *)
Theorem registerHit_twice b ships x y nb ns r :
  registerHit b ships x y = Returned (nb, ns, r) →
  registerHit nb ns x y = Returned (nb, ns, Repeat).
Proof.
  unfold registerHit at 1. rewrite cloneBoard_id.
  destruct (getCell b x y) as [c|] eqn:Hc; [|done].
  assert (∀ c', getCell (setCell b x y c') x y = Some c') as Hset.
  { intros c'. rewrite getCell_setCell by eauto. by rewrite decide_True. }
  destruct (hit c) eqn:Hh.
  { intros ?; simplify_eq. by apply (registerHit_repeat _ _ _ _ c). }
  destruct (_ && _).
  - destruct (_ ≫= _); [|done]. intros ?; simplify_eq.
    by eapply registerHit_repeat.
  - intros ?; simplify_eq. by eapply registerHit_repeat.
Qed.

Lemma registerHit_twice_witness :
  registerHit (setCell soloBoard 0 0 (mkCell true true (Some 1)))
              {[1 := Ship.mk 1 1 1]} 0 0
  = Returned (setCell soloBoard 0 0 (mkCell true true (Some 1)),
              {[1 := Ship.mk 1 1 1]}, Repeat).
Proof.
  apply (registerHit_twice soloBoard soloFleet 0 0 _ _ Sunk). reflexivity.
Defined.

(** The number of fired cells after a shot, from the cell that was
    fired at. *)
Lemma registerHit_count b ships x y c nb ns r :
  board_ok b → getCell b x y = Some c →
  registerHit b ships x y = Returned (nb, ns, r) →
  (r = Repeat ↔ hit c = true) ∧
  length (cellsWhere hit nb) =
    (length (cellsWhere hit b) + if hit c then 0 else 1)%nat.
Proof.
  intros Hb Hc. unfold registerHit. rewrite cloneBoard_id, Hc.
  destruct (hit c) eqn:Hh.
  { intros ?; simplify_eq. split; [done|lia]. }
  assert (length (cellsWhere hit (setCell b x y (fired c))) =
          (length (cellsWhere hit b) + 1)%nat) as Hnew.
  { rewrite (cellsWhere_setCell_new hit b x y c) by done. cbn. lia. }
  destruct (_ && _).
  - destruct (_ ≫= _); [|done]. intros ?; simplify_eq.
    split; [|done]. by case_match.
  - intros ?; simplify_eq. done.
Qed.

(** X3: a shot that returns adds one fired cell to the board, except
    for a repeat, which adds none. *)
Theorem registerHit_fired_count b ships x y nb ns r :
  board_ok b →
  registerHit b ships x y = Returned (nb, ns, r) →
  length (cellsWhere hit nb) =
    (length (cellsWhere hit b) + if decide (r = Repeat) then 0 else 1)%nat.
Proof.
  intros Hb Hrun.
  destruct (getCell b x y) as [c|] eqn:Hc;
    [|by rewrite registerHit_Thrown in Hrun].
  destruct (registerHit_count b ships x y c nb ns r Hb Hc Hrun) as [Hr ->].
  destruct (hit c).
  - by rewrite decide_True by (by apply Hr).
  - rewrite decide_False; [done|]. by intros ?%Hr.
Qed.

Lemma registerHit_fired_count_witness :
  length (cellsWhere hit (setCell soloBoard 0 0 (mkCell true true (Some 1)))) =
    (length (cellsWhere hit soloBoard) + if decide (Sunk = Repeat) then 0 else 1)%nat.
Proof.
  apply (registerHit_fired_count soloBoard soloFleet 0 0 _ {[1 := Ship.mk 1 1 1]}).
  - apply (bool_decide_unpack _). vm_compute. reflexivity.
  - reflexivity.
Defined.

(** *** The win check and the counters of ships left *)

Lemma remaining_list (l : list Ship.t) :
  length (filter (λ s, Ship.hits s < Ship.size s) l) = 0%nat ↔
  forallb (λ s, Ship.size s <=? Ship.hits s) l = true.
Proof.
  induction l as [|s l IH]; [done|].
  rewrite filter_cons. cbn [forallb]. rewrite andb_true_iff, <- IH.
  rewrite Z.leb_le. case_decide; cbn [length]; split; lia.
Qed.

Lemma remaining_insert ships i s s' :
  ships !! i = Some s →
  (remaining (<[i := s']> ships)
     + (if decide (Ship.hits s < Ship.size s)%Z then 1 else 0) =
   remaining ships
     + (if decide (Ship.hits s' < Ship.size s')%Z then 1 else 0))%nat.
Proof.
  intros Hi. unfold remaining.
  rewrite <- (map_to_list_delete ships i s Hi).
  rewrite <- (insert_delete_eq ships i s').
  rewrite map_to_list_insert by apply lookup_delete_eq.
  rewrite !fmap_cons, !filter_cons. cbn [snd].
  repeat case_decide; cbn [length]; lia.
Qed.

(** X4: the counter of ships left is zero exactly when the win check
    holds of the fleet. *)
Theorem remaining_zero_iff_checkWin ships :
  remaining ships = 0%nat ↔ checkWin ships = true.
Proof. apply remaining_list. Qed.

(** X5: a shot lowers the counter of ships left of a consistent side by
    one when its result is sunk, and leaves it as it is otherwise. *)
Theorem registerHit_remaining b ships x y nb ns r :
  consistent b ships →
  registerHit b ships x y = Returned (nb, ns, r) →
  remaining ships = (remaining ns + if decide (r = Sunk) then 1 else 0)%nat.
Proof.
  intros Hc Hrun.
  destruct (getCell b x y) as [c|] eqn:Hcell;
    [|by rewrite registerHit_Thrown in Hrun].
  destruct (registerHit_consistent b ships x y c Hc Hcell)
    as (nb' & ns' & r' & Hrun' & _ & Hcases).
  rewrite Hrun in Hrun'. simplify_eq.
  destruct Hcases as [(_ & _ & -> & ->)|[(_ & _ & _ & -> & ->)|
    (_ & _ & i & s & _ & Hi & Hlt & _ & -> & ->)]].
  - rewrite decide_False by done. lia.
  - rewrite decide_False by done. lia.
  - pose proof (remaining_insert ships i s
                  (Ship.mk i (Ship.size s) (Ship.hits s + 1)) Hi) as Hrem.
    rewrite decide_True in Hrem by done. cbn [Ship.hits Ship.size] in Hrem.
    destruct (decide (Ship.hits s + 1 = Ship.size s)).
    + rewrite decide_False in Hrem by lia. rewrite decide_True by done. lia.
    + rewrite decide_True in Hrem by lia. rewrite decide_False by done. lia.
Qed.

Lemma registerHit_remaining_witness :
  remaining soloFleet =
    Nat.add (remaining {[1 := Ship.mk 1 1 1]})
            (if decide (Sunk = Sunk) then 1%nat else 0%nat).
Proof.
  apply (registerHit_remaining soloBoard soloFleet 0 0
           (setCell soloBoard 0 0 (mkCell true true (Some 1)))).
  - apply consistentb_sound. vm_compute. reflexivity.
  - reflexivity.
Defined.

(** *** The firing handlers: what a call changes *)

(** What a call of [playerFire] that returns has done: nothing, or one
    resolved shot at the opponent's side. *)
Lemma playerFire_cases st x y st' :
  playerFire st x y = Returned st' →
  (st' = st ∧ (is_Some (gameOver st) ∨ playerTurn st = false)) ∨
  (gameOver st = None ∧ playerTurn st = true ∧
   ∃ nb ns r,
     registerHit (cpuBoard st) (cpuShips st) x y = Returned (nb, ns, r) ∧
     st' = {| playerBoard := playerBoard st; cpuBoard := nb;
              playerShips := playerShips st; cpuShips := ns;
              playerTurn := if checkWin ns then true
                            else if decide (r = Miss) then false else true;
              gameOver := if checkWin ns then Some player else None;
              cpuLastShot := cpuLastShot st;
              playerShots := playerShots st + 1;
              computerShots := computerShots st |}).
Proof.
  destruct (gameOver st) as [w|] eqn:Hgo.
  { unfold playerFire. rewrite Hgo. cbn. intros ?; simplify_eq.
    left. split; [done|]. left. eauto. }
  destruct (playerTurn st) eqn:Hturn.
  2:{ unfold playerFire. rewrite Hgo, Hturn. cbn. intros ?; simplify_eq.
      left. split; [done|by right]. }
  destruct (registerHit (cpuBoard st) (cpuShips st) x y)
    as [[[nb ns] r]| |] eqn:Hrun.
  - rewrite (playerFire_live st x y nb ns r Hgo Hturn Hrun).
    intros ?; simplify_eq. right. split_and!; [done..|]. by exists nb, ns, r.
  - unfold playerFire. by rewrite Hgo, Hturn, Hrun.
  - unfold playerFire. by rewrite Hgo, Hturn, Hrun.
Qed.

(** What a call of [cpuFire] that returns has done: nothing, or one
    resolved shot at a candidate. *)
Lemma cpuFire_cases st rnd st' :
  cpuFire st rnd = Returned st' →
  (st' = st ∧
   (is_Some (gameOver st) ∨ candidates (playerBoard st) = Returned [])) ∨
  (gameOver st = None ∧
   ∃ cands px py nb ns r,
     candidates (playerBoard st) = Returned cands ∧
     index cands (floor_mul rnd (Z.of_nat (length cands))) = Some (px, py) ∧
     registerHit (playerBoard st) (playerShips st) px py
       = Returned (nb, ns, r) ∧
     st' = {| playerBoard := nb; cpuBoard := cpuBoard st;
              playerShips := ns; cpuShips := cpuShips st;
              playerTurn := if checkWin ns then playerTurn st
                            else if decide (r = Miss) then true else false;
              gameOver := if checkWin ns then Some cpu else None;
              cpuLastShot := Some (px, py);
              playerShots := playerShots st;
              computerShots := computerShots st + 1 |}).
Proof.
  destruct (gameOver st) as [w|] eqn:Hgo.
  { unfold cpuFire. rewrite Hgo. cbn. intros ?; simplify_eq.
    left. split; [done|]. left. eauto. }
  destruct (candidates (playerBoard st)) as [cands| |] eqn:Hcands.
  2,3: unfold cpuFire; by rewrite Hgo, Hcands.
  destruct (decide (cands = [])) as [->|Hne].
  { unfold cpuFire. rewrite Hgo, Hcands. cbn. intros ?; simplify_eq.
    left. split; [done|by right]. }
  destruct (index cands (floor_mul rnd (Z.of_nat (length cands))))
    as [[px py]|] eqn:Hpick.
  2:{ unfold cpuFire. rewrite Hgo, Hcands. cbn.
      rewrite bool_decide_eq_false_2 by done. by rewrite Hpick. }
  destruct (registerHit (playerBoard st) (playerShips st) px py)
    as [[[nb ns] r]| |] eqn:Hrun.
  - rewrite (cpuFire_live st rnd cands px py nb ns r Hgo Hcands Hpick Hrun).
    intros ?; simplify_eq. right. split; [done|].
    by exists cands, px, py, nb, ns, r.
  - unfold cpuFire. rewrite Hgo, Hcands. cbn.
    rewrite bool_decide_eq_false_2 by done. by rewrite Hpick, Hrun.
  - unfold cpuFire. rewrite Hgo, Hcands. cbn.
    rewrite bool_decide_eq_false_2 by done. by rewrite Hpick, Hrun.
Qed.

(** X6: a click leaves the human player's own board and fleet, the
    opponent's shot counter and the marker of the opponent's last shot as
    they are. *)
Theorem playerFire_frame st x y st' :
  playerFire st x y = Returned st' →
  playerBoard st' = playerBoard st ∧ playerShips st' = playerShips st ∧
  computerShots st' = computerShots st ∧ cpuLastShot st' = cpuLastShot st.
Proof.
  intros [[-> _]|(_ & _ & nb & ns & r & _ & ->)]%playerFire_cases; done.
Qed.

Lemma playerFire_frame_witness :
  playerBoard (mkGame soloBoard (setCell soloBoard 1 1 (fired emptyCell))
                 soloFleet soloFleet false None None 1 0) = playerBoard soloGame ∧
  playerShips (mkGame soloBoard (setCell soloBoard 1 1 (fired emptyCell))
                 soloFleet soloFleet false None None 1 0) = playerShips soloGame ∧
  computerShots (mkGame soloBoard (setCell soloBoard 1 1 (fired emptyCell))
                 soloFleet soloFleet false None None 1 0) = computerShots soloGame ∧
  cpuLastShot (mkGame soloBoard (setCell soloBoard 1 1 (fired emptyCell))
                 soloFleet soloFleet false None None 1 0) = cpuLastShot soloGame.
Proof. apply (playerFire_frame soloGame 1 1). reflexivity. Defined.

(** X7: a shot of the opponent leaves the opponent's own board and fleet
    and the human player's shot counter as they are. *)
Theorem cpuFire_frame st r st' :
  cpuFire st r = Returned st' →
  cpuBoard st' = cpuBoard st ∧ cpuShips st' = cpuShips st ∧
  playerShots st' = playerShots st.
Proof.
  intros [[-> _]|(_ & cands & px & py & nb & ns & res & _ & _ & _ & ->)]
    %cpuFire_cases; done.
Qed.

Lemma cpuFire_frame_witness :
  cpuBoard (mkGame (setCell soloBoard 0 0 (mkCell true true (Some 1))) soloBoard
              {[1 := Ship.mk 1 1 1]} soloFleet true (Some cpu) (Some (0, 0)) 0 1)
    = cpuBoard soloGame ∧
  cpuShips (mkGame (setCell soloBoard 0 0 (mkCell true true (Some 1))) soloBoard
              {[1 := Ship.mk 1 1 1]} soloFleet true (Some cpu) (Some (0, 0)) 0 1)
    = cpuShips soloGame ∧
  playerShots (mkGame (setCell soloBoard 0 0 (mkCell true true (Some 1))) soloBoard
              {[1 := Ship.mk 1 1 1]} soloFleet true (Some cpu) (Some (0, 0)) 0 1)
    = playerShots soloGame.
Proof. apply (cpuFire_frame soloGame zeroDraw). vm_compute. reflexivity. Defined.

(** X8: from a live state whose player side is consistent and has a cell
    left to fire at, a shot of the opponent with a draw in range returns;
    the cell it fires at was not fired at before, is fired at after, and is
    the one marked as the last shot; every other cell is as it was, and
    the opponent's shot counter grows by one. *)
Theorem cpuFire_fires_new_cell st r :
  consistent (playerBoard st) (playerShips st) →
  gameOver st = None → in_range r →
  cellsWhere (λ c, negb (hit c)) (playerBoard st) ≠ [] →
  ∃ st' px py c,
    cpuFire st r = Returned st' ∧
    cpuLastShot st' = Some (px, py) ∧
    getCell (playerBoard st) px py = Some c ∧ hit c = false ∧
    getCell (playerBoard st') px py = Some (fired c) ∧
    (∀ x y, (x, y) ≠ (px, py) →
       getCell (playerBoard st') x y = getCell (playerBoard st) x y) ∧
    computerShots st' = computerShots st + 1.
Proof.
  intros Hcons Hgo Hr Hne.
  pose proof (candidates_Returned _ (cons_board _ _ Hcons)) as Hcands.
  set (cands := cellsWhere (λ c, negb (hit c)) (playerBoard st)) in *.
  destruct (index_in_range cands (floor_mul r (Z.of_nat (length cands))))
    as ([px py] & Hpick & Hin).
  { apply Hr. destruct cands; [done|]. cbn [length]. lia. }
  apply elem_of_cellsWhere in Hin as (c & Hc & Hh & _). cbn [fst snd] in Hc.
  apply negb_true_iff in Hh.
  destruct (registerHit_consistent _ _ px py c Hcons Hc)
    as (nb & ns & res & Hrun & _ & Hcases).
  assert (nb = setCell (playerBoard st) px py (fired c)) as ->.
  { destruct Hcases as [(? & _)|[(_ & _ & -> & _)|
      (_ & _ & i & s & _ & _ & _ & -> & _)]]; [congruence|done..]. }
  rewrite (cpuFire_live _ _ _ _ _ _ _ _ Hgo Hcands Hpick Hrun).
  eexists _, px, py, c. split; [done|].
  cbn [cpuLastShot playerBoard computerShots]. split_and!; [done..| | |done].
  - rewrite getCell_setCell by eauto. by rewrite decide_True.
  - intros x y Hxy. rewrite getCell_setCell by eauto.
    rewrite decide_False; [done|]. intros [-> ->]. done.
Qed.

Lemma cpuFire_fires_new_cell_witness :
  ∃ st' px py c,
    cpuFire soloGame zeroDraw = Returned st' ∧
    cpuLastShot st' = Some (px, py) ∧
    getCell (playerBoard soloGame) px py = Some c ∧ hit c = false ∧
    getCell (playerBoard st') px py = Some (fired c) ∧
    (∀ x y, (x, y) ≠ (px, py) →
       getCell (playerBoard st') x y = getCell (playerBoard soloGame) x y) ∧
    computerShots st' = computerShots soloGame + 1.
Proof.
  apply (cpuFire_fires_new_cell soloGame zeroDraw).
  - apply consistentb_sound. vm_compute. reflexivity.
  - reflexivity.
  - apply in_range_ratio. lia.
  - vm_compute. discriminate.
Defined.

(** X9: when every cell of the human player's board was fired at, a shot
    of the opponent does nothing. *)
Theorem cpuFire_no_candidates st r :
  board_ok (playerBoard st) →
  Forall (Forall (λ c, hit c = true)) (playerBoard st) →
  cpuFire st r = Returned st.
Proof.
  intros Hb Hall. unfold cpuFire. destruct (bool_decide _); [done|].
  rewrite (candidates_Returned _ Hb).
  rewrite (cellsWhere_ext _ (λ _, false) _ (playerBoard st)).
  { by rewrite cellsWhere_false. }
  intros xy _. unfold cellIs.
  destruct (getCell _ _ _) as [c|] eqn:Hc; [|done].
  apply getCell_Some in Hc as (_ & _ & row & Hrow & Hcell).
  rewrite Forall_lookup in Hall. specialize (Hall _ _ Hrow).
  rewrite Forall_lookup in Hall. by rewrite (Hall _ _ Hcell).
Qed.

Lemma cpuFire_no_candidates_witness :
  cpuFire (mkGame (replicate 10 (replicate 10 (mkCell false true None)))
                  createEmptyBoard ∅ ∅ false None None 0 100) zeroDraw
  = Returned (mkGame (replicate 10 (replicate 10 (mkCell false true None)))
                     createEmptyBoard ∅ ∅ false None None 0 100).
Proof.
  apply (cpuFire_no_candidates
           (mkGame (replicate 10 (replicate 10 (mkCell false true None)))
                   createEmptyBoard ∅ ∅ false None None 0 100) zeroDraw).
  - apply (bool_decide_unpack _). vm_compute. reflexivity.
  - apply (bool_decide_unpack _). vm_compute. reflexivity.
Defined.

(** X10: a click on a cell that was fired at, in a live state with the
    turn and a fleet that is not destroyed, is counted as a shot and
    changes nothing else: the boards, the fleets and the turn stay. *)
Theorem playerFire_repeat_counts st x y c :
  gameOver st = None → playerTurn st = true →
  getCell (cpuBoard st) x y = Some c → hit c = true →
  checkWin (cpuShips st) = false →
  playerFire st x y =
    Returned {| playerBoard := playerBoard st; cpuBoard := cpuBoard st;
                playerShips := playerShips st; cpuShips := cpuShips st;
                playerTurn := true; gameOver := None;
                cpuLastShot := cpuLastShot st;
                playerShots := playerShots st + 1;
                computerShots := computerShots st |}.
Proof.
  intros Hgo Hturn Hc Hh Hwin.
  rewrite (playerFire_live st x y _ _ _ Hgo Hturn
             (registerHit_repeat _ _ _ _ c Hc Hh)).
  rewrite Hwin. by rewrite decide_False.
Qed.

Lemma playerFire_repeat_counts_witness :
  playerFire (mkGame soloBoard (setCell soloBoard 1 1 (fired emptyCell))
                soloFleet soloFleet true None None 1 0) 1 1 =
    Returned (mkGame soloBoard (setCell soloBoard 1 1 (fired emptyCell))
                soloFleet soloFleet true None None 2 0).
Proof.
  apply (playerFire_repeat_counts
           (mkGame soloBoard (setCell soloBoard 1 1 (fired emptyCell))
              soloFleet soloFleet true None None 1 0) 1 1 (fired emptyCell));
    reflexivity.
Defined.

(** *** The fleet of a new game *)

(** The ships of a fleet that the generator returns: numbered from 1
    without a gap, stored under their own id, not hit, of a size of the
    configuration; and no cell of the board is fired at. *)
Lemma placeShipsRandomly_fleet rand calls b ships calls' :
  placeShipsRandomly rand calls = Returned (b, ships, calls') →
  (∀ i, is_Some (ships !! i) ↔ 1 ≤ i ≤ Z.of_nat (size ships)) ∧
  (∀ i s, ships !! i = Some s →
     Ship.id s = i ∧ Ship.hits s = 0 ∧ Ship.size s ∈ SHIP_SIZES) ∧
  cellsWhere hit b = [].
Proof.
  destruct (placeShipsRandomly_inv rand calls)
    as (b' & ships' & k & placed & -> & Hinv & Hsub).
  intros ?; simplify_eq.
  assert (size ships = length placed) as Hsize.
  { rewrite <- (pi_sizes _ _ Hinv). unfold fleetSizes. cbn [p_ships].
    by rewrite !length_fmap, length_map_to_list. }
  split_and!.
  - intros i. rewrite Hsize. split.
    + intros [s Hs]. pose proof (pi_ship _ _ Hinv i s Hs) as [Hi _].
      cbn [p_shipId] in Hi. lia.
    + intros Hi. apply (pi_dom _ _ Hinv). cbn [p_shipId]. lia.
  - intros i s Hs. pose proof (pi_ship _ _ Hinv i s Hs) as [_ Heq].
    cbn [p_board] in Heq. split_and!; [by rewrite Heq..|].
    eapply elem_of_sublist; [|apply Hsub].
    rewrite <- (pi_sizes _ _ Hinv). unfold fleetSizes. cbn [p_ships].
    apply list_elem_of_fmap. exists s. split; [done|].
    apply list_elem_of_fmap. exists (i, s). split; [done|].
    by apply elem_of_map_to_list.
  - rewrite (cellsWhere_ext _ (λ _, false) _ b); [apply cellsWhere_false|].
    intros xy _. unfold cellIs.
    destruct (getCell b xy.1 xy.2) as [c|] eqn:Hc; [|done].
    by destruct (pi_cell _ _ Hinv _ _ c Hc).
Qed.

Lemma SHIP_SIZES_range s : s ∈ SHIP_SIZES → 1 ≤ s ≤ 4.
Proof.
  unfold SHIP_SIZES. rewrite !elem_of_cons, elem_of_nil. lia.
Qed.

Lemma remaining_unhit ships :
  (∀ i s, ships !! i = Some s → Ship.hits s < Ship.size s) →
  remaining ships = size ships.
Proof.
  intros Hall. unfold remaining.
  rewrite <- length_map_to_list, <- (length_fmap snd). f_equal.
  assert (Forall (λ s, Ship.hits s < Ship.size s) (map_to_list ships).*2)
    as Hl.
  { apply Forall_forall. intros s ([i s'] & -> & Hin)%list_elem_of_fmap.
    apply elem_of_map_to_list in Hin. by eapply Hall. }
  induction Hl as [|s l Hs _ IH]; [done|].
  by rewrite filter_cons_True, IH.
Qed.

(** X11: the generator always returns, and the ships of its fleet are
    numbered 1, 2, ... without a gap, each stored under its own id, with
    no hit and a size between 1 and 4; no cell of its board is fired
    at. *)
Theorem placement_numbers_ships (rand : rng) (calls : nat) :
  ∃ board ships calls',
    placeShipsRandomly rand calls = Returned (board, ships, calls') ∧
    (∀ i, is_Some (ships !! i) ↔ 1 ≤ i ≤ Z.of_nat (size ships)) ∧
    (∀ i s, ships !! i = Some s →
       Ship.id s = i ∧ Ship.hits s = 0 ∧ 1 ≤ Ship.size s ≤ 4) ∧
    (∀ x y c, getCell board x y = Some c → hit c = false).
Proof.
  destruct (placeShipsRandomly_inv rand calls)
    as (b & ships & k & placed & Hrun & _).
  exists b, ships, k. split; [done|].
  destruct (placeShipsRandomly_fleet _ _ _ _ _ Hrun) as (Hdom & Hships & _).
  split_and!; [done| |].
  - intros i s Hs. destruct (Hships i s Hs) as (? & ? & ?%SHIP_SIZES_range).
    done.
  - by destruct (placeShipsRandomly_fresh _ _ _ _ _ Hrun) as (_ & ? & _).
Qed.

(** The fields that [newGame] sets to constants. *)
Lemma newGame_fields rand calls st st' calls' :
  newGame rand calls st = Returned (st', calls') →
  playerTurn st' = true ∧ gameOver st' = None ∧ cpuLastShot st' = None ∧
  playerShots st' = 0 ∧ computerShots st' = 0.
Proof.
  unfold newGame.
  generalize (placeShipsRandomly rand calls).
  generalize (placeShipsRandomly rand). intros place [[[pb ps] k]| |]; [|done..].
  cbn. destruct (place k) as [[[cb cs] k']| |] eqn:Hplace; [|done..].
  cbn. intros ?; simplify_eq. done.
Qed.

Lemma newGame_returns rand calls st :
  ∃ st' calls', newGame rand calls st = Returned (st', calls').
Proof.
  destruct (placeShipsRandomly_inv rand calls)
    as (pb & ps & k & placed & Hp & _).
  destruct (placeShipsRandomly_inv rand k)
    as (cb & cs & k' & placed' & Hc & _).
  unfold newGame.
  revert Hp Hc. generalize (placeShipsRandomly rand calls).
  generalize (placeShipsRandomly rand). intros place o -> Hc.
  cbn. rewrite Hc. cbn. eauto.
Qed.

(** X12: whatever the state and the draws, a new game is set up: the
    human player has the turn, nobody has won, no last shot is marked, both
    shot counters are zero, no cell of either board is fired at, and
    every ship of either fleet counts as left. *)
Theorem newGame_starts_fresh (rand : rng) (calls : nat) (st : game) :
  ∃ st' calls',
    newGame rand calls st = Returned (st', calls') ∧
    playerTurn st' = true ∧ gameOver st' = None ∧ cpuLastShot st' = None ∧
    playerShots st' = 0 ∧ computerShots st' = 0 ∧
    cellsWhere hit (playerBoard st') = [] ∧
    cellsWhere hit (cpuBoard st') = [] ∧
    totalPlayerRemaining st' = size (playerShips st') ∧
    totalCpuRemaining st' = size (cpuShips st').
Proof.
  destruct (newGame_returns rand calls st) as (st' & calls' & Hnew).
  exists st', calls'. split; [done|].
  destruct (newGame_fields _ _ _ _ _ Hnew) as (? & ? & ? & ? & ?).
  apply newGame_inv in Hnew as (k & Hp & Hc).
  destruct (placeShipsRandomly_fleet _ _ _ _ _ Hp) as (_ & Hps & ?).
  destruct (placeShipsRandomly_fleet _ _ _ _ _ Hc) as (_ & Hcs & ?).
  split_and!; [done..| |]; apply remaining_unhit; intros i s Hs.
  - destruct (Hps i s Hs) as (_ & -> & ?%SHIP_SIZES_range). lia.
  - destruct (Hcs i s Hs) as (_ & -> & ?%SHIP_SIZES_range). lia.
Qed.

(** *** States the component can reach *)

(** A shot at a side whose fleet is destroyed leaves the fleet as it
    is. *)
Lemma registerHit_destroyed_fleet b ships x y nb ns r :
  consistent b ships → checkWin ships = true →
  registerHit b ships x y = Returned (nb, ns, r) → ns = ships.
Proof.
  intros Hcons Hwin Hrun.
  destruct (getCell b x y) as [c|] eqn:Hcell;
    [|by rewrite registerHit_Thrown in Hrun].
  destruct (registerHit_consistent b ships x y c Hcons Hcell)
    as (nb' & ns' & r' & Hrun' & _ & Hcases).
  rewrite Hrun in Hrun'. simplify_eq.
  destruct Hcases as [(_ & _ & -> & _)|[(_ & _ & _ & -> & _)|
    (_ & _ & i & s & _ & Hi & Hlt & _)]]; [done..|].
  pose proof (proj1 (checkWin_true ships) Hwin i s Hi). lia.
Qed.

(** X13: in every state the component can reach, also through shots of
    timers that outlive their game, a game marked as won by the human
    player has the opponent's fleet destroyed, and a game marked as won by
    the opponent has the human player's fleet destroyed. *)
Theorem reachable_winner_has_won st :
  reachable st →
  (gameOver st = Some player → checkWin (cpuShips st) = true) ∧
  (gameOver st = Some cpu → checkWin (playerShips st) = true).
Proof.
  induction 1 as [|st st' Hreach [IHp IHc] Hstep]; [done|].
  destruct Hstep as [rand calls st st' calls' Hnew|st x y st' Hfire|
                     st ships r st' armed Hfire].
  - apply newGame_fields in Hnew as (_ & -> & _). done.
  - apply playerFire_cases in Hfire
      as [[-> _]|(_ & _ & nb & ns & res & _ & ->)]; [done|].
    cbn [gameOver cpuShips playerShips].
    destruct (checkWin ns); done.
  - apply cpuFireFrom_cases in Hfire
      as [(-> & _)|(_ & cands & px & py & nb & ns & res & _ & _ & Hrun & -> & _)];
      [done|].
    cbn [gameOver cpuShips playerShips].
    destruct (checkWin ns) eqn:Hwin; [done|]. split; [done|].
    intros Hgo. specialize (IHc Hgo).
    destruct (reachable_consistent st Hreach) as [Hcons _].
    rewrite (registerHit_destroyed_fleet _ _ _ _ _ _ _ Hcons IHc Hrun) in Hwin.
    congruence.
Qed.

Lemma reachable_winner_has_won_witness :
  (gameOver staleGame = Some player → checkWin (cpuShips staleGame) = true) ∧
  (gameOver staleGame = Some cpu → checkWin (playerShips staleGame) = true).
Proof.
  apply (reachable_winner_has_won staleGame).
  unfold staleGame. apply run_state_reachable.
Defined.

(** The state [staleGame] is won by the human player, who has sunk the
    four cells of the opponent's ship; a timer has fired since. *)
Lemma staleGame_cells :
  gameOver staleGame = Some player ∧
  cpuShips staleGame !! 1 = Some (Ship.mk 1 4 4) ∧
  playerTurn staleGame = false ∧ computerShots staleGame = 1.
Proof. split_and!; vm_compute; reflexivity. Qed.

(** X14: in every state the component can reach, the opponent's shot
    counter is the number of cells of the human player's board that were
    fired at, and the human player's shot counter is at least the number
    of cells of the opponent's board that were fired at. *)
Theorem reachable_shot_counters st :
  reachable st →
  computerShots st = Z.of_nat (length (cellsWhere hit (playerBoard st))) ∧
  Z.of_nat (length (cellsWhere hit (cpuBoard st))) ≤ playerShots st.
Proof.
  intros Hreach. pose proof (reachable_consistent st Hreach) as Hcons.
  induction Hreach as [|st st' Hreach IH Hstep].
  { rewrite (cellsWhere_ext hit (λ _, false) _ createEmptyBoard).
    { by rewrite cellsWhere_false. }
    intros xy _. unfold cellIs.
    destruct (getCell _ _ _) as [c|] eqn:Hc; [|done].
    by rewrite (getCell_empty _ _ _ Hc). }
  pose proof (reachable_consistent st Hreach) as [Hp Hc].
  destruct (IH (conj Hp Hc)) as [IHc IHp]. clear IH Hcons.
  destruct Hstep as [rand calls st st' calls' Hnew|st x y st' Hfire|
                     st ships r st' armed Hfire].
  - destruct (newGame_fields _ _ _ _ _ Hnew) as (_ & _ & _ & -> & ->).
    apply newGame_inv in Hnew as (k & Hpl & Hcp).
    destruct (placeShipsRandomly_fleet _ _ _ _ _ Hpl) as (_ & _ & ->).
    destruct (placeShipsRandomly_fleet _ _ _ _ _ Hcp) as (_ & _ & ->).
    done.
  - apply playerFire_cases in Hfire
      as [[-> _]|(_ & _ & nb & ns & res & Hrun & ->)]; [done|].
    cbn [computerShots playerShots playerBoard cpuBoard].
    split; [done|].
    destruct (getCell (cpuBoard st) x y) as [c|] eqn:Hcell;
      [|by rewrite registerHit_Thrown in Hrun].
    destruct (registerHit_count _ _ _ _ c _ _ _ (cons_board _ _ Hc) Hcell Hrun)
      as [_ ->].
    destruct (hit c); lia.
  - apply cpuFireFrom_cases in Hfire
      as [(-> & _)|
          (_ & cands & px & py & nb & ns & res & Hcands & Hpick & Hrun & -> & _)];
      [done|].
    cbn [computerShots playerShots playerBoard cpuBoard].
    split; [|done].
    rewrite (candidates_Returned _ (cons_board _ _ Hp)) in Hcands.
    injection Hcands as <-.
    apply index_Some in Hpick as [_ Hpick].
    apply list_elem_of_lookup_2 in Hpick.
    apply elem_of_cellsWhere in Hpick as (c & Hcell & Hh & _).
    cbn [fst snd] in Hcell. apply negb_true_iff in Hh.
    destruct (registerHit_count _ _ _ _ c _ _ _ (cons_board _ _ Hp) Hcell Hrun)
      as [_ ->].
    rewrite Hh. lia.
Qed.

Lemma reachable_shot_counters_witness :
  computerShots (mkGame createEmptyBoard
                   (setCell createEmptyBoard 0 0 (fired emptyCell))
                   ∅ ∅ true (Some player) None 1 0)
    = Z.of_nat (length (cellsWhere hit (playerBoard (mkGame createEmptyBoard
                   (setCell createEmptyBoard 0 0 (fired emptyCell))
                   ∅ ∅ true (Some player) None 1 0)))) ∧
  Z.of_nat (length (cellsWhere hit (cpuBoard (mkGame createEmptyBoard
                   (setCell createEmptyBoard 0 0 (fired emptyCell))
                   ∅ ∅ true (Some player) None 1 0))))
    ≤ playerShots (mkGame createEmptyBoard
                   (setCell createEmptyBoard 0 0 (fired emptyCell))
                   ∅ ∅ true (Some player) None 1 0).
Proof.
  apply reachable_shot_counters.
  apply (reachable_step initialGame); [apply reachable_initial|].
  apply (step_playerFire initialGame 0 0). reflexivity.
Defined.

(** *** Labels and the grid *)

Lemma small_cases x : 0 ≤ x < 10 →
  x = 0 ∨ x = 1 ∨ x = 2 ∨ x = 3 ∨ x = 4 ∨ x = 5 ∨ x = 6 ∨ x = 7 ∨ x = 8 ∨ x = 9.
Proof. lia. Qed.

(** X15: the labels tell the coordinates apart: two coordinates with
    columns 0 to 9, rows that are safe integers and the same label are
    the same. A column outside the board has no letter, and is labelled
    [undefined]. *)
Theorem coordLabel_tells_apart :
  (∀ x y x' y',
     0 ≤ x < BOARD_SIZE → 0 ≤ x' < BOARD_SIZE →
     safeInteger y → safeInteger y' →
     coordLabel x y = coordLabel x' y' → x = x' ∧ y = y') ∧
  (∀ x y, ¬ 0 ≤ x < BOARD_SIZE → safeInteger y →
     coordLabel x y = "undefined" +:+ pretty (y + 1)).
Proof.
  unfold BOARD_SIZE. split.
  - intros x y x' y' Hx Hx' _ _.
    assert (∀ a b : Z, pretty (a + 1) = pretty (b + 1) → a = b) as Hinj.
    { intros a b Hab%(inj pretty). lia. }
    apply small_cases in Hx, Hx'.
    destruct Hx as [->|[->|[->|[->|[->|[->|[->|[->|[->| ->]]]]]]]]];
    destruct Hx' as [->|[->|[->|[->|[->|[->|[->|[->|[->| ->]]]]]]]]];
    unfold coordLabel; cbn [charAt Z.ltb Z.compare Z.to_nat Pos.to_nat
      Pos.iter_op Init.Nat.add String.get String.append];
    intros Heq; injection Heq as Heq; try discriminate; auto.
  - intros x y Hx _. unfold coordLabel, charAt.
    destruct (x <? 0) eqn:Hneg; [done|]. apply Z.ltb_ge in Hneg.
    assert (∃ k, Z.to_nat x = (10 + k)%nat) as [k ->]
      by (exists (Z.to_nat x - 10)%nat; lia).
    done.
Qed.

Lemma coordLabel_tells_apart_witness :
  (2 = 2 ∧ 6 = 6) ∧ coordLabel 10 6 = "undefined" +:+ pretty (6 + 1).
Proof.
  assert (safeInteger 6) as Hsafe by (by vm_compute).
  split.
  - apply (proj1 coordLabel_tells_apart 2 6 2 6);
      [unfold BOARD_SIZE; lia|unfold BOARD_SIZE; lia|exact Hsafe|exact Hsafe|
       reflexivity].
  - apply (proj2 coordLabel_tells_apart 10 6); [unfold BOARD_SIZE; lia|exact Hsafe].
Defined.

Lemma coords_lookup x y :
  inBounds x y = true →
  coords !! Z.to_nat (y * BOARD_SIZE + x) = Some (x, y).
Proof.
  intros [Hx Hy]%inBounds_spec. unfold BOARD_SIZE in *.
  apply small_cases in Hx, Hy.
  destruct Hx as [->|[->|[->|[->|[->|[->|[->|[->|[->| ->]]]]]]]]];
  destruct Hy as [->|[->|[->|[->|[->|[->|[->|[->|[->| ->]]]]]]]]];
  vm_compute; reflexivity.
Qed.

Lemma gridCell_Returned b ships rev dis l ls x y :
  is_Some (getCell b x y) →
  ∃ btn, gridCell b ships rev dis l ls x y = Returned btn.
Proof. intros [c Hc]. unfold gridCell. rewrite Hc. eauto. Qed.

Lemma Grid_loop b ships rev dis l ls (cs : list Coord) acc res :
  loop_state (λ acc '(x, y),
      b ← gridCell b ships rev dis l ls x y; Returned (acc ++ [b])) acc cs
    = Returned res ↔
  ∃ bs, res = acc ++ bs ∧
        Forall2 (λ xy btn, gridCell b ships rev dis l ls xy.1 xy.2 = Returned btn)
                cs bs.
Proof.
  revert acc. induction cs as [|[x y] cs IH]; intros acc.
  { cbn. split.
    - intros ?; simplify_eq. exists []. by rewrite app_nil_r.
    - intros (bs & -> & ->%Forall2_nil_inv_l). by rewrite app_nil_r. }
  rewrite loop_state_cons, bind_Returned. split.
  - intros (acc' & Hcell & Hrest).
    apply bind_Returned in Hcell as (btn & Hbtn & ?). simplify_eq.
    apply IH in Hrest as (bs & -> & Hbs).
    exists (btn :: bs). rewrite <- app_assoc. split; [done|].
    by constructor.
  - intros (bs & -> & Hbs).
    apply Forall2_cons_inv_l in Hbs as (btn & bs' & Hbtn & Hbs' & ->).
    cbn [fst snd] in Hbtn. exists (acc ++ [btn]). split.
    + rewrite Hbtn. done.
    + apply IH. exists bs'. by rewrite <- app_assoc.
Qed.

Lemma Grid_Forall2 b ships rev dis l ls bs :
  Grid b ships rev dis l ls = Returned bs ↔
  Forall2 (λ xy btn, gridCell b ships rev dis l ls xy.1 xy.2 = Returned btn)
          coords bs.
Proof.
  unfold Grid. rewrite Grid_loop. split.
  - by intros (bs' & -> & ?).
  - intros ?. by exists bs.
Qed.

(** X16: on a ten by ten board the grid renders: it returns one button
    for each of the hundred cells, row by row, and the button of a cell
    carries the label of its coordinate. *)
Theorem Grid_renders_every_cell b ships rev dis l ls :
  board_ok b →
  ∃ bs, Grid b ships rev dis l ls = Returned bs ∧
        length bs = 100%nat ∧
        ∀ x y, inBounds x y = true →
          ∃ btn, bs !! Z.to_nat (y * BOARD_SIZE + x) = Some btn ∧
                 gridCell b ships rev dis l ls x y = Returned btn ∧
                 b_label btn = l +:+ " " +:+ coordLabel x y.
Proof.
  intros Hb.
  assert (∃ bs, Forall2 (λ xy btn,
            gridCell b ships rev dis l ls xy.1 xy.2 = Returned btn) coords bs)
    as [bs Hbs].
  { assert (Forall (λ xy : Coord, is_Some (getCell b xy.1 xy.2)) coords) as Hall.
    { apply Forall_forall. intros xy Hxy. by apply coords_getCell. }
    induction Hall as [|xy cs Hxy _ [bs IH]]; [by exists []|].
    destruct (gridCell_Returned b ships rev dis l ls _ _ Hxy) as [btn Hbtn].
    exists (btn :: bs). by constructor. }
  exists bs. split; [by apply Grid_Forall2|]. split.
  { by rewrite <- (Forall2_length _ _ _ Hbs). }
  intros x y Hxy.
  destruct (Forall2_lookup_l _ _ _ _ _ Hbs (coords_lookup x y Hxy))
    as (btn & Hlook & Hbtn).
  cbn [fst snd] in Hbtn. exists btn. split_and!; [done..|].
  unfold gridCell in Hbtn. destruct (getCell b x y); [|done].
  by simplify_eq.
Qed.

Lemma Grid_renders_every_cell_witness :
  ∃ bs, Grid soloBoard soloFleet true true "Board" None = Returned bs ∧
        length bs = 100%nat ∧
        ∀ x y, inBounds x y = true →
          ∃ btn, bs !! Z.to_nat (y * BOARD_SIZE + x) = Some btn ∧
                 gridCell soloBoard soloFleet true true "Board" None x y
                   = Returned btn ∧
                 b_label btn = "Board" +:+ " " +:+ coordLabel x y.
Proof.
  apply (Grid_renders_every_cell soloBoard soloFleet true true "Board" None).
  apply (bool_decide_unpack _). vm_compute. reflexivity.
Defined.

(** X17: a grid that does not reveal ships shows the same button for
    every cell that was not fired at, whatever the cell holds and
    whatever the fleet is. *)
Theorem Grid_hides_unfired_cells b ships b' ships' dis l ls x y c c' :
  getCell b x y = Some c → getCell b' x y = Some c' →
  hit c = false → hit c' = false →
  gridCell b ships false dis l ls x y = gridCell b' ships' false dis l ls x y.
Proof.
  intros Hc Hc' Hh Hh'. unfold gridCell, isShipSunk.
  rewrite Hc, Hc', Hh, Hh'. done.
Qed.

Lemma Grid_hides_unfired_cells_witness :
  gridCell soloBoard soloFleet false false "Board" None 0 0 =
  gridCell createEmptyBoard ∅ false false "Board" None 0 0.
Proof.
  apply (Grid_hides_unfired_cells soloBoard soloFleet createEmptyBoard ∅
           false "Board" None 0 0 (mkCell true false (Some 1)) emptyCell);
    reflexivity.
Defined.

(** The test of [Grid] for a sunk ship, on a consistent side: the cell was
    fired at and belongs to a ship all of whose cells were fired at. *)
Lemma isShipSunk_consistent b ships x y c :
  consistent b ships → getCell b x y = Some c →
  isShipSunk c ships = true ↔
  hit c = true ∧
  ∃ i, shipId c = Some i ∧
       ∀ xy, xy ∈ cellsWhere (ofShip i) b → cellIs hit b xy = true.
Proof.
  intros Hcons Hc. pose proof (cons_cell _ _ Hcons x y c Hc) as Hcell.
  unfold isShipSunk. destruct (hit c) eqn:Hh; cbn [andb].
  2:{ split; [done|]. by intros [? _]. }
  destruct (hasShip c) eqn:Hs; cbn [andb].
  2:{ split; [done|]. intros [_ (i & Hi & _)]. congruence. }
  destruct Hcell as (i & Hi & Hi0 & [s Hship]).
  rewrite Hi. cbn [truthy mbind option_bind]. rewrite Hship.
  rewrite (proj2 (Z.eqb_neq i 0) Hi0). cbn [negb andb].
  destruct (cons_ship _ _ Hcons i s Hship) as (_ & Hsize & Hhits).
  rewrite Z.leb_le, Hsize, Hhits.
  pose proof (cellsWhere_sub (firedOfShip i) (ofShip i) b) as [Hle Hall].
  { intros c'. unfold firedOfShip. by intros [? _]%andb_true_iff. }
  split.
  - intros Hge. split; [done|]. exists i. split; [done|].
    intros xy Hxy. assert (xy ∈ cellsWhere (firedOfShip i) b) as Hf
      by (apply Hall; [lia|done]).
    apply elem_of_cellsWhere in Hf as (c' & Hc' & Hf & _).
    unfold cellIs. rewrite Hc'.
    by apply andb_true_iff in Hf as [_ ?].
  - intros [_ (j & Hj & Hfired)]. simplify_eq.
    rewrite (cellsWhere_ext (firedOfShip j) (ofShip j) b b); [done|].
    intros xy Hxy. unfold cellIs.
    destruct (getCell b xy.1 xy.2) as [c'|] eqn:Hc'; [|done].
    unfold firedOfShip. destruct (ofShip j c') eqn:Hof; [|done].
    assert (xy ∈ cellsWhere (ofShip j) b) as Hin.
    { apply elem_of_cellsWhere. by exists c'. }
    apply Hfired in Hin. unfold cellIs in Hin. rewrite Hc' in Hin.
    by rewrite Hin.
Qed.

(** X18: on a consistent side the grid shows a cell in the class of a sunk
    ship exactly when the cell was fired at and belongs to a ship all of
    whose cells were fired at. *)
Theorem Grid_sunk_class b ships rev dis l ls x y c btn :
  consistent b ships → getCell b x y = Some c →
  gridCell b ships rev dis l ls x y = Returned btn →
  b_class btn = sunkClass ↔
  hit c = true ∧
  ∃ i, shipId c = Some i ∧
       ∀ xy, xy ∈ cellsWhere (ofShip i) b → cellIs hit b xy = true.
Proof.
  intros Hcons Hc Hbtn.
  rewrite <- (isShipSunk_consistent b ships x y c Hcons Hc).
  unfold gridCell in Hbtn. rewrite Hc in Hbtn. simplify_eq.
  cbn [b_class]. destruct (isShipSunk c ships); [done|].
  split; [|done].
  destruct (hit c && hasShip c); [discriminate|].
  destruct (hit c && negb (hasShip c)); [discriminate|].
  destruct (rev && hasShip c); discriminate.
Qed.

Lemma Grid_sunk_class_witness :
  b_class (mkButton "Board A1" sunkClass true "⨉" false) = sunkClass ↔
  hit (mkCell true true (Some 1)) = true ∧
  ∃ i, shipId (mkCell true true (Some 1)) = Some i ∧
       ∀ xy, xy ∈ cellsWhere (ofShip i)
                   (setCell soloBoard 0 0 (mkCell true true (Some 1))) →
             cellIs hit (setCell soloBoard 0 0 (mkCell true true (Some 1))) xy
               = true.
Proof.
  apply (Grid_sunk_class (setCell soloBoard 0 0 (mkCell true true (Some 1)))
           {[1 := Ship.mk 1 1 1]} true true "Board" None 0 0).
  - apply consistentb_sound. vm_compute. reflexivity.
  - reflexivity.
  - reflexivity.
Defined.

(** X19: a button of the opponent's grid that is enabled can be clicked:
    on a consistent side, the click at its coordinate returns, fires at a
    cell that was not fired at before, and is counted as one shot. *)
Theorem enabled_button_fires st l bs n x y btn :
  consistent (cpuBoard st) (cpuShips st) →
  cpuGrid st l = Returned bs →
  coords !! n = Some (x, y) → bs !! n = Some btn →
  b_disabled btn = false →
  ∃ st' c,
    playerFire st x y = Returned st' ∧
    getCell (cpuBoard st) x y = Some c ∧ hit c = false ∧
    getCell (cpuBoard st') x y = Some (fired c) ∧
    playerShots st' = playerShots st + 1.
Proof.
  intros Hcons Hgrid Hxy Hbtn Hen.
  unfold cpuGrid in Hgrid. rewrite Grid_Forall2 in Hgrid.
  destruct (Forall2_lookup_l _ _ _ _ _ Hgrid Hxy) as (btn' & Hbtn' & Hcell).
  rewrite Hbtn in Hbtn'. injection Hbtn' as <-. cbn [fst snd] in Hcell.
  unfold gridCell in Hcell.
  destruct (getCell (cpuBoard st) x y) as [c|] eqn:Hc; [|discriminate Hcell].
  injection Hcell as <-. cbn [b_disabled] in Hen.
  apply orb_false_iff in Hen as [Hdis Hh].
  apply orb_false_iff in Hdis as [Hturn Hgo].
  apply negb_false_iff in Hturn. apply bool_decide_eq_false in Hgo.
  assert (gameOver st = None) as Hgo'.
  { destruct (gameOver st); [|done]. destruct Hgo. eauto. }
  destruct (registerHit_consistent _ _ x y c Hcons Hc)
    as (nb & ns & res & Hrun & _ & Hcases).
  assert (nb = setCell (cpuBoard st) x y (fired c)) as ->.
  { destruct Hcases as [(? & _)|[(_ & _ & -> & _)|
      (_ & _ & i & s & _ & _ & _ & -> & _)]]; [congruence|done..]. }
  rewrite (playerFire_live st x y _ _ _ Hgo' Hturn Hrun).
  eexists _, c. split; [done|]. cbn [cpuBoard playerShots].
  split_and!; [done..| |done].
  rewrite getCell_setCell by eauto. by rewrite decide_True.
Qed.

Lemma enabled_button_fires_witness :
  ∃ st' c,
    playerFire soloGame 1 0 = Returned st' ∧
    getCell (cpuBoard soloGame) 1 0 = Some c ∧ hit c = false ∧
    getCell (cpuBoard st') 1 0 = Some (fired c) ∧
    playerShots st' = playerShots soloGame + 1.
Proof.
  assert (∃ bs, cpuGrid soloGame "Board" = Returned bs) as Hgrid.
  { eexists. vm_compute. reflexivity. }
  destruct Hgrid as [bs Hgrid].
  apply (enabled_button_fires soloGame "Board" bs 1 1 0
           (mkButton "Board B1" plainClass false "" false)).
  - apply consistentb_sound. vm_compute. reflexivity.
  - exact Hgrid.
  - reflexivity.
  - revert Hgrid. vm_compute. intros Hgrid. injection Hgrid as <-. reflexivity.
  - reflexivity.
Defined.

(** *** The placement test and the placement loop *)

(** X20: on a ten by ten board the placement test returns, and it
    returns true exactly when every cell of the ship is on the board and
    no cell of the board within one step of it, diagonals included, is
    occupied. *)
Theorem canPlaceShip_decides b x y size h :
  board_ok b →
  ∃ r, canPlaceShip b x y size h = Returned r ∧
       (r = true ↔
        ∀ xy, xy ∈ shipCells x y size h →
          inBounds xy.1 xy.2 = true ∧
          ∀ (q : Coord) c, getCell b q.1 q.2 = Some c → chebyshev xy q ≤ 1 →
                           hasShip c = false).
Proof.
  intros Hb. destruct (canPlaceShip_returns b x y size h Hb) as [r Hr].
  exists r. split; [done|]. split.
  { intros ->. by apply canPlaceShip_true. }
  intros Hfree. cut (canPlaceShip b x y size h = Returned true).
  { rewrite Hr. by intros [= ->]. }
  clear r Hr. apply loop_all_true, Forall_forall. intros i Hi.
  assert (shipCell x y h i ∈ shipCells x y size h) as Hcell.
  { apply elem_of_shipCells. exists i. split; [|done].
    apply elem_of_seqZ in Hi. lia. }
  apply Hfree in Hcell as [Hin Hnear].
  destruct (shipCell x y h i) as [cx cy]. cbn [fst snd] in Hin, Hnear.
  rewrite Hin. cbn [negb]. apply loop_all_true, Forall_forall.
  intros [dx dy] Hd%elem_of_offsets.
  destruct (inBounds (cx + dx) (cy + dy)) eqn:E; [|done].
  apply (getCell_inBounds _ _ _ Hb) in E as [c Hc]. rewrite Hc.
  rewrite (Hnear (cx + dx, cy + dy) c Hc); [done|].
  apply chebyshev_le_1. cbn [fst snd]. lia.
Qed.

Lemma canPlaceShip_decides_witness :
  ∃ r, canPlaceShip soloBoard 1 0 3 true = Returned r ∧
       (r = true ↔
        ∀ xy, xy ∈ shipCells 1 0 3 true →
          inBounds xy.1 xy.2 = true ∧
          ∀ (q : Coord) c, getCell soloBoard q.1 q.2 = Some c →
                           chebyshev xy q ≤ 1 → hasShip c = false).
Proof.
  apply (canPlaceShip_decides soloBoard 1 0 3 true).
  apply (bool_decide_unpack _). vm_compute. reflexivity.
Defined.

Lemma placeShip_calls st x y size h st' :
  placeShip st x y size h = Returned st' → p_calls st' = p_calls st.
Proof.
  unfold placeShip. intros (b & _ & ?)%bind_Returned. by simplify_eq.
Qed.

(** An attempt takes three draws. *)
Lemma attempts_calls rand size n st st' :
  attempts rand size n st = Returned st' →
  ∃ k, (k ≤ n)%nat ∧ (n ≠ 0 → k ≠ 0)%nat ∧
       p_calls st' = (p_calls st + 3 * k)%nat.
Proof.
  revert st. induction n as [|n IH]; intros st; cbn [attempts].
  { intros ?; simplify_eq. exists 0%nat. split_and!; [done..|lia]. }
  destruct (canPlaceShip _ _ _ _ _) as [[]| |]; [| |done..].
  - intros ->%placeShip_calls. cbn [p_calls]. exists 1%nat. lia.
  - intros (k & ? & _ & ->)%IH. cbn [p_calls]. exists (S k). lia.
Qed.

Lemma place_all_calls rand sizes st st' :
  loop_state (λ st size, attempts rand size 500 st) st sizes = Returned st' →
  ∃ k, (length sizes ≤ k ≤ 500 * length sizes)%nat ∧
       p_calls st' = (p_calls st + 3 * k)%nat.
Proof.
  revert st. induction sizes as [|size sizes IH]; intros st.
  { cbn. intros ?; simplify_eq. exists 0%nat. cbn. lia. }
  rewrite loop_state_cons.
  intros (st1 & (k1 & ? & Hk1 & Hst1)%attempts_calls & Hrest)%bind_Returned.
  apply IH in Hrest as (k & ? & ->). rewrite Hst1.
  exists (k1 + k)%nat. cbn [length]. lia.
Qed.

Lemma placeShipsRandomly_loop rand calls b ships calls' :
  placeShipsRandomly rand calls = Returned (b, ships, calls') →
  ∃ i, loop_state (λ st size, attempts rand size 500 st)
         (mkPlacing createEmptyBoard ∅ 1 calls) SHIP_SIZES
       = Returned (mkPlacing b ships i calls').
Proof.
  unfold placeShipsRandomly.
  intros ([b' s' i k] & Hloop & Heq)%bind_Returned.
  cbn [p_board p_ships p_calls] in Heq. injection Heq as -> -> ->. eauto.
Qed.

(** X21: the generator draws three random values for each attempt: when
    it has returned, it has made between 10 and 5000 attempts. *)
Theorem placement_draws (rand : rng) (calls : nat) :
  ∃ board ships calls' (k : Z),
    placeShipsRandomly rand calls = Returned (board, ships, calls') ∧
    Z.of_nat calls' = Z.of_nat calls + 3 * k ∧ 10 ≤ k ≤ 5000.
Proof.
  destruct (placeShipsRandomly_inv rand calls)
    as (b & ships & calls' & placed & Hrun & _).
  exists b, ships, calls'.
  destruct (placeShipsRandomly_loop _ _ _ _ _ Hrun) as [i Hloop].
  apply place_all_calls in Hloop as (k & Hk & Hcalls).
  exists (Z.of_nat k). split; [done|].
  cbn [p_calls] in Hcalls. unfold SHIP_SIZES in Hk. cbn [length] in Hk. lia.
Qed.

(** *** The shape of the ships *)

(** Placing a ship where [canPlaceShip] allows puts it on a segment and
    leaves the cells of the other ships as they are. *)
Lemma placeShip_straight st placed x y size h st' :
  placement_inv st placed → straight st → 0 ≤ size →
  canPlaceShip (p_board st) x y size h = Returned true →
  placeShip st x y size h = Returned st' →
  straight st'.
Proof.
  intros [Hb Hnext Hcell Hship Hdom Hsizes Hocc Hapart] Hstr Hsize Hcan.
  pose proof (canPlaceShip_true _ _ _ _ _ Hb Hcan) as Hchk.
  set (new := {| hasShip := true; hit := false; shipId := Some (p_shipId st) |}).
  set (cs := shipCells x y size h) in *.
  destruct (write_cells (p_board st) cs new Hb) as (b' & Hloop & Hb' & Hget).
  { intros xy Hxy. by apply Hchk. }
  unfold placeShip.
  rewrite (loop_state_fmap (shipCell x y h)
             (λ board '(cx, cy), writeCell board cx cy new)).
  fold (shipCells x y size h). fold cs. rewrite Hloop.
  cbn [mbind outcome_bind]. intros [= <-].
  assert (∀ xy : Coord, getCell b' xy.1 xy.2 =
            if decide (xy ∈ cs) then Some new else getCell (p_board st) xy.1 xy.2)
    as Hget'.
  { intros [qx qy]. apply Hget. }
  assert (∀ i xy, i ≠ p_shipId st →
            cellIs (ofShip i) b' xy = cellIs (ofShip i) (p_board st) xy) as Hold.
  { intros i xy Hi. unfold cellIs. rewrite Hget'. case_decide as Hxy; [|done].
    unfold ofShip, new. cbn [shipId]. rewrite bool_decide_eq_false_2 by congruence.
    destruct (getCell (p_board st) xy.1 xy.2) as [c|] eqn:Hc; [|done].
    symmetry. apply bool_decide_eq_false_2.
    destruct (Hchk xy Hxy) as [_ Hq].
    assert (hasShip c = false) as Hc'.
    { apply (Hq xy c Hc). unfold chebyshev. lia. }
    destruct (Hcell _ _ _ Hc) as [_ Hs]. rewrite Hc' in Hs. by rewrite Hs. }
  intros i s. cbn [p_ships p_board]. rewrite lookup_insert. case_decide as Hi.
  - intros [= <-]. subst i. exists x, y, h. cbn [Ship.size]. fold cs.
    intros xy. unfold cellIs. rewrite Hget'. case_decide as Hxy.
    + unfold ofShip, new. cbn [shipId]. by rewrite bool_decide_eq_true_2.
    + split; [|done].
      destruct (getCell (p_board st) xy.1 xy.2) as [c|] eqn:Hc; [|done].
      intros Hof%bool_decide_eq_true. exfalso.
      destruct (Hcell _ _ _ Hc) as [_ Hs]. destruct (hasShip c).
      * destruct Hs as (j & Hj & ?). rewrite Hj in Hof. simplify_eq. lia.
      * by rewrite Hs in Hof.
  - intros Hs. destruct (Hstr i s Hs) as (x0 & y0 & h0 & Hseg).
    exists x0, y0, h0. intros xy. rewrite Hold by done. apply Hseg.
Qed.

Lemma attempts_straight rand size n st placed st' :
  placement_inv st placed → straight st → 0 ≤ size →
  attempts rand size n st = Returned st' → straight st'.
Proof.
  intros Hinv Hstr Hsize. revert st Hinv Hstr.
  induction n as [|n IH]; intros [b s i k] Hinv Hstr; cbn [attempts].
  { by intros [= <-]. }
  cbn [p_calls p_board p_ships p_shipId].
  destruct (canPlaceShip _ _ _ _ _) as [[]| |] eqn:Hcan; [| |done..].
  - apply (placeShip_straight _ placed); [|done..].
    by eapply placement_inv_calls.
  - apply IH; [|done]. by eapply placement_inv_calls.
Qed.

Lemma place_all_straight rand sizes st placed st' :
  placement_inv st placed → straight st → Forall (λ s, 0 ≤ s) sizes →
  loop_state (λ st size, attempts rand size 500 st) st sizes = Returned st' →
  straight st'.
Proof.
  intros Hinv Hstr Hsizes. revert st placed Hinv Hstr.
  induction Hsizes as [|size sizes Hsize _ IH]; intros st placed Hinv Hstr.
  { cbn [loop_state]. by intros [= <-]. }
  rewrite loop_state_cons.
  destruct (attempts_inv rand size 500 st placed Hinv Hsize)
    as (st1 & Hfirst & Hinv1).
  rewrite Hfirst. cbn [mbind outcome_bind].
  pose proof (attempts_straight _ _ _ _ _ _ Hinv Hstr Hsize Hfirst) as Hstr1.
  destruct Hinv1 as [Hinv1|Hinv1]; by eapply IH.
Qed.

(** X23: for every sequence of draws the generator returns a board on
    which every ship of the fleet lies on a straight segment: its cells
    are the cells of a horizontal or vertical run of its size, all on the
    board. *)
Theorem placement_ships_straight (rand : rng) (calls : nat) :
  ∃ board ships calls',
    placeShipsRandomly rand calls = Returned (board, ships, calls') ∧
    ∀ i s, ships !! i = Some s →
      ∃ x y h,
        cellsWhere (ofShip i) board ≡ₚ shipCells x y (Ship.size s) h ∧
        ∀ xy, xy ∈ shipCells x y (Ship.size s) h → inBounds xy.1 xy.2 = true.
Proof.
  destruct (placeShipsRandomly_inv rand calls)
    as (b & ships & calls' & placed & Hrun & Hinv & _).
  exists b, ships, calls'. split; [done|].
  destruct (placeShipsRandomly_loop _ _ _ _ _ Hrun) as [j Hloop].
  assert (straight (mkPlacing b ships j calls')) as Hstr.
  { eapply (place_all_straight rand SHIP_SIZES _ []);
      [apply (placement_inv_init calls)| |
       unfold SHIP_SIZES; repeat constructor; lia|apply Hloop].
    intros i s. cbn [p_ships]. by rewrite lookup_empty. }
  intros i s Hs. destruct (Hstr i s Hs) as (x & y & h & Hseg).
  cbn [p_board] in Hseg. exists x, y, h.
  pose proof (pi_board _ _ Hinv) as Hb. cbn [p_board] in Hb.
  split.
  - apply NoDup_Permutation; [apply NoDup_cellsWhere|apply NoDup_shipCells|].
    intros xy. rewrite <- Hseg. symmetry. by apply cellIs_cellsWhere.
  - intros [cx cy] Hxy%Hseg. cbn [fst snd].
    apply (getCell_inBounds b); [done|].
    unfold cellIs in Hxy. cbn [fst snd] in Hxy.
    destruct (getCell b cx cy); [eauto|done].
Qed.

(** *** Copies and sharing on the heap *)

(** The copy that [cloneBoardH] builds: its board array and its cell
    objects are allocated by the call. *)
Lemma cloneBoardH_fresh (h : heap) a addrs b :
  board_at h a addrs b →
  ∃ h' a' addrs',
    cloneBoardH h a = Returned (h', a') ∧
    h `prefix_of` h' ∧ board_at h' a' addrs' b ∧
    (length h ≤ a' < length h')%nat ∧
    Forall (λ x, length h ≤ x)%nat (concat addrs') ∧
    NoDup (concat addrs').
Proof.
  intros [(rows & Ha & Hrows) Hgrid].
  destruct (cloneRows_spec h rows addrs b [] Hrows Hgrid)
    as (h' & newrows & newaddrs & Hrun & Hpre & Hnewrows & Hnewgrid & Hbounds & Hnd).
  exists (h' ++ [OArray newrows]), (length h'), newaddrs.
  unfold cloneBoardH. rewrite (arrayAt_Returned _ _ _ Ha).
  cbn [mbind outcome_bind]. rewrite Hrun. cbn [mbind outcome_bind app].
  split_and!; [done| | | | | |done].
  - etrans; [done|apply alloc_prefix].
  - split.
    + exists newrows. split; [apply alloc_lookup|].
      apply (rows_prefix h'); [apply alloc_prefix|done].
    + apply (grid_prefix h'); [apply alloc_prefix|done].
  - by apply prefix_length.
  - rewrite length_app. cbn [length]. lia.
  - eapply Forall_impl; [done|]. cbn. lia.
Qed.

(** X24: [cloneBoard] on the heap makes a deep copy: the call returns,
    the board it returns has the value of the given board, its array and
    all its cell objects are new and pairwise different, and every object
    of the given heap is left as it was, so that the given board has its
    value after the call. *)
Theorem cloneBoardH_deep_copy (h : heap) a b :
  repr_board h a b →
  ∃ h' a' addrs',
    cloneBoardH h a = Returned (h', a') ∧
    board_at h' a' addrs' (cloneBoard b) ∧
    (length h ≤ a')%nat ∧
    Forall (λ x, length h ≤ x)%nat (concat addrs') ∧
    NoDup (concat addrs') ∧
    h `prefix_of` h' ∧ repr_board h' a b.
Proof.
  intros [addrs Hat].
  destruct (cloneBoardH_fresh h a addrs b Hat)
    as (h' & a' & addrs' & Hrun & Hpre & Hat' & Ha' & Hnew & Hnd).
  exists h', a', addrs'. rewrite cloneBoard_id.
  split_and!; [done|done|lia|done|done|done|].
  exists addrs. by eapply board_at_prefix.
Qed.

Lemma cloneBoardH_deep_copy_witness :
  ∃ h' a' addrs',
    cloneBoardH soloHeap 0 = Returned (h', a') ∧
    board_at h' a' addrs' (cloneBoard soloBoard) ∧
    (length soloHeap ≤ a')%nat ∧
    Forall (λ x, length soloHeap ≤ x)%nat (concat addrs') ∧
    NoDup (concat addrs') ∧
    soloHeap `prefix_of` h' ∧ repr_board h' 0 soloBoard.
Proof.
  apply (cloneBoardH_deep_copy soloHeap 0 soloBoard). apply repr_solo.
Defined.

(** X25: what the resolver shares with its caller. The board it returns
    is always a new array, also for a repeat. The fleet it returns is the
    caller's fleet object itself for a repeat and for a miss, and a new
    object for a hit and for a sunk ship. *)
Theorem registerHitH_sharing (h : heap) ba sa b x y h' ba' sa' r :
  repr_board h ba b →
  registerHitH h ba sa x y = Returned (h', ba', sa', r) →
  (length h ≤ ba')%nat ∧
  if decide (r = Repeat ∨ r = Miss) then sa' = sa else (length h ≤ sa')%nat.
Proof.
  intros [addrs Hat].
  destruct (cloneBoardH_fresh h ba addrs b Hat)
    as (h1 & ba1 & addrs1 & Hclone & Hpre & _ & Hba1 & _ & _).
  apply prefix_length in Hpre.
  unfold registerHitH. rewrite Hclone. cbn [mbind outcome_bind].
  destruct (arrayAt h1 ba1) as [rows| |]; cbn [mbind outcome_bind]; [|done..].
  destruct (index rows y) as [row|]; [|done].
  destruct (arrayAt h1 row) as [cells| |]; cbn [mbind outcome_bind]; [|done..].
  destruct (index cells x) as [ca|]; [|done].
  destruct (cellAt h1 ca) as [cell| |]; cbn [mbind outcome_bind]; [|done..].
  destruct (hit cell).
  { intros [= <- <- <- <-]. rewrite decide_True by auto. split; [lia|done]. }
  destruct (_ && _).
  2:{ intros [= <- <- <- <-]. rewrite decide_True by auto. split; [lia|done]. }
  destruct (fleetAt _ sa) as [refs| |]; cbn [mbind outcome_bind]; [|done..].
  destruct (_ ≫= _) as [si|]; [|done].
  destruct (shipAt _ si) as [s| |]; cbn [mbind outcome_bind alloc]; [|done..].
  intros [= <- <- <- <-]. split; [lia|].
  rewrite decide_False by (intros [?|?]; by case_match).
  rewrite !length_app, length_insert. cbn [length]. lia.
Qed.

Lemma registerHitH_sharing_witness :
  ∃ h' ba' sa' r,
    registerHitH soloHeap 0 112 0 0 = Returned (h', ba', sa', r) ∧
    (length soloHeap ≤ ba')%nat ∧
    if decide (r = Repeat ∨ r = Miss) then sa' = 112%nat
    else (length soloHeap ≤ sa')%nat.
Proof.
  assert (∃ h' ba' sa' r,
            registerHitH soloHeap 0 112 0 0 = Returned (h', ba', sa', r))
    as (h' & ba' & sa' & r & Hrun).
  { eexists _, _, _, _. vm_compute. reflexivity. }
  exists h', ba', sa', r. split; [exact Hrun|].
  apply (registerHitH_sharing soloHeap 0 112 soloBoard 0 0 h' ba' sa' r).
  - apply repr_solo.
  - exact Hrun.
Defined.

(** *** Two shots in either order *)

(** Two ten by ten boards with the same cells are the same. *)
Lemma board_ext b b' :
  board_ok b → board_ok b' →
  (∀ x y, getCell b x y = getCell b' x y) → b = b'.
Proof.
  intros [Hl Hrows] [Hl' Hrows'] Hget. apply list_eq. intros i.
  destruct (b !! i) as [row|] eqn:Hi.
  2:{ symmetry. apply lookup_ge_None. apply lookup_ge_None in Hi. lia. }
  destruct (b' !! i) as [row'|] eqn:Hi'.
  2:{ apply lookup_lt_Some in Hi. apply lookup_ge_None in Hi'. lia. }
  f_equal. apply list_eq. intros j.
  specialize (Hget (Z.of_nat j) (Z.of_nat i)). unfold getCell, index in Hget.
  rewrite !(proj2 (Z.ltb_ge _ _)), !Nat2Z.id, Hi, Hi' in Hget by lia.
  done.
Qed.

Lemma fired_fired c : hit c = true → fired c = c.
Proof. destruct c. cbn. by intros ->. Qed.

(** A shot on a consistent side, in one formula for all results. *)
Lemma registerHit_shape b ships x y nb ns r :
  consistent b ships →
  registerHit b ships x y = Returned (nb, ns, r) →
  ∃ c, getCell b x y = Some c ∧
       (∀ x' y', getCell nb x' y' =
          if decide (x' = x ∧ y' = y) then Some (fired c) else getCell b x' y') ∧
       consistent nb ns ∧
       (∀ i, is_Some (ns !! i) ↔ is_Some (ships !! i)) ∧
       (r = Repeat ↔ hit c = true) ∧
       (r = Miss ↔ hit c = false ∧ hasShip c = false).
Proof.
  intros Hcons Hrun.
  destruct (getCell b x y) as [c|] eqn:Hc;
    [|by rewrite registerHit_Thrown in Hrun].
  destruct (registerHit_consistent b ships x y c Hcons Hc)
    as (nb' & ns' & r' & Hrun' & Hcons' & Hcases).
  rewrite Hrun in Hrun'. simplify_eq. exists c. split; [done|].
  assert (∀ x' y', getCell (setCell b x y (fired c)) x' y' =
            if decide (x' = x ∧ y' = y) then Some (fired c) else getCell b x' y')
    as Hset by (intros; apply getCell_setCell; eauto).
  destruct Hcases as [(Hh & -> & -> & ->)|[(Hh & Hs & -> & -> & ->)|
    (Hh & Hs & i & s & Hi & Hship & Hlt & -> & -> & ->)]].
  - split_and!; [|done|done| |].
    + intros x' y'. case_decide as Hxy; [|done].
      destruct Hxy as [-> ->]. by rewrite fired_fired.
    + done.
    + split; [done|]. intros [? _]. congruence.
  - split_and!; [done|done|done| |done].
    split; [done|congruence].
  - split_and!; [done|done| | |].
    + intros j. rewrite lookup_insert.
      destruct (decide (i = j)) as [<-|]; [|done]. split; eauto.
    + split; [by case_decide|congruence].
    + split; [by case_decide|]. intros [_ ?]. congruence.
Qed.

(** On a board, the records of a consistent fleet are determined by the
    ids of its ships. *)
Lemma consistent_fleet_unique b s s' :
  consistent b s → consistent b s' →
  (∀ i, is_Some (s !! i) ↔ is_Some (s' !! i)) → s = s'.
Proof.
  intros Hc Hc' Hdom. apply map_eq. intros i.
  destruct (s !! i) as [v|] eqn:Hv.
  - destruct (proj1 (Hdom i)) as [v' Hv']; [by rewrite Hv; eauto|].
    rewrite Hv'. f_equal.
    destruct (cons_ship _ _ Hc i v Hv) as (? & ? & ?).
    destruct (cons_ship _ _ Hc' i v' Hv') as (? & ? & ?).
    destruct v, v'. cbn in *. congruence.
  - destruct (s' !! i) as [v'|] eqn:Hv'; [|done].
    destruct (proj2 (Hdom i)) as [v Hv'']; [by rewrite Hv'; eauto|].
    congruence.
Qed.

(** X26: two shots at different coordinates of a consistent side can be
    swapped: fired in the other order they return as well, and end with
    the same board and the same fleet; each of the two is a repeat, or a
    miss, in one order exactly when it is in the other. *)
Theorem registerHit_commutes b ships x1 y1 x2 y2 b1 s1 r1 b2 s2 r2 :
  consistent b ships → (x1, y1) ≠ (x2, y2) →
  registerHit b ships x1 y1 = Returned (b1, s1, r1) →
  registerHit b1 s1 x2 y2 = Returned (b2, s2, r2) →
  ∃ b1' s1' r2' r1',
    registerHit b ships x2 y2 = Returned (b1', s1', r2') ∧
    registerHit b1' s1' x1 y1 = Returned (b2, s2, r1') ∧
    (r1 = Repeat ↔ r1' = Repeat) ∧ (r1 = Miss ↔ r1' = Miss) ∧
    (r2 = Repeat ↔ r2' = Repeat) ∧ (r2 = Miss ↔ r2' = Miss).
Proof.
  intros Hcons Hne Hrun1 Hrun2.
  destruct (registerHit_shape _ _ _ _ _ _ _ Hcons Hrun1)
    as (c1 & Hc1 & Hb1 & Hcons1 & Hdom1 & Hrep1 & Hmiss1).
  destruct (registerHit_shape _ _ _ _ _ _ _ Hcons1 Hrun2)
    as (c2 & Hc2 & Hb2 & Hcons2 & Hdom2 & Hrep2 & Hmiss2).
  assert (¬ (x2 = x1 ∧ y2 = y1)) as Hne21 by (intros [-> ->]; done).
  assert (¬ (x1 = x2 ∧ y1 = y2)) as Hne12 by (intros [-> ->]; done).
  rewrite Hb1, decide_False in Hc2 by done.
  destruct (registerHit_consistent b ships x2 y2 c2 Hcons Hc2)
    as (b1' & s1' & r2' & Hrun2' & _ & _).
  destruct (registerHit_shape _ _ _ _ _ _ _ Hcons Hrun2')
    as (c2' & Hc2' & Hb1' & Hcons1' & Hdom1' & Hrep2' & Hmiss2').
  rewrite Hc2 in Hc2'. injection Hc2' as <-.
  assert (getCell b1' x1 y1 = Some c1) as Hc1'.
  { by rewrite Hb1', decide_False. }
  destruct (registerHit_consistent b1' s1' x1 y1 c1 Hcons1' Hc1')
    as (b2' & s2' & r1' & Hrun1' & _ & _).
  destruct (registerHit_shape _ _ _ _ _ _ _ Hcons1' Hrun1')
    as (c1'' & Hc1'' & Hb2' & Hcons2' & Hdom2' & Hrep1' & Hmiss1').
  rewrite Hc1' in Hc1''. injection Hc1'' as <-.
  assert (b2' = b2) as ->.
  { apply board_ext; [apply Hcons2'|apply Hcons2|]. intros x y.
    rewrite Hb2', Hb1', Hb2, Hb1.
    repeat case_decide; destruct_and?; simplify_eq; done. }
  assert (s2' = s2) as ->.
  { apply (consistent_fleet_unique b2); [done..|]. intros i.
    by rewrite Hdom2', Hdom1', Hdom2, Hdom1. }
  exists b1', s1', r2', r1'. split_and!; [done..| | | |].
  - by rewrite Hrep1, Hrep1'.
  - by rewrite Hmiss1, Hmiss1'.
  - by rewrite Hrep2, Hrep2'.
  - by rewrite Hmiss2, Hmiss2'.
Qed.

Lemma registerHit_commutes_witness :
  ∃ b1' s1' r2' r1',
    registerHit zerosBoard zerosFleet 1 0 = Returned (b1', s1', r2') ∧
    registerHit b1' s1' 0 0
      = Returned (setCell (setCell zerosBoard 0 0 (mkCell true true (Some 1)))
                    1 0 (mkCell true true (Some 1)),
                  {[1 := Ship.mk 1 4 2]}, r1') ∧
    (Hit = Repeat ↔ r1' = Repeat) ∧ (Hit = Miss ↔ r1' = Miss) ∧
    (Hit = Repeat ↔ r2' = Repeat) ∧ (Hit = Miss ↔ r2' = Miss).
Proof.
  apply (registerHit_commutes zerosBoard zerosFleet 0 0 1 0
           (setCell zerosBoard 0 0 (mkCell true true (Some 1)))
           {[1 := Ship.mk 1 4 1]}).
  - apply consistentb_sound. vm_compute. reflexivity.
  - discriminate.
  - vm_compute. reflexivity.
  - vm_compute. reflexivity.
Defined.

(** *** The opponent left to itself *)

(** The fired and the unfired cells of a board are its hundred cells. *)
Lemma unfired_count b :
  board_ok b →
  (length (cellsWhere hit b) + length (cellsWhere (λ c, negb (hit c)) b)
   = 100)%nat.
Proof.
  intros Hb. unfold cellsWhere.
  rewrite (filter_ext_elem (λ xy, cellIs (λ c, negb (hit c)) b xy)
             (λ xy, ¬ cellIs hit b xy) coords).
  - rewrite <- length_app, filter_app_complement. done.
  - intros xy [c Hc]%(coords_getCell b xy Hb). unfold cellIs. rewrite Hc.
    destruct (hit c); cbn; naive_solver.
Qed.

(** In a live state that the opponent leads, a cell is left to fire
    at. *)
Lemma cpu_leads_unfired st :
  cpu_leads st → gameOver st = None →
  cellsWhere (λ c, negb (hit c)) (playerBoard st) ≠ [].
Proof.
  intros (Hcons & [[_ Hwin]|[? _]]) Hgo Hnil; [|congruence].
  assert (checkWin (playerShips st) = true); [|congruence].
  apply (checkWin_consistent _ _ Hcons). intros x y c Hc _.
  destruct (hit c) eqn:Hh; [done|exfalso].
  assert ((x, y) ∈ cellsWhere (λ c, negb (hit c)) (playerBoard st)) as Hin.
  { apply elem_of_cellsWhere. exists c. cbn [fst snd]. rewrite Hh.
    split_and!; [done..|].
    apply (coords_getCell _ (x, y) (cons_board _ _ Hcons)). eauto. }
  rewrite Hnil in Hin. by apply elem_of_nil in Hin.
Qed.

(** A shot of the opponent from a live state that it leads leaves one
    unfired cell less. *)
Lemma cpuFire_progress st r :
  cpu_leads st → in_range r → gameOver st = None →
  ∃ st', cpuFire st r = Returned st' ∧ cpu_leads st' ∧
         (length (cellsWhere (λ c, negb (hit c)) (playerBoard st')) + 1 =
          length (cellsWhere (λ c, negb (hit c)) (playerBoard st)))%nat.
Proof.
  intros Hlead Hr Hgo.
  destruct (cpuFire_leads st r Hlead Hr) as (st' & Hfire & Hlead' & _).
  exists st'. split_and!; [done..|].
  pose proof (cpu_leads_unfired st Hlead Hgo) as Hleft.
  destruct Hlead as (Hcons & _).
  pose proof (candidates_Returned _ (cons_board _ _ Hcons)) as Hcands.
  apply cpuFire_cases in Hfire
    as [[-> [[? Hgo']|Hnil]]|
        (_ & cands & px & py & nb & ns & res & Hcands' & Hpick & Hrun & ->)].
  - congruence.
  - rewrite Hcands in Hnil. by injection Hnil as Hnil.
  - cbn [playerBoard]. rewrite Hcands in Hcands'. injection Hcands' as <-.
    apply index_Some in Hpick as [_ Hpick].
    apply list_elem_of_lookup_2 in Hpick.
    apply elem_of_cellsWhere in Hpick as (c & Hcell & Hh & _).
    cbn [fst snd] in Hcell. apply negb_true_iff in Hh.
    destruct (registerHit_count _ _ _ _ c _ _ _ (cons_board _ _ Hcons) Hcell Hrun)
      as [_ Hcount]. rewrite Hh in Hcount.
    pose proof (unfired_count _ (cons_board _ _ Hcons)).
    assert (board_ok nb) as Hnb.
    { eapply cons_board, registerHit_Returned_consistent; [apply Hcons|apply Hrun]. }
    pose proof (unfired_count _ Hnb). lia.
Qed.

Lemma cpuFires_wins st rs :
  cpu_leads st → Forall in_range rs →
  (gameOver st = None →
   (length (cellsWhere (λ c, negb (hit c)) (playerBoard st)) ≤ length rs)%nat) →
  ∃ st', cpuFires st rs = Returned st' ∧ gameOver st' = Some cpu.
Proof.
  intros Hlead Hrs. revert st Hlead.
  induction Hrs as [|r rs Hr _ IH]; intros st Hlead Hlen.
  { exists st. split; [done|].
    destruct (gameOver st) as [[]|] eqn:Hgo.
    - destruct Hlead as (_ & [[? _]|[? _]]); congruence.
    - done.
    - pose proof (cpu_leads_unfired st Hlead Hgo) as Hleft.
      specialize (Hlen eq_refl). destruct (cellsWhere _ _); [done|].
      cbn [length] in Hlen. lia. }
  unfold cpuFires in *. rewrite loop_state_cons.
  destruct (gameOver st) as [w|] eqn:Hgo.
  - assert (cpuFire st r = Returned st) as ->.
    { unfold cpuFire. by rewrite Hgo. }
    cbn [mbind outcome_bind]. apply IH; [done|]. congruence.
  - destruct (cpuFire_progress st r Hlead Hr Hgo)
      as (st1 & -> & Hlead1 & Hless).
    cbn [mbind outcome_bind]. apply IH; [done|]. intros _.
    specialize (Hlen eq_refl). cbn [length] in Hlen. lia.
Qed.

(** X27: the opponent left to itself wins: from a live state whose
    player side is consistent and not destroyed, a hundred shots of the
    opponent with draws in range all return, and the game is then won by
    the opponent. *)
Theorem cpu_wins_within_100_shots st rs :
  consistent (playerBoard st) (playerShips st) →
  gameOver st = None → checkWin (playerShips st) = false →
  Forall in_range rs → length rs = 100%nat →
  ∃ st', cpuFires st rs = Returned st' ∧ gameOver st' = Some cpu ∧
         checkWin (playerShips st') = true.
Proof.
  intros Hcons Hgo Hwin Hrs Hlen.
  assert (cpu_leads st) as Hlead by (split; [done|by left]).
  destruct (cpuFires_wins st rs Hlead Hrs) as (st' & Hrun & Hover).
  { intros _. rewrite Hlen.
    pose proof (unfired_count _ (cons_board _ _ Hcons)). lia. }
  exists st'. split_and!; [done..|].
  destruct (cpuFires_leads st rs Hlead Hrs) as (st'' & Hrun' & Hlead' & _).
  rewrite Hrun in Hrun'. injection Hrun' as <-.
  destruct Hlead' as (_ & [[? _]|[_ ?]]); [congruence|done].
Qed.

Lemma cpu_wins_within_100_shots_witness :
  ∃ st', cpuFires soloGame (replicate 100 zeroDraw) = Returned st' ∧
         gameOver st' = Some cpu ∧ checkWin (playerShips st') = true.
Proof.
  apply (cpu_wins_within_100_shots soloGame (replicate 100 zeroDraw)).
  - apply consistentb_sound. vm_compute. reflexivity.
  - reflexivity.
  - reflexivity.
  - apply Forall_replicate, in_range_ratio. lia.
  - apply length_replicate.
Defined.

(** *** Saved results *)

Lemma wins_le gameResults :
  (playerWins gameResults + computerWins gameResults
   ≤ totalGames gameResults)%nat.
Proof.
  unfold playerWins, computerWins, totalGames.
  induction gameResults as [|g rs IH]; [done|].
  rewrite !filter_cons. cbn [length].
  destruct (decide (winner g = "player")) as [Hp|Hp];
    destruct (decide (winner g = "computer")) as [Hc|Hc]; cbn [length];
    [congruence|lia..].
Qed.

(** X28: the column that [saveGameResult] writes for either winner
    passes the check constraint of the table; and the two win counts of
    the statistics add up to the number of games exactly when every row
    passes it. *)
Theorem stats_wins_add_up :
  (∀ w shots, winner_check (mkResult (winnerLabel w) shots)) ∧
  (∀ gameResults,
     (playerWins gameResults + computerWins gameResults)%nat
       = totalGames gameResults ↔
     Forall winner_check gameResults).
Proof.
  split.
  { intros [] shots; [by left|by right]. }
  induction gameResults as [|g rs IH]; [done|].
  rewrite Forall_cons, <- IH. pose proof (wins_le rs) as Hle. revert Hle.
  unfold playerWins, computerWins, totalGames, winner_check.
  rewrite !filter_cons. cbn [length].
  destruct (decide (winner g = "player")) as [Hp|Hp];
    destruct (decide (winner g = "computer")) as [Hc|Hc]; cbn [length];
    intros Hle.
  - congruence.
  - split; [intros; split; [by left|lia]|intros [_ ?]; lia].
  - split; [intros; split; [by right|lia]|intros [_ ?]; lia].
  - split; [lia|intros [[?|?] _]; done].
Qed.

(** *** Durations *)

Lemma string_length_app (s t : string) :
  String.length (s +:+ t) = (String.length s + String.length t)%nat.
Proof. induction s as [|c s IH]; [done|]. simpl. by f_equal. Qed.

Lemma string_app_inj_length (s s' t t' : string) :
  String.length s = String.length s' →
  s +:+ t = s' +:+ t' → s = s' ∧ t = t'.
Proof.
  revert s'. induction s as [|c s IH]; intros [|c' s']; cbn; try done.
  intros [= Hlen] [= -> Heq]. destruct (IH s' Hlen Heq) as [-> ->]. done.
Qed.

(** The seconds of a duration are shown with two digits, and tell the
    seconds apart. *)
Lemma seconds_two_digits :
  Forall (λ r, String.length (padStart 2 "0"%char (pretty r)) = 2%nat ∧
               Forall (λ r', padStart 2 "0"%char (pretty r) = padStart 2 "0"%char (pretty r') →
                             r = r') (seqZ 0 60))
         (seqZ 0 60).
Proof. apply (bool_decide_unpack _). vm_compute. reflexivity. Qed.

(** X29: [formatDuration] shows different positive durations
    differently, with the seconds on two digits; a duration of 0 seconds
    is shown as a missing one. *)
Theorem formatDuration_tells_apart :
  (∀ s s', 0 < s → 0 < s' →
     formatDuration (Some s) = formatDuration (Some s') → s = s') ∧
  formatDuration (Some 0) = formatDuration None.
Proof.
  split; [|done]. intros s s' Hs Hs'. unfold formatDuration.
  rewrite !(proj2 (Z.eqb_neq _ 0)) by lia. cbv zeta.
  assert (∀ r, 0 ≤ r < 60 →
    String.length (padStart 2 "0"%char (pretty r)) = 2%nat ∧
    ∀ r', 0 ≤ r' < 60 →
      padStart 2 "0"%char (pretty r) = padStart 2 "0"%char (pretty r') → r = r') as Hsec.
  { intros r Hr. pose proof seconds_two_digits as Hall.
    rewrite Forall_forall in Hall. destruct (Hall r) as [Hlen Hinj].
    { apply elem_of_seqZ. lia. }
    split; [done|]. intros r' Hr'. rewrite Forall_forall in Hinj.
    apply Hinj, elem_of_seqZ. lia. }
  pose proof (Z.rem_bound_pos s 60) as Hr.
  pose proof (Z.rem_bound_pos s' 60) as Hr'.
  destruct (Hsec (s `rem` 60)) as [Hlen Hinj]; [lia|].
  destruct (Hsec (s' `rem` 60)) as [Hlen' _]; [lia|].
  intros Heq.
  assert (String.length (pretty (s `div` 60)) =
          String.length (pretty (s' `div` 60))) as Hmin.
  { apply (f_equal String.length) in Heq.
    rewrite !string_length_app, Hlen, Hlen' in Heq. lia. }
  apply string_app_inj_length in Heq as [Hm Hs60]; [|done].
  apply (inj pretty) in Hm. injection Hs60 as Hs60.
  apply Hinj in Hs60; [|lia].
  rewrite (Z.quot_rem' s 60), (Z.quot_rem' s' 60).
  rewrite !Z.quot_div_nonneg by lia. lia.
Qed.

Lemma formatDuration_tells_apart_witness :
  125 = 125 ∧ formatDuration (Some 125) = "2:05" ∧
  formatDuration (Some 0) = formatDuration None.
Proof.
  split_and!.
  - apply (proj1 formatDuration_tells_apart 125 125); [lia|lia|reflexivity].
  - vm_compute. reflexivity.
  - apply (proj2 formatDuration_tells_apart).
Defined.

(** *** The order of the ships *)

Lemma descending_sublist l k :
  l `sublist_of` k → descending k → descending l.
Proof.
  induction 1 as [|x l k Hsub IH|x l k Hsub IH]; intros Hk.
  - done.
  - assert (descending k) as Hk'.
    { intros i j a b Hij Hi Hj. by apply (Hk (S i) (S j) a b); [lia|..]. }
    intros [|i] [|j] a b Hij Hi Hj; cbn in Hi, Hj; simplify_eq.
    + done.
    + apply list_elem_of_lookup_2 in Hj.
      eapply elem_of_sublist in Hj; [|done].
      apply list_elem_of_lookup_1 in Hj as [j' Hj'].
      by apply (Hk 0%nat (S j') a b); [lia|..].
    + lia.
    + apply (IH Hk' i j a b); [lia|done..].
  - apply IH. intros i j a b Hij Hi Hj.
    by apply (Hk (S i) (S j) a b); [lia|..].
Qed.

Lemma descending_SHIP_SIZES : descending SHIP_SIZES.
Proof.
  assert (∀ (l : list Z) x, Forall (λ b, b ≤ x) l → descending l →
            descending (x :: l)) as Hcons.
  { intros l x Hx Hl [|i] [|j] a b Hij Hi Hj; cbn in Hi, Hj; simplify_eq.
    - done.
    - apply list_elem_of_lookup_2 in Hj.
      by apply (proj1 (Forall_forall _ _) Hx).
    - lia.
    - apply (Hl i j a b); [lia|done..]. }
  unfold SHIP_SIZES.
  repeat (apply Hcons; [repeat constructor; lia|]). by intros [|i].
Qed.

Lemma placeShip_ordered st placed x y size h st' :
  placement_inv st placed → ordered st placed →
  placeShip st x y size h = Returned st' →
  ordered st' (placed ++ [size]).
Proof.
  intros Hinv Hord.
  unfold placeShip. intros (b & _ & [= <-])%bind_Returned.
  intros i s. cbn [p_ships]. rewrite lookup_insert.
  pose proof (pi_next _ _ Hinv) as Hnext.
  destruct (decide (p_shipId st = i)) as [<-|Hne].
  - intros [= <-]. cbn [Ship.size].
    replace (Z.to_nat (p_shipId st - 1)) with (length placed) by lia.
    by rewrite lookup_app_r, Nat.sub_diag by lia.
  - intros Hs. apply lookup_app_l_Some. by apply Hord.
Qed.

Lemma attempts_ordered rand size n st placed st' :
  placement_inv st placed → ordered st placed → 0 ≤ size →
  attempts rand size n st = Returned st' →
  (placement_inv st' placed ∧ ordered st' placed) ∨
  (placement_inv st' (placed ++ [size]) ∧ ordered st' (placed ++ [size])).
Proof.
  intros Hinv Hord Hsize. revert st Hinv Hord.
  induction n as [|n IH]; intros [b s i k] Hinv Hord; cbn [attempts].
  { intros [= <-]. by left. }
  cbn [p_calls p_board p_ships p_shipId].
  destruct (canPlaceShip _ _ _ _ _) as [[]| |] eqn:Hcan; [| |done..].
  - intros Hplace. right.
    apply (placement_inv_calls _ _ _ _ (S (S (S k)))) in Hinv.
    destruct (placeShip_inv _ _ _ _ _ _ Hinv Hsize Hcan) as (st1 & Hst1 & _ & ?).
    rewrite Hplace in Hst1. injection Hst1 as <-. split; [done|].
    by eapply placeShip_ordered.
  - apply IH; [|done]. by eapply placement_inv_calls.
Qed.

Lemma place_all_ordered rand sizes st placed st' :
  placement_inv st placed → ordered st placed → Forall (λ s, 0 ≤ s) sizes →
  loop_state (λ st size, attempts rand size 500 st) st sizes = Returned st' →
  ∃ placed', ordered st' (placed ++ placed') ∧ placed' `sublist_of` sizes.
Proof.
  intros Hinv Hord Hsizes. revert st placed Hinv Hord.
  induction Hsizes as [|size sizes Hsize _ IH]; intros st placed Hinv Hord.
  { cbn [loop_state]. intros [= <-]. exists []. by rewrite app_nil_r. }
  rewrite loop_state_cons.
  intros (st1 & Hfirst & Hrest)%bind_Returned.
  destruct (attempts_ordered _ _ _ _ _ _ Hinv Hord Hsize Hfirst)
    as [[Hinv1 Hord1]|[Hinv1 Hord1]];
    destruct (IH _ _ Hinv1 Hord1 Hrest) as (placed' & Hord' & Hsub).
  - exists placed'. split; [done|]. by apply sublist_cons.
  - exists (size :: placed'). rewrite <- app_assoc in Hord'.
    split; [done|]. by apply sublist_skip.
Qed.

(** X30: for every sequence of draws the generator returns a fleet whose
    ids follow the order of the configured sizes: of two ships, the one
    with the larger id is not the longer one. *)
Theorem placement_ids_follow_sizes (rand : rng) (calls : nat) :
  ∃ board ships calls',
    placeShipsRandomly rand calls = Returned (board, ships, calls') ∧
    ∀ i j si sj, ships !! i = Some si → ships !! j = Some sj → i ≤ j →
      Ship.size sj ≤ Ship.size si.
Proof.
  destruct (placeShipsRandomly_inv rand calls)
    as (b & ships & calls' & placed0 & Hrun & Hinv & _).
  exists b, ships, calls'. split; [done|].
  destruct (placeShipsRandomly_loop _ _ _ _ _ Hrun) as [k Hloop].
  assert (ordered (mkPlacing createEmptyBoard ∅ 1 calls) []) as Hord0.
  { intros i s. cbn [p_ships]. by rewrite lookup_empty. }
  assert (Forall (λ s, 0 ≤ s) SHIP_SIZES) as Hpos.
  { unfold SHIP_SIZES. repeat constructor; lia. }
  destruct (place_all_ordered rand SHIP_SIZES _ [] _
              (placement_inv_init calls) Hord0 Hpos Hloop)
    as (placed & Hord & Hsub).
  cbn [app] in Hord.
  pose proof (descending_sublist _ _ Hsub descending_SHIP_SIZES) as Hdesc.
  intros i j si sj Hi Hj Hij.
  pose proof (pi_ship _ _ Hinv i si Hi) as [Hi1 _].
  apply (Hdesc (Z.to_nat (i - 1)) (Z.to_nat (j - 1))); [lia|..].
  - by apply (Hord i si).
  - by apply (Hord j sj).
Qed.
